(** * mailmcp: body extraction, text normalisation, token lifecycle and
      account store, embedded from [email-service.ts] and [storage.ts]. *)

From Stdlib Require Import String Ascii NArith ZArith Bool Arith Lia List.
Import ListNotations.

(** ** JavaScript strings

    A JavaScript string is a sequence of UTF-16 code units.  The cleanup
    code removes code units such as U+200B, so strings are lists of code
    units and not lists of bytes. *)

Definition jschar := N.
Definition jsstring := list N.

(** ASCII literals, for readable statements. *)
Definition str (s : string) : jsstring :=
  List.map N_of_ascii (list_ascii_of_string s).

Local Open Scope N_scope.

(** LineTerminator of ECMAScript: LF, CR, LS, PS. *)
Definition isLineTerminator (c : N) : bool :=
  (c =? 10) || (c =? 13) || (c =? 8232) || (c =? 8233).

(** The class [\s]: WhiteSpace and LineTerminator of ECMAScript. *)
Definition isWhiteSpace (c : N) : bool :=
  (c =? 9) || (c =? 10) || (c =? 11) || (c =? 12) || (c =? 13) ||
  (c =? 32) || (c =? 160) || (c =? 5760) ||
  ((8192 <=? c) && (c <=? 8202)) ||
  (c =? 8232) || (c =? 8233) || (c =? 8239) || (c =? 8287) ||
  (c =? 12288) || (c =? 65279).

Definition isDigit (c : N) : bool := (48 <=? c) && (c <=? 57).

(** [String.prototype.trim]: strips WhiteSpace and LineTerminator code
    units from both ends. *)
Fixpoint trimStart (s : jsstring) : jsstring :=
  match s with
  | [] => []
  | c :: s' => if isWhiteSpace c then trimStart s' else s
  end.

Fixpoint trimEnd (s : jsstring) : jsstring :=
  match s with
  | [] => []
  | c :: s' =>
      match trimEnd s' with
      | [] => if isWhiteSpace c then [] else [c]
      | t => c :: t
      end
  end.

Definition trim (s : jsstring) : jsstring := trimEnd (trimStart s).

(** ** Regular expressions

    The subset of ECMAScript patterns that the service uses: literal
    characters, classes, [.], the assertions [^] and [$], sequence,
    alternation, capture groups, and quantifiers over one-character atoms
    (every quantifier in the source is applied to such an atom). *)

Inductive citem : Type :=
| CChar (c : N)
| CRange (lo hi : N)
| CSpace
| CNotSpace
| CDigit.

Inductive atom : Type :=
| ASet (items : list citem)
| ANotSet (items : list citem)
| ADot.

Inductive regex : Type :=
| REmpty
| RAtom (a : atom)
| RBol
| REol
| RSeq (r1 r2 : regex)
| RAlt (r1 r2 : regex)
| RQuant (a : atom) (lo : nat) (hi : option nat) (greedy : bool)
| RGroup (n : nat) (r : regex).

Record flags : Type := Flags { ignoreCase : bool; multiline : bool }.

(** Canonicalize of ECMAScript for the [i] flag.  Every pattern of the
    service is ASCII, and a non-ASCII code unit never canonicalizes to an
    ASCII one, so upper-casing the ASCII letters decides the same matches. *)
Definition canon (fl : flags) (c : N) : N :=
  if ignoreCase fl && (97 <=? c) && (c <=? 122) then c - 32 else c.

Definition swapCase (c : N) : N :=
  if (97 <=? c) && (c <=? 122) then c - 32
  else if (65 <=? c) && (c <=? 90) then c + 32 else c.

Definition citem_ok (fl : flags) (it : citem) (c : N) : bool :=
  match it with
  | CChar a => canon fl a =? canon fl c
  | CRange lo hi =>
      ((lo <=? c) && (c <=? hi)) ||
      (ignoreCase fl && (lo <=? swapCase c) && (swapCase c <=? hi))
  | CSpace => isWhiteSpace c
  | CNotSpace => negb (isWhiteSpace c)
  | CDigit => isDigit c
  end.

Definition atom_ok (fl : flags) (a : atom) (c : N) : bool :=
  match a with
  | ASet items => existsb (fun it => citem_ok fl it c) items
  | ANotSet items => negb (existsb (fun it => citem_ok fl it c) items)
  | ADot => negb (isLineTerminator c)
  end.

(** Captures: group number and captured text, most recent first. *)
Definition caps := list (nat * jsstring).

Definition mresult := (jsstring * caps)%type.

(** A continuation receives the text consumed so far by the enclosing
    matcher, the code unit before the current position, the remaining
    input and the captures. *)
Definition cont := jsstring -> option N -> jsstring -> caps -> option mresult.

Definition at_bol (fl : flags) (prev : option N) : bool :=
  match prev with
  | None => true
  | Some c => multiline fl && isLineTerminator c
  end.

Definition at_eol (fl : flags) (s : jsstring) : bool :=
  match s with
  | [] => true
  | c :: _ => multiline fl && isLineTerminator c
  end.

Definition hi_open (hi : option nat) : bool :=
  match hi with Some O => false | _ => true end.

Definition hi_pred (hi : option nat) : option nat :=
  match hi with Some n => Some (pred n) | None => None end.

(** Quantified atom, with backtracking in ECMAScript's order: a greedy
    quantifier tries one more repetition first, a lazy one tries to stop
    first. *)
Fixpoint quant (p : N -> bool) (greedy : bool) (lo : nat) (hi : option nat)
    (prev : option N) (s : jsstring) (cs : caps) (k : cont) {struct s}
    : option mresult :=
  let more (_ : unit) :=
    match s with
    | c :: s' =>
        if p c && hi_open hi
        then quant p greedy (pred lo) (hi_pred hi) (Some c) s' cs
               (fun m p' s'' cs' => k (c :: m) p' s'' cs')
        else None
    | [] => None
    end in
  let stop (_ : unit) :=
    match lo with
    | O => k [] prev s cs
    | S _ => None
    end in
  if greedy
  then match more tt with Some x => Some x | None => stop tt end
  else match stop tt with Some x => Some x | None => more tt end.

Fixpoint rmatch (fl : flags) (r : regex) (prev : option N) (s : jsstring)
    (cs : caps) (k : cont) {struct r} : option mresult :=
  match r with
  | REmpty => k [] prev s cs
  | RAtom a =>
      match s with
      | c :: s' => if atom_ok fl a c then k [c] (Some c) s' cs else None
      | [] => None
      end
  | RBol => if at_bol fl prev then k [] prev s cs else None
  | REol => if at_eol fl s then k [] prev s cs else None
  | RSeq r1 r2 =>
      rmatch fl r1 prev s cs (fun m1 p1 s1 cs1 =>
        rmatch fl r2 p1 s1 cs1 (fun m2 p2 s2 cs2 => k (m1 ++ m2) p2 s2 cs2))
  | RAlt r1 r2 =>
      match rmatch fl r1 prev s cs k with
      | Some x => Some x
      | None => rmatch fl r2 prev s cs k
      end
  | RQuant a lo hi greedy => quant (atom_ok fl a) greedy lo hi prev s cs k
  | RGroup n r1 =>
      rmatch fl r1 prev s cs (fun m p1 s1 cs1 => k m p1 s1 ((n, m) :: cs1))
  end.

(** A matcher tried at one position: [prev] is the code unit before the
    position, [s] the input from the position on. *)
Definition matcher := option N -> jsstring -> option mresult.

Definition exec (fl : flags) (r : regex) : matcher :=
  fun prev s => rmatch fl r prev s [] (fun m _ _ cs => Some (m, cs)).

Definition replacer := jsstring -> caps -> jsstring.

(** [String.prototype.replace] with a global pattern: matches are found
    left to right; scanning resumes after a match, one code unit further
    after an empty match.  [skip] counts the code units of the current
    match that are still to be passed over. *)
Fixpoint replace_go (ex : matcher) (rp : replacer) (skip : nat)
    (prev : option N) (s : jsstring) {struct s} : jsstring :=
  match skip with
  | S k =>
      match s with
      | [] => []
      | c :: s' => replace_go ex rp k (Some c) s'
      end
  | O =>
      match ex prev s with
      | Some (m, cs) =>
          rp m cs ++
          match s with
          | [] => []
          | c :: s' =>
              match length m with
              | O => c :: replace_go ex rp O (Some c) s'
              | S k => replace_go ex rp k (Some c) s'
              end
          end
      | None =>
          match s with
          | [] => []
          | c :: s' => c :: replace_go ex rp O (Some c) s'
          end
      end
  end.

(** The same without the [g] flag: only the first match is replaced. *)
Fixpoint replace_first_go (ex : matcher) (rp : replacer)
    (prev : option N) (s : jsstring) {struct s} : jsstring :=
  match ex prev s with
  | Some (m, cs) => rp m cs ++ skipn (length m) s
  | None =>
      match s with
      | [] => []
      | c :: s' => c :: replace_first_go ex rp (Some c) s'
      end
  end.

Definition replaceAll (fl : flags) (r : regex) (rp : replacer) (s : jsstring)
  : jsstring := replace_go (exec fl r) rp O None s.

Definition replaceFirst (fl : flags) (r : regex) (rp : replacer)
    (s : jsstring) : jsstring := replace_first_go (exec fl r) rp None s.

(** [RegExp.prototype.test]: is there a match at some position. *)
Fixpoint test_go (ex : matcher) (prev : option N) (s : jsstring) : bool :=
  match ex prev s with
  | Some _ => true
  | None =>
      match s with
      | [] => false
      | c :: s' => test_go ex (Some c) s'
      end
  end.

Definition test (fl : flags) (r : regex) (s : jsstring) : bool :=
  test_go (exec fl r) None s.

(** Replacement strings: literal text and [$n] group references. *)
Inductive titem : Type :=
| TLit (s : jsstring)
| TGroup (n : nat).

Fixpoint cap_get (n : nat) (cs : caps) : jsstring :=
  match cs with
  | [] => []
  | (i, m) :: cs' => if Nat.eqb i n then m else cap_get n cs'
  end.

Definition template (t : list titem) : replacer :=
  fun _ cs =>
    flat_map (fun it => match it with
                        | TLit s => s
                        | TGroup n => cap_get n cs
                        end) t.

Definition with_text (s : jsstring) : replacer := fun _ _ => s.

(** Pattern builders. *)
Definition chr (c : N) : regex := RAtom (ASet [CChar c]).

Fixpoint seqs (rs : list regex) : regex :=
  match rs with
  | [] => REmpty
  | [r] => r
  | r :: rs' => RSeq r (seqs rs')
  end.

Definition lit (s : string) : regex := seqs (List.map chr (str s)).

Definition star (a : atom) : regex := RQuant a 0 None true.
Definition plus (a : atom) : regex := RQuant a 1 None true.
Definition opt (a : atom) : regex := RQuant a 0 (Some 1%nat) true.
Definition lazy_star (a : atom) : regex := RQuant a 0 None false.

Definition flags_g : flags := Flags false false.
Definition flags_gm : flags := Flags false true.
Definition flags_gi : flags := Flags true false.

Definition c_of (s : string) : N :=
  match str s with c :: _ => c | [] => 0 end.

(** ** Text cleanup of [EmailService] *)

Definition blank : atom := ASet [CChar 32; CChar 9].       (* [ \t] *)
Definition space : atom := ASet [CSpace].                  (* \s *)
Definition nonspace : atom := ANotSet [CSpace].            (* [^\s] *)
Definition newline : atom := ASet [CChar 10].              (* \n *)
Definition not_gt : atom := ANotSet [CChar 62].            (* [^>] *)
Definition quote : atom := ASet [CChar 34; CChar 39].      (* either quote *)
Definition not_quote : atom := ANotSet [CChar 34; CChar 39].

(** [/\[https?:\/\/[^\]]+\]/g] *)
Definition re_bracket_url : regex :=
  seqs [chr 91; lit "http"; opt (ASet [CChar 115]); lit "://";
        plus (ANotSet [CChar 93]); chr 93].

(** [/^https?:\/\/[^\s]+$/gm] *)
Definition re_url_line : regex :=
  seqs [RBol; lit "http"; opt (ASet [CChar 115]); lit "://"; plus nonspace;
        REol].

(** [/https?:\/\/[^\s]+/g] *)
Definition re_url : regex :=
  seqs [lit "http"; opt (ASet [CChar 115]); lit "://"; plus nonspace].

(** [/^\s+$/gm] *)
Definition re_blank_line : regex := seqs [RBol; plus space; REol].

(** [/\n\s*\n\s*\n+/g] *)
Definition re_newlines : regex :=
  seqs [chr 10; star space; chr 10; star space; plus newline].

(** [/[ \t]+/g], [/\n[ \t]+/g], [/[ \t]+\n/g] *)
Definition re_blanks : regex := plus blank.
Definition re_nl_blanks : regex := seqs [chr 10; plus blank].
Definition re_blanks_nl : regex := seqs [plus blank; chr 10].

(** [/^\n+/] and [/\n+$/], both without flags *)
Definition re_leading_nl : regex := seqs [RBol; plus newline].
Definition re_trailing_nl : regex := seqs [plus newline; REol].

Definition flags_none : flags := Flags false false.

Definition delete : replacer := with_text [].

(** Steps 1 to 3 of [cleanEmailText]: bracketed links, lines that are
    only a link, links inside a line. *)
Definition removeBracketUrls (s : jsstring) : jsstring :=
  replaceAll flags_g re_bracket_url delete s.
Definition removeUrlLines (s : jsstring) : jsstring :=
  replaceAll flags_gm re_url_line delete s.
Definition removeInlineUrls (s : jsstring) : jsstring :=
  replaceAll flags_g re_url delete s.

Definition removeUrls (s : jsstring) : jsstring :=
  removeInlineUrls (removeUrlLines (removeBracketUrls s)).

(** Step 4: U+200B, U+200C, U+200D, U+FEFF, U+034F, in this order. *)
Definition zeroWidth : list N := [8203; 8204; 8205; 65279; 847].

Definition stripZeroWidth (s : jsstring) : jsstring :=
  fold_left (fun t c => replaceAll flags_g (chr c) delete t) zeroWidth s.

(** Steps 5 and 7. *)
Definition removeBlankLines (s : jsstring) : jsstring :=
  replaceAll flags_gm re_blank_line delete s.
Definition collapseNewlines (s : jsstring) : jsstring :=
  replaceAll flags_g re_newlines (with_text [10; 10]) s.
Definition collapseBlanks (s : jsstring) : jsstring :=
  replaceAll flags_g re_blanks (with_text [32]) s.
Definition stripLineStart (s : jsstring) : jsstring :=
  replaceAll flags_g re_nl_blanks (with_text [10]) s.
Definition stripLineEnd (s : jsstring) : jsstring :=
  replaceAll flags_g re_blanks_nl (with_text [10]) s.

(** Step 8. *)
Definition stripLeadingNewlines (s : jsstring) : jsstring :=
  replaceFirst flags_none re_leading_nl delete s.
Definition stripTrailingNewlines (s : jsstring) : jsstring :=
  replaceFirst flags_none re_trailing_nl delete s.

(** Everything of [cleanEmailText] after the zero-width step. *)
Definition tidyWhitespace (s : jsstring) : jsstring :=
  trim (stripTrailingNewlines (stripLeadingNewlines
    (stripLineEnd (stripLineStart (collapseBlanks
      (collapseNewlines (removeBlankLines s))))))).

(** The text as it stands before the whitespace steps. *)
Definition beforeWhitespace (text : jsstring) : jsstring :=
  stripZeroWidth (removeUrls (trim text)).

Definition cleanEmailText (text : jsstring) : jsstring :=
  match text with
  | [] => []
  | _ => tidyWhitespace (beforeWhitespace text)
  end.

(** [cleanPlainText] *)

(** [/--[A-Za-z0-9=_-]+/g] *)
Definition re_mime_boundary : regex :=
  seqs [lit "--";
        plus (ASet [CRange 65 90; CRange 97 122; CRange 48 57;
                    CChar 61; CChar 95; CChar 45])].

(** [/Content-Type:.*?\n/gi] and its two siblings *)
Definition re_header_line (name : string) : regex :=
  seqs [lit name; lazy_star ADot; chr 10].

(** [/\n\s*\n\s*\n/g] *)
Definition re_three_newlines : regex :=
  seqs [chr 10; star space; chr 10; star space; chr 10].

Definition cleanPlainText (text : jsstring) : jsstring :=
  match text with
  | [] => []
  | _ =>
      let t := replaceAll flags_g re_mime_boundary delete text in
      let t := replaceAll flags_gi (re_header_line "Content-Type:") delete t in
      let t := replaceAll flags_gi
                 (re_header_line "Content-Transfer-Encoding:") delete t in
      let t := replaceAll flags_gi
                 (re_header_line "Content-Disposition:") delete t in
      let t := replaceAll flags_g re_three_newlines (with_text [10; 10]) t in
      trim t
  end.

(** [isHtmlContent]:
    [/<\s*(html|body|div|p|br|img|a|span|table|tr|td)\s*[^>]*>/i] *)
Definition htmlTagNames : list string :=
  ["html"; "body"; "div"; "p"; "br"; "img"; "a"; "span"; "table"; "tr";
   "td"]%string.

Fixpoint alts (rs : list regex) : regex :=
  match rs with
  | [] => REmpty
  | [r] => r
  | r :: rs' => RAlt r (alts rs')
  end.

Definition re_html_tag : regex :=
  seqs [chr 60; star space; RGroup 1 (alts (List.map lit htmlTagNames));
        star space; star not_gt; chr 62].

Definition isHtmlContent (content : jsstring) : bool :=
  match content with
  | [] => false
  | _ => test flags_gi re_html_tag content
  end.

(** ** HTML to text: [decodeHtmlEntities] and [stripHtmlTags] *)

(** The entity table, in the order of [Object.entries]. *)
Definition entities : list (string * jsstring) :=
  [("&nbsp;", [32]); ("&amp;", [38]); ("&lt;", [60]); ("&gt;", [62]);
   ("&quot;", [34]); ("&#39;", [39]); ("&apos;", [39]); ("&copy;", [169]);
   ("&reg;", [174]); ("&trade;", [8482]); ("&hellip;", [46; 46; 46]);
   ("&mdash;", [8212]); ("&ndash;", [8211]); ("&lsquo;", [8216]);
   ("&rsquo;", [8217]); ("&ldquo;", [8220]); ("&rdquo;", [8221]);
   ("&bull;", [8226]); ("&euro;", [8364]); ("&pound;", [163]);
   ("&yen;", [165])]%string.

Definition hexDigit : atom :=
  ASet [CRange 48 57; CRange 65 70; CRange 97 102].

(** [/&#(\d+);/g] and [/&#x([0-9A-Fa-f]+);/g] *)
Definition re_dec_entity : regex :=
  seqs [lit "&#"; RGroup 1 (plus (ASet [CDigit])); chr 59].
Definition re_hex_entity : regex :=
  seqs [lit "&#x"; RGroup 1 (plus hexDigit); chr 59].

Definition digitValue (c : N) : N :=
  if isDigit c then c - 48
  else if (65 <=? c) && (c <=? 70) then c - 55
  else if (97 <=? c) && (c <=? 102) then c - 87
  else 0.

(** [parseInt(digits, radix)] on a string of digits of that radix.  The
    value is exact here; JavaScript rounds it to a double, which differs
    only above 2^53. *)
Definition parseInt (radix : N) (digits : jsstring) : N :=
  fold_left (fun acc c => acc * radix + digitValue c) digits 0.

(** [String.fromCharCode]: the argument modulo 2^16. *)
Definition fromCharCode (n : N) : jsstring := [n mod 65536].

Definition decodeHtmlEntities (text : jsstring) : jsstring :=
  let decoded :=
    fold_left (fun t e => replaceAll flags_gi (lit (fst e)) (with_text (snd e)) t)
              entities text in
  let decoded :=
    replaceAll flags_g re_dec_entity
      (fun _ cs => fromCharCode (parseInt 10 (cap_get 1 cs))) decoded in
  replaceAll flags_g re_hex_entity
    (fun _ cs => fromCharCode (parseInt 16 (cap_get 1 cs))) decoded.

Definition blockElements : list string :=
  ["p"; "div"; "h1"; "h2"; "h3"; "h4"; "h5"; "h6"; "li"; "dt"; "dd";
   "blockquote"; "pre"; "address"; "article"; "section"; "header"; "footer";
   "main"]%string.

(** The two patterns built for a block tag, and their effect. *)
Definition re_close_tag (tag : string) : regex :=
  seqs [lit "</"; lit tag; star not_gt; chr 62].
Definition re_open_tag (tag : string) : regex :=
  seqs [chr 60; lit tag; star not_gt; chr 62].

Definition blockStep (text : jsstring) (tag : string) : jsstring :=
  let text := replaceAll flags_gi (re_close_tag tag) (with_text [10; 10]) text in
  if String.eqb tag "li"
  then replaceAll flags_gi (re_open_tag tag) (with_text [10; 8226; 32]) text
  else replaceAll flags_gi (re_open_tag tag) (with_text [10]) text.

(** [<br\s*\/?>] and [<hr\s*\/?>] *)
Definition re_void_tag (tag : string) : regex :=
  seqs [chr 60; lit tag; star space; opt (ASet [CChar 47]); chr 62].

(** [<\/?table[^>]*>] and the like *)
Definition re_any_tag (tag : string) : regex :=
  seqs [chr 60; opt (ASet [CChar 47]); lit tag; star not_gt; chr 62].

(** [<t[dh][^>]*>] *)
Definition re_cell_open : regex :=
  seqs [lit "<t"; RAtom (ASet [CChar 100; CChar 104]); star not_gt; chr 62].

(** The link pattern: [<a], any attributes, [href], [=], a quoted value
    (group 1), the rest of the tag, the shortest text (group 2) up to the
    closing tag. *)
Definition re_anchor : regex :=
  seqs [lit "<a"; star not_gt; lit "href"; star space; chr 61; star space;
        RAtom quote; RGroup 1 (star not_quote); RAtom quote; star not_gt;
        chr 62; RGroup 2 (lazy_star ADot); lit "</a>"].

(** The image pattern with an [alt] attribute (group 1), and without. *)
Definition re_img_alt : regex :=
  seqs [lit "<img"; star not_gt; lit "alt"; star space; chr 61; star space;
        RAtom quote; RGroup 1 (star not_quote); RAtom quote; star not_gt;
        chr 62].
Definition re_img : regex := seqs [lit "<img"; star not_gt; chr 62].

(** [<script[^>]*>[\s\S]*?<\/script>] and the same for [style] *)
Definition re_element (tag : string) : regex :=
  seqs [chr 60; lit tag; star not_gt; chr 62;
        lazy_star (ASet [CSpace; CNotSpace]); lit "</"; lit tag; chr 62].

(** [/<[^>]*>/g] *)
Definition re_tag : regex := seqs [chr 60; star not_gt; chr 62].

(** [/\n{3,}/g] *)
Definition re_3_newlines : regex := RQuant newline 3 None true.

(** The label that replaces an image: U+56FE U+7247. *)
Definition imageLabel : jsstring := [22270; 29255].

Definition stripHtmlTags (html : jsstring) : jsstring :=
  match html with
  | [] => []
  | _ =>
      let text := fold_left blockStep blockElements html in
      let text := replaceAll flags_gi (re_void_tag "br") (with_text [10]) text in
      let text := replaceAll flags_gi (re_void_tag "hr")
                    (with_text (10 :: str "---" ++ [10])) text in
      let text := replaceAll flags_gi (lit "</tr>") (with_text [10]) text in
      let text := replaceAll flags_gi (lit "</td>") (with_text [9]) text in
      let text := replaceAll flags_gi (lit "</th>") (with_text [9]) text in
      let text := replaceAll flags_gi re_cell_open delete text in
      let text := replaceAll flags_gi (re_any_tag "table") (with_text [10]) text in
      let text := replaceAll flags_gi (re_any_tag "tbody") delete text in
      let text := replaceAll flags_gi (re_any_tag "thead") delete text in
      let text := replaceAll flags_gi (re_open_tag "tr") delete text in
      let text := replaceAll flags_gi re_anchor
                    (template [TGroup 2; TLit (str " ("); TGroup 1;
                               TLit (str ")")]) text in
      let text := replaceAll flags_gi re_img_alt
                    (template [TLit (91 :: imageLabel ++ str ": "); TGroup 1;
                               TLit (str "]")]) text in
      let text := replaceAll flags_gi re_img
                    (with_text (91 :: imageLabel ++ [93])) text in
      let text := replaceAll flags_gi (re_element "script") delete text in
      let text := replaceAll flags_gi (re_element "style") delete text in
      let text := replaceAll flags_g re_tag delete text in
      let text := decodeHtmlEntities text in
      let text := replaceAll flags_g re_blanks (with_text [32]) text in
      let text := replaceAll flags_g re_nl_blanks (with_text [10]) text in
      let text := replaceAll flags_g re_blanks_nl (with_text [10]) text in
      let text := replaceAll flags_g re_3_newlines (with_text [10; 10]) text in
      trim text
  end.

(** ** Body resolution *)

Local Close Scope N_scope.

(** A Node [Buffer]. *)
Definition Buffer := list Byte.byte.

(** A thrown [Error] carries its message. *)
Inductive outcome (A : Type) : Type :=
| Ok (a : A)
| Throw (msg : string).

Arguments Ok {A} a.
Arguments Throw {A} msg.

(** The [bodyParts] of a fetched message: a [Map] from part label to
    content, in insertion order. *)
Definition BodyParts := list (string * Buffer).

Fixpoint map_get (key : string) (parts : BodyParts) : option Buffer :=
  match parts with
  | [] => None
  | (k, v) :: rest => if String.eqb k key then Some v else map_get key rest
  end.

(** What [simpleParser] hands back, as far as the service reads it:
    [text] is a string or undefined, [html] a string or [false]. *)
Record ParsedMail : Type := {
  parsed_text : option jsstring;
  parsed_html : option jsstring
}.

(** Truthiness of an optional string: defined and not empty. *)
Definition truthy (o : option jsstring) : bool :=
  match o with
  | Some (_ :: _) => true
  | _ => false
  end.

(** A message yielded by [client.fetch]. *)
Record FetchMessage : Type := {
  fm_uid : N;
  fm_source : option Buffer
}.

(** The IMAP client, as far as [performEmailFetch] drives it. *)
Record ImapClient : Type := {
  client_connect : outcome unit;
  client_fetchEnvelope : N -> list FetchMessage;
  client_fetchSource : N -> list FetchMessage
}.

Section BodyResolution.

(** Library functions, not part of the repository:
    [Buffer.toString('utf8')], mailparser's [simpleParser] and
    html-to-text's [htmlToText] with the options of the call. *)
Variable utf8 : Buffer -> jsstring.
Variable simpleParser : Buffer -> ParsedMail.
Variable htmlToText : jsstring -> jsstring.

Definition sniffAndConvert (content : jsstring) : jsstring :=
  if isHtmlContent content then stripHtmlTags content
  else cleanPlainText content.

(** The first entry whose key is not [HEADER]; a [Buffer] is an object
    and therefore always truthy. *)
Fixpoint firstBodyEntry (parts : BodyParts) : option Buffer :=
  match parts with
  | [] => None
  | (k, v) :: rest =>
      if negb (String.eqb k "HEADER") then Some v else firstBodyEntry rest
  end.

(** Listing path. *)
Definition extractBodyFromParts (bodyParts : option BodyParts) : jsstring :=
  match bodyParts with
  | None => []
  | Some parts =>
      match map_get "TEXT" parts with
      | Some textPart => utf8 textPart
      | None =>
          match firstBodyEntry parts with
          | Some content => sniffAndConvert (utf8 content)
          | None => []
          end
      end
  end.

(** Detail path. *)
Definition processEmailBodyFromParts (bodyParts : option BodyParts)
  : jsstring :=
  match bodyParts with
  | None => []
  | Some parts =>
      match map_get "TEXT" parts with
      | Some textPart => sniffAndConvert (utf8 textPart)
      | None =>
          match map_get "1" parts with
          | Some firstBodyPart => sniffAndConvert (utf8 firstBodyPart)
          | None =>
              match firstBodyEntry parts with
              | Some content => sniffAndConvert (utf8 content)
              | None => []
              end
          end
      end
  end.

(** The loop that picks the source of the message with the asked uid. *)
Fixpoint findSource (uid : N) (msgs : list FetchMessage) : option Buffer :=
  match msgs with
  | [] => None
  | m :: rest =>
      if N.eqb (fm_uid m) uid then fm_source m else findSource uid rest
  end.

(** The choice between the two representations of a parsed message;
    [None] is JavaScript's [null]. *)
Definition resolveParsed (parsed : ParsedMail) : jsstring :=
  if truthy (parsed_text parsed)
  then cleanEmailText (match parsed_text parsed with
                       | Some t => t | None => [] end)
  else if truthy (parsed_html parsed)
  then cleanEmailText (htmlToText (match parsed_html parsed with
                                   | Some h => h | None => [] end))
  else [].

Definition performEmailFetch (client : ImapClient) (uid : N)
  : outcome (option jsstring) :=
  match client_connect client with
  | Throw e => Throw e
  | Ok _ =>
      match client_fetchEnvelope client uid with
      | [] => Ok None
      | _ :: _ =>
          match findSource uid (client_fetchSource client uid) with
          | None => Ok None
          | Some emailSource => Ok (Some (resolveParsed (simpleParser emailSource)))
          end
      end
  end.

End BodyResolution.

(** ** The account store ([EmailStorage]) *)

Local Open Scope string_scope.

Record EmailAccount : Type := {
  email : string;
  displayName : option string;
  provider : string;
  username : string;
  password : string;
  imapHost : string;
  imapPort : Z;
  smtpHost : string;
  smtpPort : Z;
  secure : bool;
  lastLogin : option string;
  isActive : bool;
  accessToken : option string;
  refreshToken : option string;
  tokenExpiry : option string
}.

Record StorageData : Type := {
  accounts : list EmailAccount;
  defaultAccount : option string;
  lastUpdated : string
}.

(** Truthiness of an optional string field. *)
Definition isSet (o : option string) : bool :=
  match o with
  | Some "" => false
  | Some _ => true
  | None => false
  end.

(** The store file, up to what [JSON.parse] makes of it. *)
Inductive file_content : Type :=
| FileEmpty
| FileInvalid
| FileJson (d : StorageData).

(** Calls into Node's [fs] module. *)
Inductive fs_event : Type :=
| FsMkdir (path : string)
| FsReadFile (path : string)
| FsWriteFile (path : string) (c : file_content)
| FsRename (src dst : string).

Definition STORAGE_DIR : string := "~/.mailmcp".
Definition STORAGE_PATH : string := "~/.mailmcp/storage.json".

(** The disk: the content of each path, whether writes succeed, and the
    calls made so far (latest first). *)
Record Disk : Type := {
  files : string -> option file_content;
  writable : bool;
  fs_log : list fs_event
}.

Definition log_fs (e : fs_event) (d : Disk) : Disk :=
  {| files := files d; writable := writable d; fs_log := e :: fs_log d |}.

(** [fs.writeFile(path, text)]: fails on a disk that refuses writes. *)
Definition writeFile (path : string) (c : file_content) (d : Disk)
  : outcome unit * Disk :=
  let d := log_fs (FsWriteFile path c) d in
  if writable d
  then (Ok tt,
        {| files := fun p => if String.eqb p path then Some c else files d p;
           writable := writable d; fs_log := fs_log d |})
  else (Throw "EACCES", d).

Definition update_account (a : EmailAccount) (ll : option string)
    (act : bool) : EmailAccount :=
  {| email := email a; displayName := displayName a; provider := provider a;
     username := username a; password := password a; imapHost := imapHost a;
     imapPort := imapPort a; smtpHost := smtpHost a; smtpPort := smtpPort a;
     secure := secure a; lastLogin := ll; isActive := act;
     accessToken := accessToken a; refreshToken := refreshToken a;
     tokenExpiry := tokenExpiry a |}.

Definition with_tokens (a : EmailAccount) (at_ : option string)
    (rt : option string) (te : option string) (ll : option string)
  : EmailAccount :=
  {| email := email a; displayName := displayName a; provider := provider a;
     username := username a; password := password a; imapHost := imapHost a;
     imapPort := imapPort a; smtpHost := smtpHost a; smtpPort := smtpPort a;
     secure := secure a; lastLogin := ll; isActive := isActive a;
     accessToken := at_; refreshToken := rt; tokenExpiry := te |}.

(** [Array.prototype.findIndex] on the account's address. *)
Fixpoint findIndex (e : string) (l : list EmailAccount) : option nat :=
  match l with
  | [] => None
  | a :: rest =>
      if String.eqb (email a) e then Some O
      else match findIndex e rest with
           | Some i => Some (S i)
           | None => None
           end
  end.

(** [splice(index, 1)] *)
Fixpoint splice1 (i : nat) (l : list EmailAccount) : list EmailAccount :=
  match l, i with
  | [], _ => []
  | _ :: rest, O => rest
  | a :: rest, S j => a :: splice1 j rest
  end.

(** [accounts[index] = a] for an index in range. *)
Fixpoint set_nth (i : nat) (a : EmailAccount) (l : list EmailAccount)
  : list EmailAccount :=
  match l, i with
  | [], _ => []
  | _ :: rest, O => a :: rest
  | b :: rest, S j => b :: set_nth j a rest
  end.

Section Storage.

(** The clock: [new Date().toISOString()]. *)
Variable nowISO : string.

Definition createDefaultStorageData : StorageData :=
  {| accounts := []; defaultAccount := None; lastUpdated := nowISO |}.

(** [initializeStorage]: a missing, empty or unparsable file is replaced
    by the default structure. *)
Definition initializeStorage (d : Disk) : outcome unit * Disk :=
  let d := log_fs (FsReadFile STORAGE_PATH) (log_fs (FsMkdir STORAGE_DIR) d) in
  match files d STORAGE_PATH with
  | Some (FileJson _) => (Ok tt, d)
  | _ => writeFile STORAGE_PATH (FileJson createDefaultStorageData) d
  end.

(** [readStorage] never throws: on any failure it falls back to the
    default structure. *)
Definition readStorage (d : Disk) : StorageData * Disk :=
  match initializeStorage d with
  | (Throw _, d1) =>
      let (_, d2) := writeFile STORAGE_PATH (FileJson createDefaultStorageData) d1 in
      (createDefaultStorageData, d2)
  | (Ok _, d1) =>
      let d2 := log_fs (FsReadFile STORAGE_PATH) d1 in
      match files d2 STORAGE_PATH with
      | Some (FileJson data) => (data, d2)
      | _ =>
          let (_, d3) := writeFile STORAGE_PATH (FileJson createDefaultStorageData) d2 in
          (createDefaultStorageData, d3)
      end
  end.

Definition stamp (data : StorageData) : StorageData :=
  {| accounts := accounts data; defaultAccount := defaultAccount data;
     lastUpdated := nowISO |}.

(** [writeStorage]: one [fs.writeFile] of the whole structure to the
    store path. *)
Definition writeStorage (data : StorageData) (d : Disk) : outcome unit * Disk :=
  match writeFile STORAGE_PATH (FileJson (stamp data)) d with
  | (Ok _, d') => (Ok tt, d')
  | (Throw _, d') => (Throw "Failed to write storage data", d')
  end.

Definition getAccount (emailOrDisplayName : string) (d : Disk)
  : option EmailAccount * Disk :=
  let (storage, d1) := readStorage d in
  (find (fun acc =>
           String.eqb (email acc) emailOrDisplayName ||
           match displayName acc with
           | Some n => String.eqb n emailOrDisplayName
           | None => false
           end) (accounts storage), d1).

(** The [StorageData] that [removeAccount] hands to [writeStorage]. *)
Definition removeFrom (e : string) (storage : StorageData)
  : option StorageData :=
  match findIndex e (accounts storage) with
  | None => None
  | Some index =>
      let accs := splice1 index (accounts storage) in
      Some {| accounts := accs;
              defaultAccount :=
                match defaultAccount storage with
                | Some d =>
                    if String.eqb d e
                    then match accs with
                         | a :: _ => Some (email a)
                         | [] => None
                         end
                    else Some d
                | None => None
                end;
              lastUpdated := lastUpdated storage |}
  end.

Definition removeAccount (e : string) (d : Disk) : outcome unit * Disk :=
  let (storage, d1) := readStorage d in
  match removeFrom e storage with
  | None => (Throw ("Account not found: " ++ e), d1)
  | Some storage' => writeStorage storage' d1
  end.

Definition updateAccount (account : EmailAccount) (d : Disk)
  : outcome unit * Disk :=
  let (storage, d1) := readStorage d in
  match findIndex (email account) (accounts storage) with
  | None => (Throw ("Account not found: " ++ email account), d1)
  | Some index =>
      writeStorage
        {| accounts := set_nth index
                         (update_account account (Some nowISO) (isActive account))
                         (accounts storage);
           defaultAccount := defaultAccount storage;
           lastUpdated := lastUpdated storage |} d1
  end.


End Storage.

(** ** Token lifecycle and the operations that need a credential *)

(** [String.prototype.includes] *)
Fixpoint includes (needle hay : string) : bool :=
  if String.prefix needle hay then true
  else match hay with
       | EmptyString => false
       | String _ rest => includes needle rest
       end.

(** Calls that leave the process. *)
Inductive net_event : Type :=
| NetLocalRefresh (address token : string)
| NetGoogleRefresh (token : string)
| NetImapConnect (host user : string)
| NetSmtpSend (recipient : string).

(** Answer of the refresh endpoint: no answer, a status that is not 2xx,
    or a JSON body. *)
Inductive LocalResponse : Type :=
| LocalUnreachable (msg : string)
| LocalHttpError
| LocalJson (success : bool) (access_token : option string)
    (expires_at : option string) (refresh_token : option string).

(** Answer of Google's token endpoint. *)
Inductive GoogleResponse : Type :=
| GoogleUnreachable (msg : string)
| GoogleHttpError (status : string)
| GoogleJson (error : option string) (access_token : option string)
    (expires_in : option Z) (refresh_token : option string).

Record SendEmailOptions : Type := {
  mail_to : string;
  mail_subject : string;
  mail_text : option string;
  mail_html : option string
}.

(** An [EmailService] instance together with the world it acts on. *)
Record Service : Type := {
  account : EmailAccount;
  imapFlow : bool;
  net_log : list net_event;
  disk : Disk
}.

Definition log_net (e : net_event) (svc : Service) : Service :=
  {| account := account svc; imapFlow := imapFlow svc;
     net_log := e :: net_log svc; disk := disk svc |}.

Definition set_account (a : EmailAccount) (svc : Service) : Service :=
  {| account := a; imapFlow := imapFlow svc; net_log := net_log svc;
     disk := disk svc |}.

Definition set_disk (d : Disk) (svc : Service) : Service :=
  {| account := account svc; imapFlow := imapFlow svc;
     net_log := net_log svc; disk := d |}.

Definition set_imapFlow (b : bool) (svc : Service) : Service :=
  {| account := account svc; imapFlow := b; net_log := net_log svc;
     disk := disk svc |}.

Definition msg_reauth : string :=
  "OAuth token expired and refresh failed. Please re-authenticate.".

Section TokenLifecycle.

(** The clock in milliseconds and as an ISO string, [Date] parsing
    ([None] for an invalid date, whose time is NaN) and printing. *)
Variable now : Z.
Variable nowISO : string.
Variable parseDate : string -> option Z.
Variable toISO : Z -> string.

(** The outside world. *)
Variable localEndpoint : string -> string -> LocalResponse.
Variable googleEndpoint : string -> GoogleResponse.
Variable oauthClientConfigured : bool.
Variable imapConnect : EmailAccount -> outcome unit.
Variable imapClient : EmailAccount -> ImapClient.
Variable smtpSend : EmailAccount -> SendEmailOptions -> outcome string.

Variable utf8 : Buffer -> jsstring.
Variable simpleParser : Buffer -> ParsedMail.
Variable htmlToText : jsstring -> jsstring.

Definition isOAuth (a : EmailAccount) : bool :=
  String.eqb (provider a) "Gmail" && isSet (accessToken a).

Definition orElse (o : option string) (d : option string) : option string :=
  if isSet o then o else d.

Definition saveAccount (svc : Service) : outcome unit * Service :=
  let (r, d) := updateAccount nowISO (account svc) (disk svc) in
  (r, set_disk d svc).

(** [fallbackRefreshOAuthToken] *)
Definition fallbackRefreshOAuthToken (svc : Service) : outcome unit * Service :=
  if negb (isSet (refreshToken (account svc)))
  then (Throw "No refresh token available", svc)
  else if negb oauthClientConfigured
  then (Throw "Google OAuth client configuration missing. Please re-authenticate manually.", svc)
  else
    let token := match refreshToken (account svc) with
                 | Some t => t | None => "" end in
    let svc := log_net (NetGoogleRefresh token) svc in
    let wrap (m : string) := "OAuth token refresh failed: " ++ m in
    match googleEndpoint token with
    | GoogleUnreachable m => (Throw (wrap m), svc)
    | GoogleHttpError status =>
        (Throw (wrap ("OAuth token refresh failed: " ++ status)), svc)
    | GoogleJson (Some e) _ _ _ =>
        (Throw (wrap ("OAuth token refresh error: " ++ e)), svc)
    | GoogleJson None at_ expires_in rt =>
        let secs := match expires_in with
                    | Some n => if Z.eqb n 0 then 3600%Z else n
                    | None => 3600%Z
                    end in
        let a := account svc in
        let svc := set_account
                     (with_tokens a at_ (orElse rt (refreshToken a))
                        (Some (toISO (now + 1000 * secs)%Z)) (Some nowISO))
                     svc in
        match saveAccount svc with
        | (Ok _, svc') => (Ok tt, svc')
        | (Throw m, svc') => (Throw (wrap m), svc')
        end
    end.

(** [refreshOAuthToken]: the refresh endpoint first, Google second. *)
Definition refreshOAuthToken (svc : Service) : outcome unit * Service :=
  if negb (isSet (refreshToken (account svc)))
  then (Throw "No refresh token available", svc)
  else
    let token := match refreshToken (account svc) with
                 | Some t => t | None => "" end in
    let svc1 := log_net (NetLocalRefresh (email (account svc)) token) svc in
    let attempt :=
      match localEndpoint (email (account svc)) token with
      | LocalUnreachable m => (Throw m, svc1)
      | LocalHttpError => fallbackRefreshOAuthToken svc1
      | LocalJson false _ _ _ => fallbackRefreshOAuthToken svc1
      | LocalJson true at_ exp rt =>
          let a := account svc1 in
          saveAccount
            (set_account
               (with_tokens a at_ (orElse rt (refreshToken a)) exp
                  (Some nowISO)) svc1)
      end in
    match attempt with
    | (Ok _, svc') => (Ok tt, svc')
    | (Throw _, svc') =>
        match fallbackRefreshOAuthToken svc' with
        | (Ok _, svc'') => (Ok tt, svc'')
        | (Throw m, svc'') =>
            (Throw ("OAuth token refresh failed: " ++ m), svc'')
        end
    end.

(** [expiryDate.getTime() - now.getTime()]; [None] is NaN. *)
Definition timeUntilExpiry (a : EmailAccount) : option Z :=
  match tokenExpiry a with
  | Some e => match parseDate e with
              | Some t => Some (t - now)%Z
              | None => None
              end
  | None => None
  end.

(** [checkAndRefreshToken] *)
Definition checkAndRefreshToken (svc : Service) : bool * Service :=
  if negb (String.eqb (provider (account svc)) "Gmail") then (true, svc)
  else if isSet (tokenExpiry (account svc)) then
    match timeUntilExpiry (account svc) with
    | Some t =>
        if (t <? 5 * 60 * 1000)%Z then
          if isSet (refreshToken (account svc)) then
            match refreshOAuthToken svc with
            | (Ok _, svc') => (true, svc')
            | (Throw _, svc') => (false, svc')
            end
          else (false, svc)
        else (true, svc)
    | None => (true, svc)
    end
  else (true, svc).

(** The guard that opens [connectImap], [getEmailTextContent] and
    [createTransporter]. *)
Definition ensureToken (svc : Service) : outcome unit * Service :=
  if isOAuth (account svc) then
    match checkAndRefreshToken svc with
    | (true, svc') => (Ok tt, svc')
    | (false, svc') => (Throw msg_reauth, svc')
    end
  else (Ok tt, svc).

(** [connectImap] *)
Definition connectImap (svc : Service) : outcome unit * Service :=
  match ensureToken svc with
  | (Throw m, svc') => (Throw m, svc')
  | (Ok _, svc1) =>
      let a := account svc1 in
      let svc2 := log_net (NetImapConnect (imapHost a) (username a)) svc1 in
      match imapConnect a with
      | Ok _ => (Ok tt, set_imapFlow true svc2)
      | Throw m =>
          let hint :=
            if includes "Invalid credentials" m || includes "authentication" m
            then if String.eqb (provider a) "Gmail"
                 then ". Gmail OAuth token may be expired. Please re-authenticate."
                 else ". Please check your email and password/authorization code."
            else "" in
          (Throw ("ImapFlow connection failed for " ++ email a ++ ": " ++ m ++ hint),
           svc2)
      end
  end.

(** [getEmailTextContent]; the race against the 30 s timer shows as a
    client whose outcome is a [Throw]. *)
Definition getEmailTextContent (uid : N) (svc : Service)
  : outcome (option jsstring) * Service :=
  match ensureToken svc with
  | (Throw m, svc') => (Throw m, svc')
  | (Ok _, svc1) =>
      let a := account svc1 in
      let host := if String.eqb (provider a) "Gmail"
                  then "imap.gmail.com" else "imap.qq.com" in
      let svc2 := log_net (NetImapConnect host (email a)) svc1 in
      (performEmailFetch simpleParser htmlToText (imapClient a) uid, svc2)
  end.

(** [sendEmail] with [createTransporter] inlined. *)
Definition sendEmail (options : SendEmailOptions) (svc : Service)
  : outcome bool * Service :=
  let rethrow (m : string) : outcome bool :=
    if includes "OAuth" m || includes "token" m
    then Throw ("Authentication failed: " ++ m ++ ". Please re-authenticate.")
    else if includes "Invalid login" m
    then Throw ("Invalid credentials: " ++ m ++ ". Please check your email and password.")
    else Throw m in
  match ensureToken svc with
  | (Throw m, svc') => (rethrow m, svc')
  | (Ok _, svc1) =>
      let svc2 := log_net (NetSmtpSend (mail_to options)) svc1 in
      match smtpSend (account svc1) options with
      | Ok _ => (Ok true, svc2)
      | Throw m => (rethrow m, svc2)
      end
  end.

End TokenLifecycle.

(** How the tool handlers sort a thrown message (query, detail and send
    tools test the same substrings in the same order; the send tool also
    counts [SMTP] as a connection problem). *)
Inductive ErrorKind : Type :=
| AuthFailed
| AuthExpired
| ConnectionFailed
| OtherError.

Definition classifyError (sendTool : bool) (m : string) : ErrorKind :=
  if includes "Invalid credentials" m || includes "authentication" m
  then AuthFailed
  else if includes "OAuth token" m then AuthExpired
  else if (sendTool && includes "SMTP" m) || includes "connection" m ||
          includes "timeout" m
  then ConnectionFailed
  else OtherError.

(** ** What a concurrent reader of the store can see

    [fs.writeFile] opens its target with flag [w], which truncates the
    file, and writes the text afterwards; [fs.rename] replaces its target
    in one step.  The list gives the successive contents of [path] from
    the start of the call to its end. *)
Definition visible_during (e : fs_event) (fs : string -> option file_content)
    (path : string) : list (option file_content) :=
  match e with
  | FsWriteFile p c =>
      if String.eqb p path then [fs path; Some FileEmpty; Some c]
      else [fs path]
  | FsRename src dst =>
      if String.eqb dst path then [fs path; fs src]
      else if String.eqb src path then [fs path; None]
      else [fs path]
  | FsMkdir _ | FsReadFile _ => [fs path]
  end.

(** A write of [new] over [old] is atomic for readers when every content
    they can see is one of the two. *)
Definition atomic_for_readers (old new : option file_content)
    (seen : list (option file_content)) : Prop :=
  forall c, In c seen -> c = old \/ c = new.

(** The decoding of a buffer of ASCII bytes, as [Buffer.toString] gives
    it. *)
Definition asciiText (b : Buffer) : jsstring :=
  List.map (fun x => N.of_nat (Byte.to_nat x)) b.

(** * Statements and sample data used by the theorems *)


Definition emptyMailbox : ImapClient :=
  {| client_connect := Ok tt;
     client_fetchEnvelope := fun _ => [];
     client_fetchSource := fun _ => [] |}.



(** The default account, when there is one, is the address of a stored
    account. *)
Definition default_ok (s : StorageData) : Prop :=
  match defaultAccount s with
  | None => True
  | Some x => In x (List.map email (accounts s))
  end.

(** The strong reading of removal: in every store, once [removeAccount]
    has completed no account with that address is left. *)
Definition removal_leaves_no_such_account : Prop :=
  forall (nowISO : string) (d d' : Disk) (data : StorageData) (e : string),
    files d STORAGE_PATH = Some (FileJson data) ->
    In e (List.map email (accounts data)) ->
    removeAccount nowISO e d = (Ok tt, d') ->
    exists data',
      files d' STORAGE_PATH = Some (FileJson data') /\
      ~ In e (List.map email (accounts data')).

(** The [fs] calls made between two states of the disk, latest first. *)
Definition events_since (before after : Disk) : list fs_event :=
  firstn (length (fs_log after) - length (fs_log before)) (fs_log after).

(** The strong reading of atomic writes: whatever [writeStorage] does to
    the disk, a reader of the store file sees the old content or the new
    one and nothing else. *)
Definition store_writes_atomic : Prop :=
  forall (nowISO : string) (data : StorageData) (d d' : Disk),
    writeStorage nowISO data d = (Ok tt, d') ->
    forall ev, In ev (events_since d d') ->
      atomic_for_readers (files d STORAGE_PATH) (files d' STORAGE_PATH)
        (visible_during ev (files d) STORAGE_PATH).

Definition qqAccount (address : string) : EmailAccount :=
  {| email := address; displayName := None; provider := "QQ";
     username := address; password := "secret"; imapHost := "imap.qq.com";
     imapPort := 993; smtpHost := "smtp.qq.com"; smtpPort := 465;
     secure := true; lastLogin := None; isActive := true;
     accessToken := None; refreshToken := None; tokenExpiry := None |}.

Definition gmailAccount (address : string) (expiry : string)
    (refresh : option string) : EmailAccount :=
  {| email := address; displayName := None; provider := "Gmail";
     username := address; password := ""; imapHost := "imap.gmail.com";
     imapPort := 993; smtpHost := "smtp.gmail.com"; smtpPort := 465;
     secure := true; lastLogin := None; isActive := true;
     accessToken := Some "ya29.token"; refreshToken := refresh;
     tokenExpiry := Some expiry |}.

Definition diskWith (data : StorageData) : Disk :=
  {| files := fun p => if String.eqb p STORAGE_PATH
                       then Some (FileJson data) else None;
     writable := true; fs_log := [] |}.

(** A store in which the same address occurs twice. *)
Definition duplicateStore : StorageData :=
  {| accounts := [qqAccount "a@qq.com"; qqAccount "a@qq.com"];
     defaultAccount := Some "a@qq.com"; lastUpdated := "2024-01-01" |}.

Definition twoAccounts : StorageData :=
  {| accounts := [qqAccount "a@qq.com"; qqAccount "b@qq.com"];
     defaultAccount := Some "a@qq.com"; lastUpdated := "2024-01-01" |}.

Definition serviceOf (a : EmailAccount) : Service :=
  {| account := a; imapFlow := false; net_log := [];
     disk := diskWith {| accounts := [a]; defaultAccount := Some (email a);
                         lastUpdated := "2024-01-01" |} |}.

(** An OAuth account whose token is good for ten more minutes, and one
    whose token has run out and that has no refresh token. *)
Definition freshService : Service :=
  serviceOf (gmailAccount "u@gmail.com" "2024-06-01T00:10:00Z"
               (Some "1//refresh")).

Definition expiredService : Service :=
  serviceOf (gmailAccount "u@gmail.com" "2024-06-01T00:00:00Z" None).

(** ** Vocabulary for reasoning about patterns and replacements *)

Local Close Scope string_scope.

Definition isNL (c : N) : bool := N.eqb c 10.
Definition isBlank (c : N) : bool := N.eqb c 32 || N.eqb c 9.

Fixpoint takeWhile (p : N -> bool) (s : jsstring) : jsstring :=
  match s with
  | [] => []
  | c :: s' => if p c then c :: takeWhile p s' else []
  end.

Fixpoint dropWhile (p : N -> bool) (s : jsstring) : jsstring :=
  match s with
  | [] => []
  | c :: s' => if p c then dropWhile p s' else s
  end.

(** The code unit before the position reached after reading [m]. *)
Definition lastopt (m : jsstring) (prev : option N) : option N :=
  fold_left (fun _ c => Some c) m prev.

(** Does the string start with a code unit satisfying [p]. *)
Definition starts (p : N -> bool) (s : jsstring) : bool :=
  match s with
  | c :: _ => p c
  | [] => false
  end.

(** A matcher is sound when every match is a non-empty prefix of the
    input. *)
Definition sound (ex : matcher) : Prop :=
  forall prev s m cs, ex prev s = Some (m, cs) ->
    m <> [] /\ exists s', s = m ++ s'.

(** The global replacement as a relation between the code unit before the
    position, the input and the output, for matchers without empty
    matches. *)
Inductive Replaces (ex : matcher) (rp : replacer)
  : option N -> jsstring -> jsstring -> Prop :=
| Replaces_nil (prev : option N) :
    ex prev [] = None -> Replaces ex rp prev [] []
| Replaces_copy (prev : option N) (c : N) (s o : jsstring) :
    ex prev (c :: s) = None ->
    Replaces ex rp (Some c) s o ->
    Replaces ex rp prev (c :: s) (c :: o)
| Replaces_match (prev : option N) (m s o : jsstring) (cs : caps) :
    ex prev (m ++ s) = Some (m, cs) -> m <> [] ->
    Replaces ex rp (lastopt m prev) s o ->
    Replaces ex rp prev (m ++ s) (rp m cs ++ o).

(** The matchers of the whitespace steps, written directly. *)

Definition ex_run (p : N -> bool) : matcher :=
  fun _ s =>
    match takeWhile p s with
    | [] => None
    | m => Some (m, [])
    end.

Definition ex_nl_blanks : matcher :=
  fun _ s =>
    match s with
    | c :: s' =>
        if isNL c
        then match takeWhile isBlank s' with
             | [] => None
             | m => Some (c :: m, [])
             end
        else None
    | [] => None
    end.

Definition ex_blanks_nl : matcher :=
  fun _ s =>
    match takeWhile isBlank s with
    | [] => None
    | m =>
        match dropWhile isBlank s with
        | c :: _ => if isNL c then Some (m ++ [c], []) else None
        | [] => None
        end
    end.

Definition ex_leading_nl : matcher :=
  fun prev s =>
    match prev with
    | None => ex_run isNL None s
    | Some _ => None
    end.

Definition ex_trailing_nl : matcher :=
  fun _ s =>
    match takeWhile isNL s with
    | [] => None
    | m =>
        match dropWhile isNL s with
        | [] => Some (m, [])
        | _ :: _ => None
        end
    end.

(** The longest run of whitespace, possibly empty, that ends in front of
    a line terminator or at the end of the text. *)
Fixpoint eol_span (s : jsstring) : option jsstring :=
  match s with
  | [] => Some []
  | c :: s' =>
      if isWhiteSpace c
      then match eol_span s' with
           | Some m => Some (c :: m)
           | None => if isLineTerminator c then Some [] else None
           end
      else None
  end.

(** The same, of at least one code unit. *)
Definition eol_take (s : jsstring) : option jsstring :=
  match s with
  | c :: s' =>
      if isWhiteSpace c
      then match eol_span s' with
           | Some m => Some (c :: m)
           | None => None
           end
      else None
  | [] => None
  end.

Definition ex_blank_line : matcher :=
  fun prev s =>
    if at_bol flags_gm prev
    then match eol_take s with
         | Some m => Some (m, [])
         | None => None
         end
    else None.

Definition noZeroWidth (c : N) : bool := negb (existsb (N.eqb c) zeroWidth).

(** Where a reader of the text stands with respect to the pattern of a
    blank line, [^\s+$] with the [m] flag: at the start of a line with no
    whitespace read yet, inside whitespace that began at the start of a
    line, or elsewhere. *)
Inductive lstate : Type := AtStart | InBlank | InText.

(** [blf st s]: read from state [st], the text [s] contains no match of
    the blank-line pattern. *)
Fixpoint blf (st : lstate) (s : jsstring) : bool :=
  match s with
  | [] => match st with InBlank => false | _ => true end
  | c :: s' =>
      if isLineTerminator c
      then match st with
           | InBlank => false
           | AtStart => blf InBlank s'
           | InText => blf AtStart s'
           end
      else if isWhiteSpace c
      then match st with
           | InText => blf InText s'
           | _ => blf InBlank s'
           end
      else blf InText s'
  end.

(** No two neighbours of the text are related by [bad]. *)
Fixpoint no_adj (bad : N -> N -> bool) (s : jsstring) : bool :=
  match s with
  | a :: (b :: _) as t => negb (bad a b) && no_adj bad t
  | _ => true
  end.

Definition bad_blanks (a b : N) : bool := isBlank a && isBlank b.
Definition bad_after_nl (a b : N) : bool := isNL a && isBlank b.
Definition bad_before_nl (a b : N) : bool := isBlank a && isNL b.

Definition noTab (c : N) : bool := negb (N.eqb c 9).

(** The invariant that links the state of the reader of the output with
    the position of [removeBlankLines] in its input. *)
Definition blank_line_inv (st : lstate) (prev : option N) (s : jsstring)
  : Prop :=
  match st with
  | AtStart => at_bol flags_gm prev = true \/ eol_take s = None
  | InBlank => eol_span s = None
  | InText => at_bol flags_gm prev = false
  end.

(** The same for a text that is already free of blank lines. *)
Definition in_sync (st : lstate) (prev : option N) : Prop :=
  match st with
  | AtStart => at_bol flags_gm prev = true
  | InBlank => True
  | InText => at_bol flags_gm prev = false
  end.

(** The state of the reader after a run of blanks. *)
Definition after_blank (st : lstate) : lstate :=
  match st with
  | InText => InText
  | _ => InBlank
  end.

(** The shape of a text that the whitespace steps have been through: no
    blank line, no tab, no two blanks in a row, no blank next to a
    newline, nothing to trim. *)
Definition tidied (w : jsstring) : Prop :=
  blf AtStart w = true /\
  forallb noTab w = true /\
  no_adj bad_blanks w = true /\
  no_adj bad_after_nl w = true /\
  no_adj bad_before_nl w = true /\
  trim w = w.

(** Idempotence of the normalizer on every input. *)
Definition normalize_idempotent : Prop :=
  forall x, cleanEmailText (cleanEmailText x) = cleanEmailText x.




(** The atom a match of the pattern has to start with, when the pattern
    begins with one. *)
Fixpoint first_atom (r : regex) : option atom :=
  match r with
  | RAtom a => Some a
  | RSeq r1 _ => first_atom r1
  | RGroup _ r1 => first_atom r1
  | RQuant a (S _) _ _ => Some a
  | _ => None
  end.


Definition isNot (a : N) (c : N) : bool := negb (N.eqb c a).








(** A text on one line, without markup, with single blanks and no
    whitespace around it. *)
Definition isInline (c : N) : bool :=
  isNot 60 c && isNot 38 c && negb (isNL c) && noTab c.

Definition settled (x : jsstring) : Prop :=
  forallb isInline x = true /\ no_adj bad_blanks x = true /\ trim x = x.

(** ** Vocabulary for properties of patterns in general *)

(** The least number of code units a match of the pattern holds. *)
Fixpoint min_len (r : regex) : nat :=
  match r with
  | REmpty | RBol | REol => O
  | RAtom _ => 1%nat
  | RSeq r1 r2 => (min_len r1 + min_len r2)%nat
  | RAlt r1 r2 => Nat.min (min_len r1) (min_len r2)
  | RQuant _ lo _ _ => lo
  | RGroup _ r1 => min_len r1
  end.


(** Three line feeds in a row. *)
Definition threeNewlines : jsstring := [10%N; 10%N; 10%N].

(** ** More of the account store ([EmailStorage]) *)

Local Open Scope string_scope.

(** A JavaScript number as far as [checkTokenExpiry] produces one. *)
Inductive jsnumber : Type :=
| Num (z : Z)
| PosInfinity
| NotANumber.

Record TokenStatus : Type := {
  isExpired : bool;
  expiresIn : jsnumber;
  needsRefresh : bool
}.

Section StorageQueries.

Variable nowISO : string.

(** The clock in milliseconds and [Date] parsing, as in the service. *)
Variable now : Z.
Variable parseDate : string -> option Z.

Definition getAllAccounts (d : Disk) : list EmailAccount * Disk :=
  let (storage, d1) := readStorage nowISO d in
  (accounts storage, d1).

(** [getDefaultAccount]: no default, or an empty one, gives [null];
    otherwise the default is looked up the way any name is. *)
Definition getDefaultAccount (d : Disk) : option EmailAccount * Disk :=
  let (storage, d1) := readStorage nowISO d in
  match defaultAccount storage with
  | Some e => if isSet (Some e) then getAccount nowISO e d1 else (None, d1)
  | None => (None, d1)
  end.

(** [setDefaultAccount] *)
Definition setDefaultAccount (e : string) (d : Disk) : outcome unit * Disk :=
  let (storage, d1) := readStorage nowISO d in
  match find (fun acc => String.eqb (email acc) e) (accounts storage) with
  | None => (Throw ("Account not found: " ++ e), d1)
  | Some _ =>
      writeStorage nowISO
        {| accounts := accounts storage; defaultAccount := Some e;
           lastUpdated := lastUpdated storage |} d1
  end.

(** [validateAccount]: the account is stored and active. *)
Definition validateAccount (emailOrDisplayName : string) (d : Disk)
  : bool * Disk :=
  let (account, d1) := getAccount nowISO emailOrDisplayName d in
  (match account with
   | Some a => isActive a
   | None => false
   end, d1).

(** The answer of [checkTokenExpiry] for an account that is not stored,
    is not a Gmail account or has no expiry. *)
Definition noExpiry : TokenStatus :=
  {| isExpired := false; expiresIn := PosInfinity; needsRefresh := false |}.

(** The answer for the account found, if any.  Comparisons with NaN, the
    time of an unparsable date, are false. *)
Definition tokenStatus (account : option EmailAccount) : TokenStatus :=
  match account with
  | None => noExpiry
  | Some a =>
      if negb (String.eqb (provider a) "Gmail") || negb (isSet (tokenExpiry a))
      then noExpiry
      else
        match tokenExpiry a with
        | Some e =>
            match parseDate e with
            | Some t =>
                {| isExpired := (t - now <=? 0)%Z;
                   expiresIn := Num (t - now);
                   needsRefresh := (t - now <? 5 * 60 * 1000)%Z |}
            | None =>
                {| isExpired := false; expiresIn := NotANumber;
                   needsRefresh := false |}
            end
        | None => noExpiry
        end
  end.

Definition checkTokenExpiry (emailOrDisplayName : string) (d : Disk)
  : TokenStatus * Disk :=
  let (account, d1) := getAccount nowISO emailOrDisplayName d in
  (tokenStatus account, d1).

End StorageQueries.

(** Whether a call wrote a file. *)
Definition isWrite (e : fs_event) : bool :=
  match e with
  | FsWriteFile _ _ => true
  | _ => false
  end.

(** What [readStorage] hands back on a disk, and the lookup of
    [getAccount] in a list of accounts. *)
Definition stored (nowISO : string) (d : Disk) : StorageData :=
  fst (readStorage nowISO d).

Definition lookup (name : string) (l : list EmailAccount)
  : option EmailAccount :=
  find (fun acc =>
          String.eqb (email acc) name ||
          match displayName acc with
          | Some n => String.eqb n name
          | None => false
          end) l.

(** No stored account carries [name] as its display name. *)
Definition noDisplayName (name : string) (l : list EmailAccount) : Prop :=
  forall acc, In acc l -> displayName acc <> Some name.

Local Close Scope string_scope.

(** ** Vocabulary for the token lifecycle *)

Local Open Scope string_scope.


(** Calls to a mail server, as opposed to calls to a token endpoint. *)
Definition isMailEvent (e : net_event) : bool :=
  match e with
  | NetImapConnect _ _ | NetSmtpSend _ => true
  | NetLocalRefresh _ _ | NetGoogleRefresh _ => false
  end.

(** What every path through a refresh keeps: the address of the account
    and the calls made to mail servers. *)
Definition refresh_keeps (svc svc' : Service) : Prop :=
  email (account svc') = email (account svc) /\
  filter isMailEvent (net_log svc') = filter isMailEvent (net_log svc).

(** A Gmail account as the refresh endpoint knows it, for examples: its
    token ran out at time 0 and it has a refresh token. *)
Definition staleService : Service :=
  serviceOf (gmailAccount "u@gmail.com" "2024-06-01T00:00:00Z"
               (Some "1//refresh")).

Local Close Scope string_scope.

(** ** The logger ([Logger]) *)

Local Open Scope string_scope.

Inductive LogLevel : Type := DEBUG | INFO | WARN | ERROR.

(** The numeric value of the enum member. *)
Definition levelValue (l : LogLevel) : N :=
  match l with
  | DEBUG => 0
  | INFO => 1
  | WARN => 2
  | ERROR => 3
  end.

(** The static fields of the class, with their initial values. *)
Record Logger : Type := {
  currentTransport : string;
  logLevel : LogLevel;
  enabled : bool
}.

Definition initialLogger : Logger :=
  {| currentTransport := "stdio"; logLevel := INFO; enabled := true |}.

Record LoggerConfig : Type := {
  cfg_transport : option string;
  cfg_level : option LogLevel;
  cfg_enabled : option bool
}.

Definition configure (config : LoggerConfig) (lg : Logger) : Logger :=
  {| currentTransport := match cfg_transport config with
                         | Some t => t
                         | None => currentTransport lg
                         end;
     logLevel := match cfg_level config with
                 | Some l => l
                 | None => logLevel lg
                 end;
     enabled := match cfg_enabled config with
                | Some e => e
                | None => enabled lg
                end |}.

Definition setTransport (transport : string) (lg : Logger) : Logger :=
  {| currentTransport := transport; logLevel := logLevel lg;
     enabled := enabled lg |}.

Definition setLogLevel (level : LogLevel) (lg : Logger) : Logger :=
  {| currentTransport := currentTransport lg; logLevel := level;
     enabled := enabled lg |}.

Definition setEnabled (e : bool) (lg : Logger) : Logger :=
  {| currentTransport := currentTransport lg; logLevel := logLevel lg;
     enabled := e |}.

Definition shouldLog (lg : Logger) (level : LogLevel) : bool :=
  enabled lg && (levelValue (logLevel lg) <=? levelValue level)%N.

(** [console.log] writes to the standard output, [console.error] to the
    standard error. *)
Inductive Stream : Type := Stdout | Stderr.

Definition getOutputStream (lg : Logger) (level : LogLevel) : Stream :=
  if String.eqb (currentTransport lg) "stdio" then Stderr
  else if (levelValue WARN <=? levelValue level)%N then Stderr
  else Stdout.

(** [formatMessage]; the time stamp is that of the call. *)
Definition formatMessage (timestamp level message : string) : string :=
  "[" ++ timestamp ++ "] [" ++ level ++ "] " ++ message.

(** What was written so far, latest first: the formatted line and the
    extra arguments that were passed along. *)
Record Console : Type := {
  stdout : list (string * list string);
  stderr : list (string * list string)
}.

Definition output (s : Stream) (line : string) (args : list string)
    (c : Console) : Console :=
  match s with
  | Stdout => {| stdout := (line, args) :: stdout c; stderr := stderr c |}
  | Stderr => {| stdout := stdout c; stderr := (line, args) :: stderr c |}
  end.

Definition log_debug (lg : Logger) (timestamp message : string)
    (args : list string) (c : Console) : Console :=
  if shouldLog lg DEBUG
  then output (getOutputStream lg DEBUG)
         (formatMessage timestamp "DEBUG" message) args c
  else c.

Definition log_info (lg : Logger) (timestamp message : string)
    (args : list string) (c : Console) : Console :=
  if shouldLog lg INFO
  then output (getOutputStream lg INFO)
         (formatMessage timestamp "INFO" message) args c
  else c.

Definition log_warn (lg : Logger) (timestamp message : string)
    (args : list string) (c : Console) : Console :=
  if shouldLog lg WARN
  then output (getOutputStream lg WARN)
         (formatMessage timestamp "WARN" message) args c
  else c.

Definition log_error (lg : Logger) (timestamp message : string)
    (args : list string) (c : Console) : Console :=
  if shouldLog lg ERROR
  then output (getOutputStream lg ERROR)
         (formatMessage timestamp "ERROR" message) args c
  else c.

(** [Logger.log] is [Logger.info]. *)
Definition log_log := log_info.

(** A call of one of the five logging methods, and a run of such calls
    with the settings unchanged. *)
Inductive LogCall : Type :=
| CallDebug (timestamp message : string) (args : list string)
| CallInfo (timestamp message : string) (args : list string)
| CallWarn (timestamp message : string) (args : list string)
| CallError (timestamp message : string) (args : list string)
| CallLog (timestamp message : string) (args : list string).

Definition callLevel (call : LogCall) : LogLevel :=
  match call with
  | CallDebug _ _ _ => DEBUG
  | CallInfo _ _ _ | CallLog _ _ _ => INFO
  | CallWarn _ _ _ => WARN
  | CallError _ _ _ => ERROR
  end.

Definition runCall (lg : Logger) (call : LogCall) (c : Console) : Console :=
  match call with
  | CallDebug t m a => log_debug lg t m a c
  | CallInfo t m a => log_info lg t m a c
  | CallWarn t m a => log_warn lg t m a c
  | CallError t m a => log_error lg t m a c
  | CallLog t m a => log_log lg t m a c
  end.

Definition runCalls (lg : Logger) (calls : list LogCall) (c : Console)
  : Console :=
  fold_left (fun c call => runCall lg call c) calls c.

Local Close Scope string_scope.

(** ** The detail tool ([EmailDetailTool.handler]) *)

Local Open Scope string_scope.

(** The text of the answer, by its template:
    - [AccountNotFound a]: Account a not found or not active. Please
      login first using the email login page.
    - [TokenExpired a]: OAuth token for account a has expired. Please
      re-authenticate using the email login tool.
    - [DefaultTokenExpired e]: the same for the default account e.
    - [NoDefaultAccount]: No default account configured. Please provide
      an account parameter or login first.
    - [EmailNotFound uid]: Email not found with UID: uid
    - [EmailContent uid text]: Email Text Content (UID: uid), then the
      text.
    - [ErrorText kind msg]: the heading of the kind of error, then the
      message of the error that was caught. *)
Inductive ToolText : Type :=
| AccountNotFound (account : string)
| TokenExpired (account : string)
| DefaultTokenExpired (address : string)
| NoDefaultAccount
| EmailNotFound (uid : N)
| EmailContent (uid : N) (text : jsstring)
| ErrorText (kind : ErrorKind) (msg : string).

(** What a handler acts on: the calls that left the process and the
    disk. *)
Record World : Type := {
  w_net : list net_event;
  w_disk : Disk
}.

Definition with_disk (d : Disk) (w : World) : World :=
  {| w_net := w_net w; w_disk := d |}.

(** [new EmailService(account)] in a world, and the world it leaves. *)
Definition newService (a : EmailAccount) (w : World) : Service :=
  {| account := a; imapFlow := false; net_log := w_net w; disk := w_disk w |}.

Definition worldOf (svc : Service) : World :=
  {| w_net := net_log svc; w_disk := disk svc |}.

Section DetailTool.

Variable now : Z.
Variable nowISO : string.
Variable parseDate : string -> option Z.
Variable toISO : Z -> string.
Variable localEndpoint : string -> string -> LocalResponse.
Variable googleEndpoint : string -> GoogleResponse.
Variable oauthClientConfigured : bool.
Variable imapClient : EmailAccount -> ImapClient.
Variable simpleParser : Buffer -> ParsedMail.
Variable htmlToText : jsstring -> jsstring.

(** The [catch] block of the handler. *)
Definition caught (m : string) : ToolText :=
  ErrorText (classifyError false m) m.

(** The part of the handler after the service has been created: the text
    is fetched, and a text that is [null] or empty is reported as a
    message that was not found. *)
Definition fetchText (a : EmailAccount) (uid : N) (w : World)
  : ToolText * World :=
  match getEmailTextContent now nowISO parseDate toISO localEndpoint
          googleEndpoint oauthClientConfigured imapClient simpleParser
          htmlToText uid (newService a w) with
  | (Throw m, svc') => (caught m, worldOf svc')
  | (Ok None, svc') => (EmailNotFound uid, worldOf svc')
  | (Ok (Some []), svc') => (EmailNotFound uid, worldOf svc')
  | (Ok (Some (c :: t)), svc') => (EmailContent uid (c :: t), worldOf svc')
  end.

Definition emailDetailHandler (accountArg : option string) (uid : N)
    (w : World) : ToolText * World :=
  if isSet accountArg then
    let name := match accountArg with Some n => n | None => "" end in
    let (accountExists, d1) := validateAccount nowISO name (w_disk w) in
    if negb accountExists then (AccountNotFound name, with_disk d1 w)
    else
      let (tokenStatus, d2) := checkTokenExpiry nowISO now parseDate name d1 in
      if isExpired tokenStatus then (TokenExpired name, with_disk d2 w)
      else
        (* EmailService.createFromAccount *)
        let (found, d3) := getAccount nowISO name d2 in
        match found with
        | None => (caught ("Account not found: " ++ name), with_disk d3 w)
        | Some a => fetchText a uid (with_disk d3 w)
        end
  else
    (* EmailService.createDefault, inside the inner [try] *)
    let (found, d1) := getDefaultAccount nowISO (w_disk w) in
    match found with
    | None => (NoDefaultAccount, with_disk d1 w)
    | Some a =>
        let (defaultAccount, d2) := getDefaultAccount nowISO d1 in
        match defaultAccount with
        | Some da =>
            let (tokenStatus, d3) :=
              checkTokenExpiry nowISO now parseDate (email da) d2 in
            if isExpired tokenStatus
            then (DefaultTokenExpired (email da), with_disk d3 w)
            else fetchText a uid (with_disk d3 w)
        | None => fetchText a uid (with_disk d2 w)
        end
    end.

End DetailTool.

(** ** The range of messages that [getEmails] asks for *)

(** [status.messages || 0], the early return for an empty mailbox, and
    the bounds [start] and [end] of the sequence set. *)
Definition fetchRange (messages : option Z) (count : Z) : option (Z * Z) :=
  let totalMessages := match messages with
                       | Some n => n
                       | None => 0%Z
                       end in
  if (totalMessages =? 0)%Z then None
  else Some (Z.max 1 (totalMessages - count + 1), totalMessages).

Local Close Scope string_scope.

(** * Body resolution *)

Local Open Scope string_scope.

Section BodyFacts.

Variable utf8 : Buffer -> jsstring.
Variable simpleParser : Buffer -> ParsedMail.
Variable htmlToText : jsstring -> jsstring.

Lemma truthy_cons (c : N) (t : jsstring) : truthy (Some (c :: t)) = true.
Proof. reflexivity. Qed.


Lemma resolveParsed_html (parsed : ParsedMail) (h : jsstring) :
  truthy (parsed_text parsed) = false ->
  parsed_html parsed = Some h -> h <> [] ->
  resolveParsed htmlToText parsed = cleanEmailText (htmlToText h).
Proof.
  intros Ht Hh Hne. unfold resolveParsed. rewrite Ht, Hh.
  destruct h as [|c h']; [contradiction|]. reflexivity.
Qed.



End BodyFacts.











(** * The account store *)

Lemma findIndex_In (e : string) (l : list EmailAccount) :
  In e (List.map email l) -> exists i, findIndex e l = Some i.
Proof.
  induction l as [|a l IH]; simpl; [contradiction|].
  intros [H|H].
  - subst e. exists O. now rewrite String.eqb_refl.
  - destruct (String.eqb (email a) e); [now exists O|].
    destruct (IH H) as [i Hi]. exists (S i). now rewrite Hi.
Qed.

Lemma splice1_subset (i : nat) (l : list EmailAccount) (x : string) :
  In x (List.map email (splice1 i l)) -> In x (List.map email l).
Proof.
  revert i. induction l as [|a l IH]; intros i; simpl; [now destruct i|].
  destruct i as [|j]; simpl.
  - now right.
  - intros [H|H]; [now left|right; now apply (IH j)].
Qed.

Lemma splice1_removes (e : string) (l : list EmailAccount) (i : nat) :
  NoDup (List.map email l) -> findIndex e l = Some i ->
  ~ In e (List.map email (splice1 i l)).
Proof.
  revert i. induction l as [|a l IH]; intros i Hnd Hf; simpl in *;
    [discriminate|].
  inversion Hnd as [|x xs Hnot Hnd']; subst.
  destruct (String.eqb (email a) e) eqn:E.
  - injection Hf as <-. apply String.eqb_eq in E. now subst e.
  - destruct (findIndex e l) as [j|] eqn:Ej; [|discriminate].
    injection Hf as <-. simpl. intros [H|H].
    + apply String.eqb_neq in E. contradiction.
    + now apply (IH j Hnd' eq_refl).
Qed.

Lemma splice1_keeps (e x : string) (l : list EmailAccount) (i : nat) :
  x <> e -> findIndex e l = Some i ->
  In x (List.map email l) -> In x (List.map email (splice1 i l)).
Proof.
  revert i. induction l as [|a l IH]; intros i Hne Hf Hin; simpl in *;
    [contradiction|].
  destruct (String.eqb (email a) e) eqn:E.
  - injection Hf as <-. apply String.eqb_eq in E.
    destruct Hin as [H|H]; [congruence|exact H].
  - destruct (findIndex e l) as [j|] eqn:Ej; [|discriminate].
    injection Hf as <-. simpl.
    destruct Hin as [H|H]; [now left|right; now apply IH].
Qed.

Lemma head_splice_In (i : nat) (l : list EmailAccount) (a : EmailAccount)
    (rest : list EmailAccount) :
  splice1 i l = a :: rest -> In (email a) (List.map email (splice1 i l)).
Proof. intros H. rewrite H. now left. Qed.

Lemma readStorage_present (nowISO : string) (d : Disk) (data : StorageData) :
  files d STORAGE_PATH = Some (FileJson data) ->
  exists d1, readStorage nowISO d = (data, d1) /\
             files d1 = files d /\ writable d1 = writable d.
Proof.
  intros H. unfold readStorage, initializeStorage. simpl. rewrite H. simpl.
  rewrite H. eexists. split; [reflexivity|]. now split.
Qed.

Lemma writeStorage_writable (nowISO : string) (data : StorageData) (d : Disk) :
  writable d = true ->
  exists d', writeStorage nowISO data d = (Ok tt, d') /\
             files d' STORAGE_PATH = Some (FileJson (stamp nowISO data)).
Proof.
  intros H. unfold writeStorage, writeFile. simpl. rewrite H.
  eexists. split; reflexivity.
Qed.

(** C10, counterexample: in a store that holds the address [a@qq.com]
    twice, [splice] takes out the first record only; the second one is
    still there after [removeAccount], and it becomes the default. *)
Lemma C10_duplicate_address_survives : ~ removal_leaves_no_such_account.
Proof.
  intros H.
  destruct (H "2024-06-01" (diskWith duplicateStore)
              (snd (removeAccount "2024-06-01" "a@qq.com" (diskWith duplicateStore)))
              duplicateStore "a@qq.com" eq_refl (or_introl eq_refl) eq_refl)
    as [data' [Hf Hn]].
  vm_compute in Hf. injection Hf as <-. apply Hn. now left.
Qed.

(** C10, amended: in a store whose account addresses are pairwise
    different, removing a stored address [e] completes (on a writable
    disk) and leaves no account with address [e]; when [e] was the default
    the new default is the address of the first remaining account, or
    undefined when none remains; otherwise the default is unchanged; and a
    default that named a stored account before names one afterwards. *)
Theorem C10_removeAccount_unique_addresses
    (nowISO : string) (d : Disk) (data : StorageData) (e : string) :
  files d STORAGE_PATH = Some (FileJson data) ->
  writable d = true ->
  NoDup (List.map email (accounts data)) ->
  In e (List.map email (accounts data)) ->
  exists d' data',
    removeAccount nowISO e d = (Ok tt, d') /\
    files d' STORAGE_PATH = Some (FileJson data') /\
    ~ In e (List.map email (accounts data')) /\
    (forall x, x <> e -> In x (List.map email (accounts data)) ->
               In x (List.map email (accounts data'))) /\
    (defaultAccount data = Some e ->
     defaultAccount data' = match accounts data' with
                            | a :: _ => Some (email a)
                            | [] => None
                            end) /\
    (defaultAccount data <> Some e ->
     defaultAccount data' = defaultAccount data) /\
    (default_ok data -> default_ok data').
Proof.
  intros Hfile Hw Hnd Hin.
  destruct (readStorage_present nowISO d data Hfile) as [d1 [Hr [Hf1 Hw1]]].
  destruct (findIndex_In e (accounts data) Hin) as [i Hi].
  unfold removeAccount. rewrite Hr. unfold removeFrom. rewrite Hi.
  match goal with
  | |- context [writeStorage nowISO ?s d1] =>
      destruct (writeStorage_writable nowISO s d1) as [d' [Hws Hfd]];
        [congruence|]
  end.
  exists d'. eexists. split; [exact Hws|]. split; [exact Hfd|].
  simpl. split; [now apply splice1_removes|].
  split; [intros x Hx Hxin; now apply (splice1_keeps e)|].
  split; [|split].
  - intros Hd. rewrite Hd, String.eqb_refl. reflexivity.
  - intros Hd. destruct (defaultAccount data) as [x|]; [|reflexivity].
    destruct (String.eqb x e) eqn:E; [|reflexivity].
    apply String.eqb_eq in E. congruence.
  - unfold default_ok. simpl. destruct (defaultAccount data) as [x|]; [|easy].
    destruct (String.eqb x e) eqn:E.
    + intros _. destruct (splice1 i (accounts data)) as [|a rest] eqn:Es;
        [exact I|]. now left.
    + intros Hx. apply String.eqb_neq in E. now apply (splice1_keeps e).
Qed.

Lemma C10_removeAccount_unique_addresses_witness :
  exists d' data',
    removeAccount "2024-06-01" "a@qq.com" (diskWith twoAccounts) = (Ok tt, d') /\
    files d' STORAGE_PATH = Some (FileJson data') /\
    ~ In "a@qq.com"%string (List.map email (accounts data')).
Proof.
  destruct (C10_removeAccount_unique_addresses "2024-06-01"
              (diskWith twoAccounts) twoAccounts "a@qq.com") as
    [d' [data' [H1 [H2 [H3 _]]]]].
  - reflexivity.
  - reflexivity.
  - simpl. constructor.
    + simpl. intros [H|[]]. discriminate H.
    + constructor; [intros []|constructor].
  - now left.
  - exists d', data'. auto.
Defined.

Lemma events_since_one (d d' : Disk) (e : fs_event) :
  fs_log d' = e :: fs_log d -> events_since d d' = [e].
Proof.
  intros H. unfold events_since. rewrite H. cbn [length].
  replace (S (length (fs_log d)) - length (fs_log d)) with 1 by lia.
  reflexivity.
Qed.

(** C4, counterexample: the store holds two accounts and is written
    again.  [writeStorage] calls [fs.writeFile] on the store path itself,
    so between the truncation and the write a reader finds an empty file,
    which is neither the old store nor the new one. *)
Lemma C4_truncated_store_is_visible : ~ store_writes_atomic.
Proof.
  intros H.
  specialize (H "2024-06-01" twoAccounts (diskWith duplicateStore)
                (snd (writeStorage "2024-06-01" twoAccounts (diskWith duplicateStore)))
                eq_refl
                (FsWriteFile STORAGE_PATH (FileJson (stamp "2024-06-01" twoAccounts)))
                (or_introl eq_refl) (Some FileEmpty)).
  destruct H as [H|H]; [right; now left| |]; vm_compute in H; discriminate H.
Qed.

(** C4, amended: every write of the store is a single in-place
    [fs.writeFile] of the complete, freshly stamped structure to the store
    path: no temporary file is written and nothing is renamed.  On a
    writable disk it succeeds and leaves the new structure in the file;
    while it runs, a reader of the store file can find the old content,
    an empty file, or the new content. *)
Theorem C4_writeStorage_is_one_in_place_write
    (nowISO : string) (data : StorageData) (d : Disk) :
  writable d = true ->
  exists d',
    writeStorage nowISO data d = (Ok tt, d') /\
    files d' STORAGE_PATH = Some (FileJson (stamp nowISO data)) /\
    events_since d d' =
      [FsWriteFile STORAGE_PATH (FileJson (stamp nowISO data))] /\
    (forall src dst, ~ In (FsRename src dst) (events_since d d')) /\
    visible_during (FsWriteFile STORAGE_PATH (FileJson (stamp nowISO data)))
      (files d) STORAGE_PATH =
      [files d STORAGE_PATH; Some FileEmpty;
       Some (FileJson (stamp nowISO data))].
Proof.
  intros Hw. unfold writeStorage, writeFile. simpl. rewrite Hw.
  eexists. split; [reflexivity|].
  split; [reflexivity|].
  rewrite events_since_one
    with (e := FsWriteFile STORAGE_PATH (FileJson (stamp nowISO data)))
    by reflexivity.
  split; [reflexivity|]. split.
  - intros src dst [Hx|[]]. discriminate Hx.
  - reflexivity.
Qed.

Lemma C4_writeStorage_is_one_in_place_write_witness :
  exists d',
    writeStorage "2024-06-01" twoAccounts (diskWith duplicateStore) = (Ok tt, d') /\
    files d' STORAGE_PATH = Some (FileJson (stamp "2024-06-01" twoAccounts)).
Proof.
  destruct (C4_writeStorage_is_one_in_place_write "2024-06-01" twoAccounts
              (diskWith duplicateStore) eq_refl) as [d' [H1 [H2 _]]].
  exists d'. now split.
Defined.

(** * Token lifecycle *)

Section TokenFacts.

Variable now : Z.
Variable nowISO : string.
Variable parseDate : string -> option Z.
Variable toISO : Z -> string.
Variable localEndpoint : string -> string -> LocalResponse.
Variable googleEndpoint : string -> GoogleResponse.
Variable oauthClientConfigured : bool.
Variable imapConnect : EmailAccount -> outcome unit.
Variable imapClient : EmailAccount -> ImapClient.
Variable smtpSend : EmailAccount -> SendEmailOptions -> outcome string.
Variable simpleParser : Buffer -> ParsedMail.
Variable htmlToText : jsstring -> jsstring.

Let check := checkAndRefreshToken now nowISO parseDate toISO localEndpoint
               googleEndpoint oauthClientConfigured.
Let ensure := ensureToken now nowISO parseDate toISO localEndpoint
                googleEndpoint oauthClientConfigured.

Lemma check_fresh (svc : Service) (e : string) (t : Z) :
  tokenExpiry (account svc) = Some e ->
  parseDate e = Some t ->
  (t - now > 5 * 60 * 1000)%Z ->
  check svc = (true, svc).
Proof.
  intros He Hp Hgt. unfold check, checkAndRefreshToken, timeUntilExpiry.
  rewrite He, Hp.
  destruct (negb (String.eqb (provider (account svc)) "Gmail"));
    [reflexivity|].
  destruct (isSet (Some e)); [|reflexivity].
  replace (t - now <? 5 * 60 * 1000)%Z with false; [reflexivity|].
  symmetry. apply Z.ltb_ge. lia.
Qed.

Lemma check_expired_no_refresh (svc : Service) (e : string) (t : Z) :
  isOAuth (account svc) = true ->
  tokenExpiry (account svc) = Some e -> e <> ""%string ->
  parseDate e = Some t ->
  (t - now < 5 * 60 * 1000)%Z ->
  isSet (refreshToken (account svc)) = false ->
  check svc = (false, svc).
Proof.
  intros Ho He Hne Hp Hlt Hr.
  unfold check, checkAndRefreshToken, timeUntilExpiry.
  unfold isOAuth in Ho. apply andb_prop in Ho as [Hg _].
  rewrite Hg, He, Hp, Hr. simpl.
  destruct e as [|c e']; [contradiction|]. simpl.
  replace (t - now <? 300000)%Z with true; [reflexivity|].
  symmetry. apply Z.ltb_lt. lia.
Qed.

Lemma ensure_expired_no_refresh (svc : Service) (e : string) (t : Z) :
  isOAuth (account svc) = true ->
  tokenExpiry (account svc) = Some e -> e <> ""%string ->
  parseDate e = Some t ->
  (t - now < 5 * 60 * 1000)%Z ->
  isSet (refreshToken (account svc)) = false ->
  ensure svc = (Throw msg_reauth, svc).
Proof.
  intros Ho He Hne Hp Hlt Hr. unfold ensure, ensureToken. rewrite Ho.
  fold check. now rewrite (check_expired_no_refresh svc e t).
Qed.

End TokenFacts.

(** C6: when the token expires more than five minutes from now,
    [checkAndRefreshToken] answers that the token is usable and hands back
    the very state it was given: the account record, the store on disk and
    the list of network calls are all unchanged, so no refresh call was
    made.  The guard of the operations passes in the same way. *)
Theorem C6_fresh_token_no_refresh_no_change
    (now : Z) (nowISO : string) (parseDate : string -> option Z)
    (toISO : Z -> string) (localEndpoint : string -> string -> LocalResponse)
    (googleEndpoint : string -> GoogleResponse) (oauthClientConfigured : bool)
    (svc : Service) (e : string) (t : Z) :
  tokenExpiry (account svc) = Some e ->
  parseDate e = Some t ->
  (t - now > 5 * 60 * 1000)%Z ->
  checkAndRefreshToken now nowISO parseDate toISO localEndpoint
    googleEndpoint oauthClientConfigured svc = (true, svc) /\
  ensureToken now nowISO parseDate toISO localEndpoint
    googleEndpoint oauthClientConfigured svc = (Ok tt, svc).
Proof.
  intros He Hp Hgt.
  pose proof (check_fresh now nowISO parseDate toISO localEndpoint
                googleEndpoint oauthClientConfigured svc e t He Hp Hgt) as E.
  split; [exact E|].
  unfold ensureToken. rewrite E. now destruct (isOAuth (account svc)).
Qed.

Lemma C6_fresh_token_no_refresh_no_change_witness :
  checkAndRefreshToken 0%Z "2024-06-01T00:00:00Z" (fun _ => Some 600000%Z)
    (fun _ => ""%string) (fun _ _ => LocalHttpError)
    (fun _ => GoogleHttpError "500") true freshService = (true, freshService).
Proof.
  apply (C6_fresh_token_no_refresh_no_change 0%Z "2024-06-01T00:00:00Z"
           (fun _ => Some 600000%Z) (fun _ => ""%string)
           (fun _ _ => LocalHttpError) (fun _ => GoogleHttpError "500") true
           freshService "2024-06-01T00:10:00Z" 600000%Z).
  - reflexivity.
  - reflexivity.
  - reflexivity.
Defined.

(** C7: an OAuth account (provider Gmail with an access token) whose
    token is expired or expires within five minutes, and which has no
    refresh token, cannot be used: [connectImap] and [getEmailTextContent]
    throw the re-authentication message, [sendEmail] throws it wrapped,
    the tool handlers classify both messages as an expired authorisation,
    both tell the user to re-authenticate, and nothing is sent to a mail
    server: the state, and with it the list of network calls, is
    unchanged. *)
Theorem C7_expired_without_refresh_token_fails
    (now : Z) (nowISO : string) (parseDate : string -> option Z)
    (toISO : Z -> string) (localEndpoint : string -> string -> LocalResponse)
    (googleEndpoint : string -> GoogleResponse) (oauthClientConfigured : bool)
    (imapConnect : EmailAccount -> outcome unit)
    (imapClient : EmailAccount -> ImapClient)
    (smtpSend : EmailAccount -> SendEmailOptions -> outcome string)
    (simpleParser : Buffer -> ParsedMail) (htmlToText : jsstring -> jsstring)
    (svc : Service) (e : string) (t : Z) (uid : N)
    (options : SendEmailOptions) :
  isOAuth (account svc) = true ->
  tokenExpiry (account svc) = Some e -> e <> ""%string ->
  parseDate e = Some t ->
  (t - now < 5 * 60 * 1000)%Z ->
  isSet (refreshToken (account svc)) = false ->
  connectImap now nowISO parseDate toISO localEndpoint googleEndpoint
    oauthClientConfigured imapConnect svc = (Throw msg_reauth, svc) /\
  getEmailTextContent now nowISO parseDate toISO localEndpoint googleEndpoint
    oauthClientConfigured imapClient simpleParser htmlToText uid svc =
    (Throw msg_reauth, svc) /\
  sendEmail now nowISO parseDate toISO localEndpoint googleEndpoint
    oauthClientConfigured smtpSend options svc =
    (Throw ("Authentication failed: " ++ msg_reauth ++
            ". Please re-authenticate.")%string, svc) /\
  classifyError false msg_reauth = AuthExpired /\
  classifyError true ("Authentication failed: " ++ msg_reauth ++
                      ". Please re-authenticate.")%string = AuthExpired /\
  includes "re-authenticate" msg_reauth = true.
Proof.
  intros Ho He Hne Hp Hlt Hr.
  pose proof (ensure_expired_no_refresh now nowISO parseDate toISO
                localEndpoint googleEndpoint oauthClientConfigured
                svc e t Ho He Hne Hp Hlt Hr) as E.
  unfold connectImap, getEmailTextContent, sendEmail. rewrite E.
  repeat split.
Qed.

Lemma C7_expired_without_refresh_token_fails_witness :
  connectImap 900000%Z "2024-06-01T00:15:00Z" (fun _ => Some 0%Z)
    (fun _ => ""%string) (fun _ _ => LocalHttpError)
    (fun _ => GoogleHttpError "500") true (fun _ => Ok tt) expiredService
  = (Throw msg_reauth, expiredService).
Proof.
  apply (C7_expired_without_refresh_token_fails 900000%Z
           "2024-06-01T00:15:00Z" (fun _ => Some 0%Z) (fun _ => ""%string)
           (fun _ _ => LocalHttpError) (fun _ => GoogleHttpError "500") true
           (fun _ => Ok tt) (fun _ => emptyMailbox) (fun _ _ => Ok ""%string)
           (fun _ => {| parsed_text := None; parsed_html := None |})
           (fun h => h) expiredService "2024-06-01T00:00:00Z" 0%Z 1%N
           {| mail_to := "x@y.z"; mail_subject := "s"; mail_text := None;
              mail_html := None |}).
  - reflexivity.
  - reflexivity.
  - discriminate.
  - reflexivity.
  - reflexivity.
  - reflexivity.
Defined.

(** * Patterns and replacements: general facts *)

Local Close Scope string_scope.

Lemma takeWhile_dropWhile (p : N -> bool) (s : jsstring) :
  takeWhile p s ++ dropWhile p s = s.
Proof.
  induction s as [|c s IH]; simpl; [reflexivity|].
  destruct (p c); simpl; [now rewrite IH|reflexivity].
Qed.

Lemma takeWhile_all (p : N -> bool) (s : jsstring) :
  forallb p (takeWhile p s) = true.
Proof.
  induction s as [|c s IH]; simpl; [reflexivity|].
  destruct (p c) eqn:E; simpl; [now rewrite E|reflexivity].
Qed.

Lemma dropWhile_starts (p : N -> bool) (s : jsstring) :
  starts p (dropWhile p s) = false.
Proof.
  induction s as [|c s IH]; simpl; [reflexivity|].
  destruct (p c) eqn:E; simpl; [exact IH|exact E].
Qed.

Lemma takeWhile_app (p : N -> bool) (m s : jsstring) :
  forallb p m = true -> starts p s = false ->
  takeWhile p (m ++ s) = m /\ dropWhile p (m ++ s) = s.
Proof.
  intros Hm Hs. induction m as [|c m IH]; simpl in *.
  - destruct s as [|c s]; simpl in *; [now split|]. now rewrite Hs.
  - apply andb_prop in Hm as [Hc Hm]. rewrite Hc.
    destruct (IH Hm) as [H1 H2]. now rewrite H1, H2.
Qed.

Lemma takeWhile_nil_iff (p : N -> bool) (s : jsstring) :
  takeWhile p s = [] <-> starts p s = false.
Proof.
  destruct s as [|c s]; simpl; [tauto|].
  destruct (p c); split; intros H; try reflexivity; discriminate H.
Qed.


Lemma lastopt_cons (c : N) (m : jsstring) (prev : option N) :
  lastopt (c :: m) prev = lastopt m (Some c).
Proof. reflexivity. Qed.

(** ** The quantifier *)

Lemma quant_nil (p : N -> bool) (g : bool) (lo : nat) (hi : option nat)
    (prev : option N) (cs : caps) (k : cont) :
  quant p g lo hi prev [] cs k =
    match lo with O => k [] prev [] cs | S _ => None end.
Proof. destruct g; simpl; destruct lo; try reflexivity; now destruct (k [] prev [] cs). Qed.

Lemma quant_greedy_cons (p : N -> bool) (lo : nat) (prev : option N) (c : N)
    (s : jsstring) (cs : caps) (k : cont) :
  quant p true lo None prev (c :: s) cs k =
    if p c
    then match quant p true (pred lo) None (Some c) s cs
                 (fun m p' s'' cs' => k (c :: m) p' s'' cs') with
         | Some x => Some x
         | None => match lo with O => k [] prev (c :: s) cs | S _ => None end
         end
    else match lo with O => k [] prev (c :: s) cs | S _ => None end.
Proof. simpl. destruct (p c); reflexivity. Qed.


(** A greedy quantifier whose continuation cannot succeed in front of a
    code unit of the class commits to the longest run. *)
Lemma quant_greedy_commit (p : N -> bool) (s : jsstring) :
  forall (lo : nat) (prev : option N) (cs : caps) (k : cont),
    (forall m p' c s' cs', p c = true -> k m p' (c :: s') cs' = None) ->
    quant p true lo None prev s cs k =
      if (lo <=? length (takeWhile p s))%nat
      then k (takeWhile p s) (lastopt (takeWhile p s) prev) (dropWhile p s) cs
      else None.
Proof.
  induction s as [|c s IH]; intros lo prev cs k Hk.
  - rewrite quant_nil. simpl. now destruct lo.
  - rewrite quant_greedy_cons. simpl takeWhile. simpl dropWhile.
    destruct (p c) eqn:Hc.
    + rewrite IH by (intros; now apply Hk).
      rewrite lastopt_cons. cbn [length].
      destruct lo as [|l]; cbn [pred Nat.leb].
      * destruct (k (c :: takeWhile p s) _ _ cs); [reflexivity|].
        now apply Hk.
      * destruct (l <=? length (takeWhile p s))%nat; [|reflexivity].
        now destruct (k (c :: takeWhile p s) _ _ cs).
    + simpl. now destruct lo.
Qed.

(** A greedy quantifier whose continuation always succeeds takes the
    longest run. *)
Lemma quant_greedy_final (p : N -> bool) (s : jsstring) :
  forall (lo : nat) (prev : option N) (cs : caps) (f : jsstring -> jsstring),
    quant p true lo None prev s cs (fun m _ _ cs' => Some (f m, cs')) =
      if (lo <=? length (takeWhile p s))%nat
      then Some (f (takeWhile p s), cs)
      else None.
Proof.
  induction s as [|c s IH]; intros lo prev cs f.
  - rewrite quant_nil. simpl. now destruct lo.
  - rewrite quant_greedy_cons. simpl takeWhile.
    destruct (p c) eqn:Hc.
    + rewrite (IH (pred lo) (Some c) cs (fun m => f (c :: m))).
      cbn [length]. destruct lo as [|l]; cbn [pred Nat.leb]; [reflexivity|].
      now destruct (l <=? length (takeWhile p s))%nat.
    + simpl. now destruct lo.
Qed.

(** ** Replacement *)

Lemma replace_go_ext (ex ex' : matcher) (rp : replacer) :
  (forall prev s, ex prev s = ex' prev s) ->
  forall s skip prev, replace_go ex rp skip prev s = replace_go ex' rp skip prev s.
Proof.
  intros H s. induction s as [|c s IH]; intros skip prev.
  - destruct skip; simpl; [now rewrite H|reflexivity].
  - destruct skip; simpl; [|apply IH]. rewrite H.
    destruct (ex' prev (c :: s)) as [[m cs]|]; [|now rewrite IH].
    destruct (length m); now rewrite IH.
Qed.

Lemma replace_first_go_ext (ex ex' : matcher) (rp : replacer) :
  (forall prev s, ex prev s = ex' prev s) ->
  forall s prev, replace_first_go ex rp prev s = replace_first_go ex' rp prev s.
Proof.
  intros H s. induction s as [|c s IH]; intros prev; simpl; rewrite H.
  - reflexivity.
  - destruct (ex' prev (c :: s)) as [[m cs]|]; [reflexivity|now rewrite IH].
Qed.

Lemma replace_go_skip (ex : matcher) (rp : replacer) (m s : jsstring)
    (prev : option N) :
  replace_go ex rp (length m) prev (m ++ s) =
  replace_go ex rp 0 (lastopt m prev) s.
Proof.
  revert prev. induction m as [|c m IH]; intros prev; [reflexivity|].
  simpl. now rewrite IH.
Qed.

Lemma replaces_total (ex : matcher) (rp : replacer) :
  sound ex ->
  forall s prev, Replaces ex rp prev s (replace_go ex rp 0 prev s).
Proof.
  intros Hs s.
  remember (length s) as n eqn:Hn. revert s Hn.
  induction n as [n IH] using lt_wf_ind. intros s Hn prev.
  destruct s as [|c s].
  - simpl. destruct (ex prev []) as [[m cs]|] eqn:E.
    + destruct (Hs _ _ _ _ E) as [Hne [s' Hs']].
      destruct m; [contradiction|discriminate].
    + now constructor.
  - simpl. destruct (ex prev (c :: s)) as [[m cs]|] eqn:E.
    + destruct (Hs _ _ _ _ E) as [Hne [s' Hs']].
      destruct m as [|c' m]; [contradiction|].
      simpl in Hs'. injection Hs' as <- ->. cbn [length].
      rewrite replace_go_skip.
      change (c :: m ++ s') with ((c :: m) ++ s') in *.
      apply Replaces_match; [exact E|discriminate|].
      apply (IH (length s')); [|reflexivity].
      subst n. simpl. rewrite length_app. lia.
    + apply Replaces_copy; [exact E|].
      apply (IH (length s)); [subst n; simpl; lia|reflexivity].
Qed.

Lemma replaces_fun (ex : matcher) (rp : replacer) :
  sound ex ->
  forall prev s o, Replaces ex rp prev s o -> o = replace_go ex rp 0 prev s.
Proof.
  intros Hs prev s o H. induction H as [prev E|prev c s o E H IH|prev m s o cs E Hne H IH].
  - simpl. now rewrite E.
  - simpl. rewrite E. now rewrite IH.
  - destruct m as [|c m]; [contradiction|].
    simpl. simpl in E. rewrite E. cbn [length].
    rewrite replace_go_skip. now rewrite IH.
Qed.

(** A matcher that fails at every position leaves the text alone. *)
Lemma replaces_id (ex : matcher) (rp : replacer) (prev : option N) (s o : jsstring) :
  Replaces ex rp prev s o ->
  (forall a b p', s = a ++ b -> ex p' b = None) -> o = s.
Proof.
  intros H. induction H as [prev E|prev c s o E H IH|prev m s o cs E Hne H IH];
    intros Hno.
  - reflexivity.
  - f_equal. apply IH. intros a b p' ->. apply (Hno (c :: a) b p'). reflexivity.
  - rewrite (Hno [] (m ++ s) prev eq_refl) in E. discriminate E.
Qed.

(** ** Character classes *)

Lemma canon_g (c : N) : canon flags_g c = c.
Proof. reflexivity. Qed.

Lemma atom_ok_blank (c : N) : atom_ok flags_g blank c = isBlank c.
Proof.
  unfold isBlank, atom_ok, blank. cbn [existsb citem_ok].
  rewrite !canon_g, orb_false_r.
  now rewrite (N.eqb_sym 32 c), (N.eqb_sym 9 c).
Qed.

Lemma canon_fixed (fl : flags) (a : N) :
  (a < 97)%N -> canon fl a = a.
Proof.
  intros H. unfold canon. destruct (ignoreCase fl); [|reflexivity].
  cbn [andb]. destruct (N.leb_spec 97 a); [lia|reflexivity].
Qed.

(** A pattern character below [a] is matched by itself only, with or
    without the [i] flag. *)
Lemma canon_eqb_low (fl : flags) (a c : N) :
  (a < 65)%N -> (canon fl a =? canon fl c)%N = (c =? a)%N.
Proof.
  intros H. rewrite (canon_fixed fl a) by lia. unfold canon.
  destruct (ignoreCase fl && (97 <=? c) && (c <=? 122))%N eqn:E.
  - apply andb_prop in E as [E1 E2]. apply andb_prop in E1 as [_ E1].
    apply N.leb_le in E1, E2.
    destruct (N.eqb_spec a (c - 32)), (N.eqb_spec c a); try reflexivity; lia.
  - apply N.eqb_sym.
Qed.

Lemma atom_ok_newline (fl : flags) (c : N) : atom_ok fl newline c = isNL c.
Proof.
  unfold isNL, atom_ok, newline. cbn [existsb citem_ok]. rewrite orb_false_r.
  apply canon_eqb_low. reflexivity.
Qed.

Lemma atom_ok_chr10 (fl : flags) (c : N) :
  atom_ok fl (ASet [CChar 10%N]) c = isNL c.
Proof. apply atom_ok_newline. Qed.

Lemma atom_ok_space (fl : flags) (c : N) : atom_ok fl space c = isWhiteSpace c.
Proof. unfold atom_ok, space. cbn [existsb citem_ok]. apply orb_false_r. Qed.


Lemma blank_is_space (c : N) : isBlank c = true -> isWhiteSpace c = true.
Proof.
  unfold isBlank, isWhiteSpace. intros H. apply orb_prop in H as [H|H];
    apply N.eqb_eq in H; subst c; reflexivity.
Qed.

Lemma blank_not_lt (c : N) : isBlank c = true -> isLineTerminator c = false.
Proof.
  unfold isBlank, isLineTerminator. intros H. apply orb_prop in H as [H|H];
    apply N.eqb_eq in H; subst c; reflexivity.
Qed.

Lemma nl_is_lt (c : N) : isNL c = true -> isLineTerminator c = true.
Proof. unfold isNL. intros H. apply N.eqb_eq in H. now subst c. Qed.

Lemma lt_is_space (c : N) : isLineTerminator c = true -> isWhiteSpace c = true.
Proof.
  unfold isLineTerminator, isWhiteSpace. intros H.
  repeat (apply orb_prop in H as [H|H]); apply N.eqb_eq in H; subst c;
    reflexivity.
Qed.

Lemma nl_not_blank (c : N) : isNL c = true -> isBlank c = false.
Proof. unfold isNL. intros H. apply N.eqb_eq in H. now subst c. Qed.

Lemma blank_not_nl (c : N) : isBlank c = true -> isNL c = false.
Proof.
  intros H. destruct (isNL c) eqn:E; [|reflexivity].
  now rewrite (nl_not_blank c E) in H.
Qed.

Lemma nl_is_space (c : N) : isNL c = true -> isWhiteSpace c = true.
Proof. intros H. now apply lt_is_space, nl_is_lt. Qed.

Lemma quant_ext (p q : N -> bool) :
  (forall c, p c = q c) ->
  forall s g lo hi prev cs k,
    quant p g lo hi prev s cs k = quant q g lo hi prev s cs k.
Proof.
  intros H s. induction s as [|c s IH]; intros g lo hi prev cs k.
  - reflexivity.
  - simpl. rewrite H. destruct (q c && hi_open hi); [|reflexivity].
    now rewrite IH.
Qed.

(** Whatever a quantifier matches is a run of its class, long enough, and
    the continuation accepted what follows. *)
Lemma quant_some (p : N -> bool) (s : jsstring) :
  forall g lo hi prev cs k res,
    quant p g lo hi prev s cs k = Some res ->
    exists m s', s = m ++ s' /\ forallb p m = true /\ (lo <= length m)%nat /\
                 k m (lastopt m prev) s' cs = Some res.
Proof.
  induction s as [|c s IH]; intros g lo hi prev cs k res H.
  - rewrite quant_nil in H. destruct lo; [|discriminate].
    exists [], []. repeat split; [apply Nat.le_refl|exact H].
  - assert (Hstop : match lo with O => k [] prev (c :: s) cs | S _ => None end
                    = Some res ->
                    exists m s', c :: s = m ++ s' /\ forallb p m = true /\
                      (lo <= length m)%nat /\
                      k m (lastopt m prev) s' cs = Some res).
    { intros E. destruct lo; [|discriminate].
      exists [], (c :: s). repeat split; [apply Nat.le_refl|exact E]. }
    assert (Hmore : (if p c && hi_open hi
                     then quant p g (pred lo) (hi_pred hi) (Some c) s cs
                            (fun m p' s'' cs' => k (c :: m) p' s'' cs')
                     else None) = Some res ->
                    exists m s', c :: s = m ++ s' /\ forallb p m = true /\
                      (lo <= length m)%nat /\
                      k m (lastopt m prev) s' cs = Some res).
    { intros E. destruct (p c && hi_open hi) eqn:Hc; [|discriminate].
      apply andb_prop in Hc as [Hc _].
      destruct (IH _ _ _ _ _ _ _ E) as [m [s' [-> [Hm [Hl Hk]]]]].
      exists (c :: m), s'. simpl. rewrite Hc, Hm. repeat split; [lia|exact Hk]. }
    simpl in H. destruct g.
    + destruct (if p c && hi_open hi then _ else None) eqn:E.
      * injection H as <-. now apply Hmore.
      * now apply Hstop.
    + destruct (match lo with O => _ | S _ => None end) eqn:E.
      * injection H as <-. now apply Hstop.
      * now apply Hmore.
Qed.

(** ** The whitespace patterns *)

Lemma exec_blanks (prev : option N) (s : jsstring) :
  exec flags_g re_blanks prev s = ex_run isBlank prev s.
Proof.
  unfold exec, re_blanks, plus, ex_run. cbn [rmatch].
  rewrite (quant_ext _ isBlank atom_ok_blank).
  rewrite (quant_greedy_final isBlank s 1 prev [] (fun m => m)).
  now destruct (takeWhile isBlank s).
Qed.

Lemma exec_nl_blanks (prev : option N) (s : jsstring) :
  exec flags_g re_nl_blanks prev s = ex_nl_blanks prev s.
Proof.
  unfold exec, re_nl_blanks, ex_nl_blanks, plus, chr. cbn [seqs rmatch].
  destruct s as [|c s]; [reflexivity|].
  rewrite atom_ok_chr10. destruct (isNL c); [|reflexivity].
  rewrite (quant_ext _ isBlank atom_ok_blank).
  rewrite (quant_greedy_final isBlank s 1 (Some c) [] (fun m => [c] ++ m)).
  now destruct (takeWhile isBlank s).
Qed.

Lemma exec_blanks_nl (prev : option N) (s : jsstring) :
  exec flags_g re_blanks_nl prev s = ex_blanks_nl prev s.
Proof.
  unfold exec, re_blanks_nl, ex_blanks_nl, plus, chr. cbn [seqs rmatch].
  rewrite (quant_ext _ isBlank atom_ok_blank).
  rewrite quant_greedy_commit.
  - destruct (takeWhile isBlank s) as [|b m] eqn:E; [reflexivity|].
    cbn [length Nat.leb].
    destruct (dropWhile isBlank s) as [|c r]; [reflexivity|].
    rewrite atom_ok_chr10. now destruct (isNL c).
  - intros m p' c s' cs' Hc. rewrite atom_ok_chr10.
    now rewrite (blank_not_nl c Hc).
Qed.

Lemma exec_leading_nl (prev : option N) (s : jsstring) :
  exec flags_none re_leading_nl prev s = ex_leading_nl prev s.
Proof.
  unfold exec, re_leading_nl, ex_leading_nl, ex_run, plus. cbn [seqs rmatch].
  destruct prev as [c|]; [reflexivity|]. cbn [at_bol].
  rewrite (quant_ext _ isNL (atom_ok_newline flags_none)).
  rewrite (quant_greedy_final isNL s 1 None [] (fun m => [] ++ m)).
  now destruct (takeWhile isNL s).
Qed.

Lemma exec_trailing_nl (prev : option N) (s : jsstring) :
  exec flags_none re_trailing_nl prev s = ex_trailing_nl prev s.
Proof.
  unfold exec, re_trailing_nl, ex_trailing_nl, plus. cbn [seqs rmatch].
  rewrite (quant_ext _ isNL (atom_ok_newline flags_none)).
  rewrite quant_greedy_commit.
  - destruct (takeWhile isNL s) as [|b m] eqn:E; [reflexivity|].
    cbn [length Nat.leb].
    destruct (dropWhile isNL s) as [|c r]; [|reflexivity].
    cbn [at_eol]. now rewrite app_nil_r.
  - intros m p' c s' cs' Hc. reflexivity.
Qed.

Lemma quant_space_eol (s : jsstring) :
  forall (prev : option N) (cs : caps) (f : jsstring -> jsstring),
    quant isWhiteSpace true 0 None prev s cs
      (fun m _ s1 cs1 => if at_eol flags_gm s1 then Some (f m, cs1) else None) =
    match eol_span s with
    | Some m => Some (f m, cs)
    | None => None
    end.
Proof.
  induction s as [|c s IH]; intros prev cs f.
  - reflexivity.
  - rewrite quant_greedy_cons. cbn [pred eol_span].
    destruct (isWhiteSpace c) eqn:Hc.
    + rewrite (IH (Some c) cs (fun m => f (c :: m))).
      destruct (eol_span s); [reflexivity|].
      cbn [at_eol multiline flags_gm andb]. now destruct (isLineTerminator c).
    + cbn [at_eol multiline flags_gm andb].
      destruct (isLineTerminator c) eqn:Hl; [|reflexivity].
      now rewrite (lt_is_space c Hl) in Hc.
Qed.

Lemma exec_blank_line (prev : option N) (s : jsstring) :
  exec flags_gm re_blank_line prev s = ex_blank_line prev s.
Proof.
  unfold exec, re_blank_line, ex_blank_line, plus. cbn [seqs rmatch].
  destruct (at_bol flags_gm prev); [|reflexivity].
  rewrite (quant_ext _ isWhiteSpace (atom_ok_space flags_gm)).
  destruct s as [|c s]; [reflexivity|].
  rewrite quant_greedy_cons. cbn [pred eol_take].
  destruct (isWhiteSpace c); [|reflexivity].
  rewrite (quant_space_eol s (Some c) []
             (fun m => [] ++ ((c :: m) ++ []))).
  destruct (eol_span s); [|reflexivity].
  now rewrite app_nil_r.
Qed.

(** * The whitespace steps of [cleanEmailText] *)

Lemma replace_go_no_match (ex : matcher) (rp : replacer) (s : jsstring) :
  forall prev,
    (forall a b p', s = a ++ b -> ex p' b = None) ->
    replace_go ex rp 0 prev s = s.
Proof.
  induction s as [|c s IH]; intros prev H; simpl.
  - now rewrite (H [] [] prev eq_refl).
  - rewrite (H [] (c :: s) prev eq_refl). f_equal. apply IH.
    intros a b p' ->. now apply (H (c :: a) b p').
Qed.

Lemma replace_first_go_no_match (ex : matcher) (rp : replacer) (s : jsstring) :
  forall prev,
    (forall a b, s = a ++ b -> ex (lastopt a prev) b = None) ->
    replace_first_go ex rp prev s = s.
Proof.
  induction s as [|c s IH]; intros prev H; simpl.
  - pose proof (H [] [] eq_refl) as E. cbn in E. now rewrite E.
  - pose proof (H [] (c :: s) eq_refl) as E. cbn in E. rewrite E.
    f_equal. apply IH.
    intros a b ->. now apply (H (c :: a) b).
Qed.

Lemma replace_go_forall (P : N -> bool) (ex : matcher) (rp : replacer) :
  (forall m cs, forallb P (rp m cs) = true) ->
  forall s skip prev,
    forallb P s = true -> forallb P (replace_go ex rp skip prev s) = true.
Proof.
  intros Hrp s. induction s as [|c s IH]; intros skip prev Hs.
  - destruct skip; simpl; [|reflexivity].
    destruct (ex prev []) as [[m cs]|]; [|reflexivity].
    now rewrite app_nil_r.
  - simpl in Hs. apply andb_prop in Hs as [Hc Hs].
    destruct skip; simpl; [|now apply IH].
    destruct (ex prev (c :: s)) as [[m cs]|].
    + rewrite forallb_app, Hrp. simpl.
      destruct (length m); simpl; [rewrite Hc|]; now apply IH.
    + simpl. rewrite Hc. now apply IH.
Qed.

Lemma replace_first_go_forall (P : N -> bool) (ex : matcher) (rp : replacer) :
  (forall m cs, forallb P (rp m cs) = true) ->
  forall s prev,
    forallb P s = true -> forallb P (replace_first_go ex rp prev s) = true.
Proof.
  intros Hrp s. induction s as [|c s IH]; intros prev Hs; simpl.
  - destruct (ex prev []) as [[m cs]|]; [|reflexivity].
    rewrite forallb_app, Hrp. now destruct (length m).
  - simpl in Hs. apply andb_prop in Hs as [Hc Hs].
    destruct (ex prev (c :: s)) as [[m cs]|].
    + rewrite forallb_app, Hrp. simpl.
      assert (H : forallb P (c :: s) = true) by (simpl; now rewrite Hc).
      rewrite <- (firstn_skipn (length m) (c :: s)) in H.
      rewrite forallb_app in H. now apply andb_prop in H as [_ H].
    + simpl. rewrite Hc. now apply IH.
Qed.

(** ** Trimming *)

Lemma trimStart_forall (P : N -> bool) (s : jsstring) :
  forallb P s = true -> forallb P (trimStart s) = true.
Proof.
  induction s as [|c s IH]; simpl; [easy|]. intros H.
  destruct (isWhiteSpace c); [|exact H].
  apply andb_prop in H as [_ H]. now apply IH.
Qed.

Lemma trimEnd_forall (P : N -> bool) (s : jsstring) :
  forallb P s = true -> forallb P (trimEnd s) = true.
Proof.
  induction s as [|c s IH]; simpl; [easy|]. intros H.
  apply andb_prop in H as [Hc H]. specialize (IH H).
  destruct (trimEnd s) as [|d t].
  - destruct (isWhiteSpace c); simpl; [reflexivity|now rewrite Hc].
  - simpl. rewrite Hc. exact IH.
Qed.

Lemma trim_forall (P : N -> bool) (s : jsstring) :
  forallb P s = true -> forallb P (trim s) = true.
Proof. intros H. now apply trimEnd_forall, trimStart_forall. Qed.

Lemma trimStart_starts (s : jsstring) :
  starts isWhiteSpace (trimStart s) = false.
Proof.
  induction s as [|c s IH]; simpl; [reflexivity|].
  destruct (isWhiteSpace c) eqn:E; [exact IH|]. simpl. exact E.
Qed.

Lemma trimStart_id (s : jsstring) :
  starts isWhiteSpace s = false -> trimStart s = s.
Proof. destruct s as [|c s]; simpl; [easy|]. now intros ->. Qed.

Lemma trimEnd_starts (s : jsstring) :
  starts isWhiteSpace s = false ->
  starts isWhiteSpace (trimEnd s) = false.
Proof.
  destruct s as [|c s]; simpl; [easy|]. intros H.
  destruct (trimEnd s); [rewrite H|]; simpl; [exact H|exact H].
Qed.

Lemma trimEnd_idem (s : jsstring) : trimEnd (trimEnd s) = trimEnd s.
Proof.
  induction s as [|c s IH]; simpl; [reflexivity|].
  destruct (trimEnd s) as [|d t] eqn:E.
  - destruct (isWhiteSpace c) eqn:Hc; simpl; [reflexivity|now rewrite Hc].
  - cbn [trimEnd]. cbn [trimEnd] in IH. rewrite IH. reflexivity.
Qed.

Lemma trim_idem (s : jsstring) : trim (trim s) = trim s.
Proof.
  unfold trim.
  rewrite (trimStart_id (trimEnd (trimStart s))).
  - apply trimEnd_idem.
  - apply trimEnd_starts, trimStart_starts.
Qed.

(** A trimmed text does not end in whitespace. *)
Lemma trimEnd_app_space (a b : jsstring) :
  forallb isWhiteSpace b = true -> trimEnd (a ++ b) = trimEnd a.
Proof.
  intros Hb. induction a as [|c a IH]; simpl.
  - induction b as [|d b IHb]; simpl; [reflexivity|].
    simpl in Hb. apply andb_prop in Hb as [Hd Hb].
    rewrite (IHb Hb). simpl. now rewrite Hd.
  - now rewrite IH.
Qed.

Lemma trimEnd_length (s : jsstring) : (length (trimEnd s) <= length s)%nat.
Proof.
  induction s as [|c s IH]; simpl; [lia|].
  destruct (trimEnd s); [destruct (isWhiteSpace c)|]; simpl in *; lia.
Qed.

Lemma trimmed_no_space_tail (w a b : jsstring) :
  trimEnd w = w -> w = a ++ b -> forallb isWhiteSpace b = true -> b = [].
Proof.
  intros Hw -> Hb. rewrite (trimEnd_app_space a b Hb) in Hw.
  pose proof (trimEnd_length a) as Hl. rewrite Hw, length_app in Hl.
  destruct b; [reflexivity|simpl in Hl; lia].
Qed.

(** ** The direct matchers are sound *)

Lemma ex_run_sound (p : N -> bool) : sound (ex_run p).
Proof.
  intros prev s m cs H. unfold ex_run in H.
  pose proof (takeWhile_dropWhile p s) as TD.
  destruct (takeWhile p s) as [|c t] eqn:E; [discriminate|].
  injection H as <- <-. split; [discriminate|].
  exists (dropWhile p s). now rewrite TD.
Qed.

Lemma ex_nl_blanks_sound : sound ex_nl_blanks.
Proof.
  intros prev s m cs H. unfold ex_nl_blanks in H.
  destruct s as [|c s]; [discriminate|].
  destruct (isNL c); [|discriminate].
  pose proof (takeWhile_dropWhile isBlank s) as TD.
  destruct (takeWhile isBlank s) as [|b t] eqn:E; [discriminate|].
  injection H as <- <-. split; [discriminate|].
  exists (dropWhile isBlank s). simpl. simpl in TD. now rewrite TD.
Qed.

Lemma ex_blanks_nl_sound : sound ex_blanks_nl.
Proof.
  intros prev s m cs H. unfold ex_blanks_nl in H.
  pose proof (takeWhile_dropWhile isBlank s) as TD.
  destruct (takeWhile isBlank s) as [|b t] eqn:E; [discriminate|].
  destruct (dropWhile isBlank s) as [|c r] eqn:D; [discriminate|].
  destruct (isNL c); [|discriminate].
  injection H as <- <-. split; [discriminate|].
  exists r. rewrite <- TD. simpl. now rewrite <- app_assoc.
Qed.

Lemma eol_span_prefix (s : jsstring) :
  forall m, eol_span s = Some m -> exists s', s = m ++ s'.
Proof.
  induction s as [|c s IH]; intros m H; simpl in H.
  - injection H as <-. now exists [].
  - destruct (isWhiteSpace c); [|discriminate].
    destruct (eol_span s) as [m'|].
    + injection H as <-. destruct (IH m' eq_refl) as [s' ->]. now exists s'.
    + destruct (isLineTerminator c); [|discriminate].
      injection H as <-. now exists (c :: s).
Qed.

Lemma eol_take_span (s m : jsstring) :
  eol_take s = Some m -> eol_span s = Some m /\ m <> [].
Proof.
  destruct s as [|c s]; simpl; [discriminate|].
  destruct (isWhiteSpace c); [|discriminate].
  destruct (eol_span s); [|discriminate].
  intros H. injection H as <-. split; [reflexivity|discriminate].
Qed.

Lemma ex_blank_line_sound : sound ex_blank_line.
Proof.
  intros prev s m cs H. unfold ex_blank_line in H.
  destruct (at_bol flags_gm prev); [|discriminate].
  destruct (eol_take s) as [m'|] eqn:E; [|discriminate].
  injection H as <- <-. destruct (eol_take_span s _ E) as [E' Hne].
  split; [exact Hne|]. now apply eol_span_prefix.
Qed.

(** ** Blank lines *)

Lemma blf_mono (s : jsstring) : blf InBlank s = true -> blf AtStart s = true.
Proof.
  destruct s as [|c s]; simpl; [discriminate|].
  destruct (isLineTerminator c); [discriminate|]. easy.
Qed.

Lemma blf_inblank_span (s : jsstring) :
  blf InBlank s = true -> eol_span s = None.
Proof.
  induction s as [|c s IH]; simpl; [discriminate|].
  destruct (isLineTerminator c) eqn:Hl; [discriminate|].
  destruct (isWhiteSpace c); [|reflexivity].
  intros H. now rewrite (IH H).
Qed.

Lemma blf_atstart_take (s : jsstring) :
  blf AtStart s = true -> eol_take s = None.
Proof.
  destruct s as [|c s]; simpl; [reflexivity|].
  destruct (isLineTerminator c) eqn:Hl.
  - intros H. rewrite (lt_is_space c Hl). now rewrite (blf_inblank_span s H).
  - destruct (isWhiteSpace c); [|reflexivity].
    intros H. now rewrite (blf_inblank_span s H).
Qed.

Lemma eol_span_max (m s : jsstring) :
  eol_span (m ++ s) = Some m -> eol_take s = None.
Proof.
  induction m as [|c m IH]; simpl.
  - destruct s as [|c s]; simpl; [reflexivity|].
    destruct (isWhiteSpace c); [|reflexivity].
    destruct (eol_span s); [discriminate|reflexivity].
  - destruct (isWhiteSpace c); [|discriminate].
    destruct (eol_span (m ++ s)) as [m'|] eqn:E.
    + intros H. injection H as ->. now apply IH.
    + destruct (isLineTerminator c); discriminate.
Qed.

Lemma at_bol_some (c : N) : at_bol flags_gm (Some c) = isLineTerminator c.
Proof. reflexivity. Qed.

(** The output of [removeBlankLines] has no blank line left. *)
Lemma blank_line_out (prev : option N) (s o : jsstring) :
  Replaces ex_blank_line delete prev s o ->
  forall st, blank_line_inv st prev s -> blf st o = true.
Proof.
  intros H.
  induction H as [prev E|prev c s o E H IH|prev m s o cs E Hne H IH];
    intros st G.
  - destruct st; simpl in *; try reflexivity. discriminate G.
  - destruct st; simpl in G.
    + assert (T : eol_take (c :: s) = None).
      { destruct G as [G|G]; [|exact G]. unfold ex_blank_line in E.
        rewrite G in E. now destruct (eol_take (c :: s)). }
      simpl in T. simpl.
      destruct (isLineTerminator c) eqn:Hl.
      * rewrite (lt_is_space c Hl) in T. apply IH. simpl.
        now destruct (eol_span s).
      * destruct (isWhiteSpace c).
        -- apply IH. simpl. now destruct (eol_span s).
        -- apply IH. simpl. now rewrite Hl.
    + simpl. destruct (isWhiteSpace c) eqn:Hw.
      * destruct (eol_span s) eqn:Es; [discriminate|].
        destruct (isLineTerminator c); [discriminate|].
        now apply IH.
      * destruct (isLineTerminator c) eqn:Hl.
        -- now rewrite (lt_is_space c Hl) in Hw.
        -- apply IH. simpl. now rewrite Hl.
    + simpl. destruct (isLineTerminator c) eqn:Hl.
      * apply IH. simpl. left. now rewrite Hl.
      * destruct (isWhiteSpace c); apply IH; simpl; now rewrite Hl.
  - unfold ex_blank_line in E.
    destruct (at_bol flags_gm prev) eqn:B; [|discriminate].
    destruct (eol_take (m ++ s)) as [m'|] eqn:T; [|discriminate].
    injection E as -> <-. destruct (eol_take_span _ _ T) as [Sp _].
    unfold delete, with_text. simpl.
    destruct st; simpl in G.
    + apply IH. simpl. right. now apply (eol_span_max m).
    + rewrite Sp in G. discriminate G.
    + congruence.
Qed.

Lemma removeBlankLines_spec (s : jsstring) :
  removeBlankLines s = replace_go ex_blank_line delete 0 None s.
Proof. apply replace_go_ext, exec_blank_line. Qed.

Lemma removeBlankLines_blf (s : jsstring) :
  blf AtStart (removeBlankLines s) = true.
Proof.
  rewrite removeBlankLines_spec.
  apply blank_line_out with (prev := None) (s := s).
  - apply replaces_total, ex_blank_line_sound.
  - simpl. now left.
Qed.

(** A text without blank lines is left alone by [removeBlankLines]. *)
Lemma blank_line_id (s : jsstring) :
  forall st prev, in_sync st prev -> blf st s = true ->
    replace_go ex_blank_line delete 0 prev s = s.
Proof.
  induction s as [|c s IH]; intros st prev Hs Hb.
  - simpl. unfold ex_blank_line. now destruct (at_bol flags_gm prev).
  - assert (E : ex_blank_line prev (c :: s) = None).
    { unfold ex_blank_line. destruct (at_bol flags_gm prev) eqn:B;
        [|reflexivity].
      destruct st; simpl in Hs.
      - now rewrite (blf_atstart_take _ Hb).
      - rewrite (blf_atstart_take _ (blf_mono _ Hb)). reflexivity.
      - congruence. }
    simpl. rewrite E. f_equal. simpl in Hb.
    destruct (isLineTerminator c) eqn:Hl.
    + destruct st; [apply (IH InBlank)|discriminate|apply (IH AtStart)];
        simpl; try easy.
    + destruct (isWhiteSpace c).
      * destruct st; [apply (IH InBlank)|apply (IH InBlank)|apply (IH InText)];
          simpl; try easy.
      * apply (IH InText); simpl; easy.
Qed.

Lemma removeBlankLines_id (s : jsstring) :
  blf AtStart s = true -> removeBlankLines s = s.
Proof.
  intros H. rewrite removeBlankLines_spec.
  now apply (blank_line_id s AtStart None).
Qed.

(** ** Runs of newlines *)

Lemma newlines_pattern (prev : option N) (s : jsstring) (res : mresult) :
  exec flags_g re_newlines prev s = Some res ->
  exists w rest, s = 10%N :: w ++ 10%N :: rest /\ w <> [] /\
                 forallb isWhiteSpace w = true.
Proof.
  unfold exec, re_newlines, star, plus, chr. cbn [seqs rmatch].
  destruct s as [|c s]; [discriminate|].
  rewrite atom_ok_chr10. destruct (isNL c) eqn:Hc; [|discriminate].
  apply N.eqb_eq in Hc. subst c.
  rewrite (quant_ext _ isWhiteSpace (atom_ok_space flags_g)).
  intros H. apply quant_some in H as [m1 [s1 [-> [Hm1 [_ H]]]]].
  destruct s1 as [|c1 s1]; [discriminate|].
  rewrite atom_ok_chr10 in H. destruct (isNL c1) eqn:Hc1; [|discriminate].
  rewrite (quant_ext _ isWhiteSpace (atom_ok_space flags_g)) in H.
  apply quant_some in H as [m2 [s2 [-> [Hm2 [_ H]]]]].
  rewrite (quant_ext _ isNL (atom_ok_newline flags_g)) in H.
  apply quant_some in H as [m3 [s3 [-> [Hm3 [Hl _]]]]].
  destruct m3 as [|d m3]; [simpl in Hl; lia|].
  simpl in Hm3. apply andb_prop in Hm3 as [Hd _].
  apply N.eqb_eq in Hd. subst d.
  exists (m1 ++ c1 :: m2), (m3 ++ s3). split; [|split].
  - rewrite <- app_assoc. reflexivity.
  - now destruct m1.
  - rewrite forallb_app, Hm1. simpl. now rewrite (nl_is_space c1 Hc1), Hm2.
Qed.

Lemma blf_space_run (w : jsstring) :
  forall st x, forallb isWhiteSpace w = true -> w <> [] -> st <> InText ->
    blf st (w ++ x) = true -> blf InBlank x = true.
Proof.
  induction w as [|c w IH]; intros st x Hw Hne Hst H; [contradiction|].
  simpl in Hw. apply andb_prop in Hw as [Hc Hw].
  assert (H' : blf InBlank (w ++ x) = true).
  { simpl in H. rewrite Hc in H.
    destruct (isLineTerminator c); destruct st; try discriminate;
      try contradiction; exact H. }
  destruct w as [|d w]; [exact H'|].
  apply (IH InBlank); [exact Hw|discriminate|discriminate|exact H'].
Qed.

Lemma blf_pattern_false (st : lstate) (w rest : jsstring) :
  w <> [] -> forallb isWhiteSpace w = true ->
  blf st (10%N :: w ++ 10%N :: rest) = false.
Proof.
  intros Hne Hw. destruct (blf st (10%N :: w ++ 10%N :: rest)) eqn:E;
    [|reflexivity].
  change (blf st (10%N :: w ++ 10%N :: rest)) with
    (match st with
     | InBlank => false
     | AtStart => blf InBlank (w ++ 10%N :: rest)
     | InText => blf AtStart (w ++ 10%N :: rest)
     end) in E.
  assert (F : blf InBlank (10%N :: rest) = true).
  { destruct st; [|discriminate|].
    - apply (blf_space_run w InBlank); [exact Hw|exact Hne|discriminate|exact E].
    - apply (blf_space_run w AtStart); [exact Hw|exact Hne|discriminate|exact E]. }
  discriminate F.
Qed.

Lemma blf_suffix (a b : jsstring) :
  forall st, blf st (a ++ b) = true -> exists st', blf st' b = true.
Proof.
  induction a as [|c a IH]; intros st H; [now exists st|].
  simpl in H.
  destruct (isLineTerminator c); [|destruct (isWhiteSpace c)];
    destruct st; try discriminate; eapply IH; exact H.
Qed.

Lemma collapseNewlines_id (s : jsstring) :
  blf AtStart s = true -> collapseNewlines s = s.
Proof.
  intros H. unfold collapseNewlines, replaceAll.
  apply replace_go_no_match. intros a b p' ->.
  destruct (exec flags_g re_newlines p' b) as [res|] eqn:E; [|reflexivity].
  destruct (newlines_pattern p' b res E) as [w [rest [-> [Hne Hw]]]].
  destruct (blf_suffix a _ AtStart H) as [st' Hst].
  now rewrite (blf_pattern_false st' w rest Hne Hw) in Hst.
Qed.

(** ** Neighbours *)

Lemma no_adj_cons (bad : N -> N -> bool) (c : N) (s : jsstring) :
  no_adj bad (c :: s) = true -> no_adj bad s = true.
Proof.
  destruct s as [|d s]; [reflexivity|]. cbn [no_adj].
  intros H. now apply andb_prop in H as [_ H].
Qed.

Lemma no_adj_suffix (bad : N -> N -> bool) (a b : jsstring) :
  no_adj bad (a ++ b) = true -> no_adj bad b = true.
Proof.
  induction a as [|c a IH]; [easy|]. intros H.
  apply IH. now apply no_adj_cons in H.
Qed.

Lemma no_adj_prefix (bad : N -> N -> bool) (a b : jsstring) :
  no_adj bad (a ++ b) = true -> no_adj bad a = true.
Proof.
  induction a as [|c a IH]; [reflexivity|]. intros H.
  destruct a as [|d a]; [reflexivity|].
  cbn [app no_adj] in *. apply andb_prop in H as [H1 H2].
  rewrite H1. now apply IH.
Qed.

Lemma no_adj_head (bad : N -> N -> bool) (c : N) (s : jsstring) :
  no_adj bad (c :: s) = true -> starts (bad c) s = false.
Proof.
  destruct s as [|d s]; [reflexivity|]. cbn [no_adj starts].
  intros H. apply andb_prop in H as [H _]. now destruct (bad c d).
Qed.

Lemma no_adj_intro (bad : N -> N -> bool) (c : N) (s : jsstring) :
  starts (bad c) s = false -> no_adj bad s = true ->
  no_adj bad (c :: s) = true.
Proof.
  destruct s as [|d s]; [reflexivity|]. cbn [no_adj starts].
  intros -> ->. reflexivity.
Qed.

Lemma no_adj_last (bad : N -> N -> bool) (a : jsstring) (c : N) (s : jsstring) :
  no_adj bad (a ++ c :: s) = true -> starts (bad c) s = false.
Proof. intros H. now apply no_adj_head, (no_adj_suffix bad a). Qed.

Lemma takeWhile_eq_starts (p : N -> bool) (m s : jsstring) :
  takeWhile p (m ++ s) = m -> starts p s = false.
Proof.
  induction m as [|c m IH]; simpl.
  - destruct s as [|d s]; [reflexivity|]. simpl.
    destruct (p d); [discriminate|reflexivity].
  - destruct (p c); [|discriminate]. intros H. injection H as H. now apply IH.
Qed.

Lemma ex_run_inv (p : N -> bool) (prev : option N) (m s : jsstring) (cs : caps) :
  ex_run p prev (m ++ s) = Some (m, cs) ->
  m <> [] /\ forallb p m = true /\ starts p s = false.
Proof.
  unfold ex_run. intros H.
  pose proof (takeWhile_all p (m ++ s)) as A.
  destruct (takeWhile p (m ++ s)) as [|c t] eqn:E; [discriminate|].
  injection H as <- <-. split; [discriminate|]. split; [exact A|].
  exact (takeWhile_eq_starts p _ s E).
Qed.

Lemma ex_run_none (p : N -> bool) (prev : option N) (s : jsstring) :
  ex_run p prev s = None -> starts p s = false.
Proof.
  unfold ex_run. intros H. apply takeWhile_nil_iff.
  now destruct (takeWhile p s).
Qed.

(** ** Runs of blanks *)

Lemma blf_blank_run (m : jsstring) :
  forall st x, m <> [] -> forallb isBlank m = true ->
    blf st (m ++ x) = blf (after_blank st) x.
Proof.
  induction m as [|c m IH]; intros st x Hne Hm; [contradiction|].
  simpl in Hm. apply andb_prop in Hm as [Hc Hm].
  cbn [app blf]. rewrite (blank_not_lt c Hc), (blank_is_space c Hc).
  destruct m as [|d m].
  - now destruct st.
  - destruct st; rewrite IH by (try discriminate; exact Hm); reflexivity.
Qed.

Lemma blf_copy (c : N) (s o : jsstring) :
  (forall st, blf st s = true -> blf st o = true) ->
  forall st, blf st (c :: s) = true -> blf st (c :: o) = true.
Proof.
  intros IH st. simpl.
  destruct (isLineTerminator c); [|destruct (isWhiteSpace c)];
    destruct st; try discriminate; apply IH.
Qed.

Lemma collapseBlanks_spec (s : jsstring) :
  collapseBlanks s = replace_go (ex_run isBlank) (with_text [32%N]) 0 None s.
Proof. apply replace_go_ext, exec_blanks. Qed.

Lemma collapse_blf (prev : option N) (s o : jsstring) :
  Replaces (ex_run isBlank) (with_text [32%N]) prev s o ->
  forall st, blf st s = true -> blf st o = true.
Proof.
  intros H.
  induction H as [prev E|prev c s o E H IH|prev m s o cs E Hne H IH].
  - easy.
  - now apply blf_copy.
  - intros st Hb. destruct (ex_run_inv _ _ _ _ _ E) as [_ [Hm _]].
    rewrite (blf_blank_run m st s Hne Hm) in Hb.
    unfold with_text. change ([32%N] ++ o) with ([32%N] ++ o).
    rewrite (blf_blank_run [32%N] st o); [now apply IH|discriminate|reflexivity].
Qed.

Lemma collapse_out (prev : option N) (s o : jsstring) :
  Replaces (ex_run isBlank) (with_text [32%N]) prev s o ->
  forallb noTab o = true /\ no_adj bad_blanks o = true /\
  (starts isBlank o = true -> starts isBlank s = true).
Proof.
  intros H.
  induction H as [prev E|prev c s o E H [IH1 [IH2 IH3]]
                 |prev m s o cs E Hne H [IH1 [IH2 IH3]]].
  - now repeat split.
  - apply ex_run_none in E. simpl in E.
    split; [|split].
    + simpl. rewrite IH1, andb_true_r. unfold noTab.
      unfold isBlank in E. apply orb_false_elim in E as [_ E]. now rewrite E.
    + apply no_adj_intro; [|exact IH2].
      destruct o as [|d o]; [reflexivity|]. simpl. unfold bad_blanks.
      now rewrite E.
    + simpl. now rewrite E.
  - destruct (ex_run_inv _ _ _ _ _ E) as [_ [Hm Hs]].
    unfold with_text. split; [|split].
    + simpl. exact IH1.
    + apply no_adj_intro; [|exact IH2].
      destruct o as [|d o]; [reflexivity|]. simpl. unfold bad_blanks. simpl.
      destruct (isBlank d) eqn:Hd; [|reflexivity].
      simpl in IH3. rewrite (IH3 Hd) in Hs. discriminate Hs.
    + intros _. destruct m as [|c m]; [contradiction|].
      simpl in Hm. simpl. now apply andb_prop in Hm as [Hc _].
Qed.

(** ** Blanks after a newline *)

Lemma stripLineStart_spec (s : jsstring) :
  stripLineStart s = replace_go ex_nl_blanks (with_text [10%N]) 0 None s.
Proof. apply replace_go_ext, exec_nl_blanks. Qed.

Lemma ex_nl_blanks_inv (prev : option N) (m s : jsstring) (cs : caps) :
  ex_nl_blanks prev (m ++ s) = Some (m, cs) ->
  exists c b, m = c :: b /\ isNL c = true /\ b <> [] /\
              forallb isBlank b = true /\ starts isBlank s = false.
Proof.
  unfold ex_nl_blanks. intros H.
  destruct (m ++ s) as [|c x] eqn:Ex; [discriminate|].
  destruct (isNL c) eqn:Hc; [|discriminate].
  pose proof (takeWhile_all isBlank x) as A.
  destruct (takeWhile isBlank x) as [|b t] eqn:E; [discriminate|].
  injection H as <- <-. exists c, (b :: t).
  split; [reflexivity|]. split; [exact Hc|]. split; [discriminate|].
  split; [exact A|].
  simpl in Ex. injection Ex as Ex. rewrite <- Ex in E.
  exact (takeWhile_eq_starts isBlank (b :: t) s E).
Qed.

Lemma ex_nl_blanks_none (prev : option N) (c : N) (s : jsstring) :
  ex_nl_blanks prev (c :: s) = None -> isNL c = true ->
  starts isBlank s = false.
Proof.
  unfold ex_nl_blanks. intros H Hc. rewrite Hc in H.
  apply takeWhile_nil_iff. now destruct (takeWhile isBlank s).
Qed.

Lemma lineStart_head (prev : option N) (s o : jsstring) :
  Replaces ex_nl_blanks (with_text [10%N]) prev s o ->
  starts isBlank o = true -> starts isBlank s = true.
Proof.
  intros H. destruct H as [prev E|prev c s o E H|prev m s o cs E Hne H].
  - easy.
  - easy.
  - discriminate.
Qed.

Lemma lineStart_blf (prev : option N) (s o : jsstring) :
  Replaces ex_nl_blanks (with_text [10%N]) prev s o ->
  forall st, blf st s = true -> blf st o = true.
Proof.
  intros H.
  induction H as [prev E|prev c s o E H IH|prev m s o cs E Hne H IH].
  - easy.
  - now apply blf_copy.
  - intros st Hb.
    destruct (ex_nl_blanks_inv _ _ _ _ E) as [c [b [-> [Hc [Hb0 [Hb1 _]]]]]].
    unfold with_text. apply N.eqb_eq in Hc. subst c.
    change ((10%N :: b) ++ s) with (10%N :: b ++ s) in Hb.
    change ([10%N] ++ o) with (10%N :: o).
    change (blf st (10%N :: b ++ s)) with
      (match st with
       | InBlank => false
       | AtStart => blf InBlank (b ++ s)
       | InText => blf AtStart (b ++ s)
       end) in Hb.
    change (blf st (10%N :: o)) with
      (match st with
       | InBlank => false
       | AtStart => blf InBlank o
       | InText => blf AtStart o
       end).
    destruct st; [|discriminate|];
      rewrite (blf_blank_run b _ s Hb0 Hb1) in Hb; simpl in Hb.
    + now apply IH.
    + now apply blf_mono, IH.
Qed.

Lemma lineStart_keeps_blanks (prev : option N) (s o : jsstring) :
  Replaces ex_nl_blanks (with_text [10%N]) prev s o ->
  no_adj bad_blanks s = true -> no_adj bad_blanks o = true.
Proof.
  intros H.
  induction H as [prev E|prev c s o E H IH|prev m s o cs E Hne H IH];
    intros Hs.
  - reflexivity.
  - apply no_adj_intro; [|apply IH; now apply no_adj_cons in Hs].
    apply no_adj_head in Hs. pose proof (lineStart_head _ _ _ H) as Hh.
    destruct o as [|d o]; [reflexivity|]. simpl in *.
    unfold bad_blanks in *. destruct (isBlank c); [|reflexivity]. simpl in *.
    destruct (isBlank d); [|reflexivity]. specialize (Hh eq_refl).
    destruct s as [|e s]; [discriminate|]. simpl in *. now rewrite Hh in Hs.
  - unfold with_text. apply no_adj_intro; [|apply IH; now apply no_adj_suffix in Hs].
    now destruct o.
Qed.

Lemma lineStart_out (prev : option N) (s o : jsstring) :
  Replaces ex_nl_blanks (with_text [10%N]) prev s o ->
  no_adj bad_after_nl o = true.
Proof.
  intros H.
  induction H as [prev E|prev c s o E H IH|prev m s o cs E Hne H IH].
  - reflexivity.
  - apply no_adj_intro; [|exact IH].
    pose proof (lineStart_head _ _ _ H) as Hh.
    pose proof (ex_nl_blanks_none _ _ _ E) as En.
    destruct o as [|d o]; [reflexivity|]. cbn [starts] in *.
    unfold bad_after_nl.
    destruct (isNL c) eqn:Hc; [|reflexivity]. cbn [andb].
    destruct (isBlank d); [|reflexivity].
    rewrite (En eq_refl) in Hh. now specialize (Hh eq_refl).
  - destruct (ex_nl_blanks_inv _ _ _ _ E) as [c [b [-> [Hc [Hb0 [Hb1 Hs]]]]]].
    unfold with_text. apply no_adj_intro; [|exact IH].
    pose proof (lineStart_head _ _ _ H) as Hh.
    destruct o as [|d o]; [reflexivity|]. simpl in *. unfold bad_after_nl.
    simpl. destruct (isBlank d); [|reflexivity].
    rewrite Hs in Hh. now specialize (Hh eq_refl).
Qed.

(** ** Blanks before a newline *)

Lemma stripLineEnd_spec (s : jsstring) :
  stripLineEnd s = replace_go ex_blanks_nl (with_text [10%N]) 0 None s.
Proof. apply replace_go_ext, exec_blanks_nl. Qed.

Lemma ex_blanks_nl_inv (prev : option N) (m s : jsstring) (cs : caps) :
  ex_blanks_nl prev (m ++ s) = Some (m, cs) ->
  exists b c, m = b ++ [c] /\ b <> [] /\ forallb isBlank b = true /\
              isNL c = true.
Proof.
  unfold ex_blanks_nl. intros H.
  pose proof (takeWhile_all isBlank (m ++ s)) as A.
  destruct (takeWhile isBlank (m ++ s)) as [|b t] eqn:E; [discriminate|].
  destruct (dropWhile isBlank (m ++ s)) as [|c r]; [discriminate|].
  destruct (isNL c) eqn:Hc; [|discriminate].
  injection H as <- <-. exists (b :: t), c.
  split; [reflexivity|]. split; [discriminate|]. now split.
Qed.

Lemma ex_blanks_nl_none (prev : option N) (c : N) (s : jsstring) :
  ex_blanks_nl prev (c :: s) = None -> isBlank c = true ->
  starts isNL (dropWhile isBlank s) = false.
Proof.
  unfold ex_blanks_nl. simpl. intros H Hc. rewrite Hc in H.
  destruct (dropWhile isBlank s) as [|d r]; [reflexivity|].
  simpl. now destruct (isNL d).
Qed.

Lemma dropWhile_blank_run (b : jsstring) (c : N) (s : jsstring) :
  forallb isBlank b = true -> isBlank c = false ->
  dropWhile isBlank (b ++ c :: s) = c :: s.
Proof.
  intros Hb Hc. induction b as [|d b IH]; simpl.
  - now rewrite Hc.
  - simpl in Hb. apply andb_prop in Hb as [Hd Hb]. rewrite Hd. now apply IH.
Qed.

Lemma lineEnd_head (prev : option N) (s o : jsstring) :
  Replaces ex_blanks_nl (with_text [10%N]) prev s o ->
  (starts isBlank o = true -> starts isBlank s = true) /\
  (starts isNL o = true -> starts isNL (dropWhile isBlank s) = true).
Proof.
  intros H. destruct H as [prev E|prev c s o E H|prev m s o cs E Hne H].
  - easy.
  - split; [easy|]. simpl. intros Hc. now rewrite (nl_not_blank c Hc).
  - destruct (ex_blanks_nl_inv _ _ _ _ E) as [b [c [-> [Hb0 [Hb1 Hc]]]]].
    split; [discriminate|]. intros _. rewrite <- app_assoc. simpl.
    rewrite (dropWhile_blank_run b c s Hb1 (nl_not_blank c Hc)). exact Hc.
Qed.

Lemma lineEnd_blf (prev : option N) (s o : jsstring) :
  Replaces ex_blanks_nl (with_text [10%N]) prev s o ->
  forall st, blf st s = true -> blf st o = true.
Proof.
  intros H.
  induction H as [prev E|prev c s o E H IH|prev m s o cs E Hne H IH].
  - easy.
  - now apply blf_copy.
  - intros st Hb.
    destruct (ex_blanks_nl_inv _ _ _ _ E) as [b [c [-> [Hb0 [Hb1 Hc]]]]].
    unfold with_text. apply N.eqb_eq in Hc. subst c.
    rewrite <- app_assoc in Hb. rewrite (blf_blank_run b st _ Hb0 Hb1) in Hb.
    change ([10%N] ++ s) with (10%N :: s) in Hb.
    change ([10%N] ++ o) with (10%N :: o).
    destruct st; try discriminate Hb.
    change (blf AtStart s = true) in Hb.
    change (blf AtStart o = true). now apply IH.
Qed.

Lemma lineEnd_keeps (prev : option N) (s o : jsstring) :
  Replaces ex_blanks_nl (with_text [10%N]) prev s o ->
  (no_adj bad_blanks s = true -> no_adj bad_blanks o = true) /\
  (no_adj bad_after_nl s = true -> no_adj bad_after_nl o = true).
Proof.
  intros H.
  induction H as [prev E|prev c s o E H [IH1 IH2]|prev m s o cs E Hne H [IH1 IH2]].
  - easy.
  - destruct (lineEnd_head _ _ _ H) as [Hh _]. split; intros Hs.
    + apply no_adj_intro; [|apply IH1; now apply no_adj_cons in Hs].
      apply no_adj_head in Hs.
      destruct o as [|d o]; [reflexivity|]. simpl in *.
      unfold bad_blanks in *. destruct (isBlank c); [|reflexivity]. simpl in *.
      destruct (isBlank d); [|reflexivity]. specialize (Hh eq_refl).
      destruct s as [|e s]; [discriminate|]. simpl in *. now rewrite Hh in Hs.
    + apply no_adj_intro; [|apply IH2; now apply no_adj_cons in Hs].
      apply no_adj_head in Hs.
      destruct o as [|d o]; [reflexivity|]. simpl in *.
      unfold bad_after_nl in *. destruct (isNL c); [|reflexivity]. simpl in *.
      destruct (isBlank d); [|reflexivity]. specialize (Hh eq_refl).
      destruct s as [|e s]; [discriminate|]. simpl in *. now rewrite Hh in Hs.
  - destruct (ex_blanks_nl_inv _ _ _ _ E) as [b [c [-> [Hb0 [Hb1 Hc]]]]].
    destruct (lineEnd_head _ _ _ H) as [Hh _].
    unfold with_text. split; intros Hs.
    + apply no_adj_intro; [|apply IH1; now apply no_adj_suffix in Hs].
      now destruct o.
    + apply no_adj_intro; [|apply IH2; now apply no_adj_suffix in Hs].
      rewrite <- app_assoc in Hs. apply no_adj_last in Hs.
      destruct o as [|d o]; [reflexivity|]. simpl in *. unfold bad_after_nl.
      simpl. destruct (isBlank d); [|reflexivity]. specialize (Hh eq_refl).
      destruct s as [|e s]; [discriminate|]. simpl in *.
      unfold bad_after_nl in Hs. now rewrite Hc, Hh in Hs.
Qed.

Lemma lineEnd_out (prev : option N) (s o : jsstring) :
  Replaces ex_blanks_nl (with_text [10%N]) prev s o ->
  no_adj bad_before_nl o = true.
Proof.
  intros H.
  induction H as [prev E|prev c s o E H IH|prev m s o cs E Hne H IH].
  - reflexivity.
  - apply no_adj_intro; [|exact IH].
    destruct (lineEnd_head _ _ _ H) as [_ Hh].
    pose proof (ex_blanks_nl_none _ _ _ E) as En.
    destruct o as [|d o]; [reflexivity|]. cbn [starts] in *.
    unfold bad_before_nl.
    destruct (isBlank c) eqn:Hc; [|reflexivity]. cbn [andb].
    destruct (isNL d); [|reflexivity].
    rewrite (En eq_refl) in Hh. now specialize (Hh eq_refl).
  - unfold with_text. apply no_adj_intro; [|exact IH]. now destruct o.
Qed.

(** ** Newlines at the two ends *)

Lemma skipn_takeWhile (p : N -> bool) (s : jsstring) :
  skipn (length (takeWhile p s)) s = dropWhile p s.
Proof.
  induction s as [|c s IH]; simpl; [reflexivity|].
  destruct (p c); simpl; [exact IH|reflexivity].
Qed.

Lemma lastopt_some (a : jsstring) (c : N) :
  exists d, lastopt a (Some c) = Some d.
Proof.
  revert c. induction a as [|x a IH]; intros c; [now exists c|].
  rewrite lastopt_cons. apply IH.
Qed.

Lemma stripLeadingNewlines_spec (s : jsstring) :
  stripLeadingNewlines s = dropWhile isNL s.
Proof.
  unfold stripLeadingNewlines, replaceFirst.
  rewrite (replace_first_go_ext _ ex_leading_nl delete exec_leading_nl).
  destruct s as [|c s]; [reflexivity|].
  cbn [replace_first_go]. unfold ex_leading_nl at 1. unfold ex_run.
  pose proof (skipn_takeWhile isNL (c :: s)) as Sk.
  destruct (takeWhile isNL (c :: s)) as [|b t] eqn:E.
  - apply takeWhile_nil_iff in E. cbn [starts] in E. cbn [dropWhile].
    rewrite E. f_equal.
    apply replace_first_go_no_match. intros a b _.
    destruct (lastopt_some a c) as [d ->]. reflexivity.
  - unfold delete, with_text. exact Sk.
Qed.

Lemma stripTrailingNewlines_spec (s : jsstring) :
  exists t, s = stripTrailingNewlines s ++ t /\ forallb isNL t = true.
Proof.
  unfold stripTrailingNewlines, replaceFirst.
  rewrite (replace_first_go_ext _ ex_trailing_nl delete exec_trailing_nl).
  generalize (@None N). induction s as [|c s IH]; intros prev.
  - now exists [].
  - cbn [replace_first_go]. unfold ex_trailing_nl at 1.
    pose proof (takeWhile_dropWhile isNL (c :: s)) as TD.
    pose proof (takeWhile_all isNL (c :: s)) as A.
    pose proof (skipn_takeWhile isNL (c :: s)) as Sk.
    destruct (takeWhile isNL (c :: s)) as [|b t] eqn:E.
    + destruct (IH (Some c)) as [u [Hu Hn]]. exists u. split; [|exact Hn].
      simpl. now f_equal.
    + destruct (dropWhile isNL (c :: s)) as [|d r] eqn:D.
      * exists (c :: s). unfold delete, with_text. rewrite Sk. split; [easy|].
        rewrite <- TD, app_nil_r. exact A.
      * destruct (IH (Some c)) as [u [Hu Hn]]. exists u. split; [|exact Hn].
        simpl. now f_equal.
Qed.

Lemma blf_drop_nl (s : jsstring) :
  blf AtStart s = true -> blf AtStart (dropWhile isNL s) = true.
Proof.
  destruct s as [|c s]; [easy|]. cbn [dropWhile].
  destruct (isNL c) eqn:Hc; [|easy].
  simpl. rewrite (nl_is_lt c Hc). intros H.
  destruct s as [|d s]; [discriminate|]. cbn [dropWhile].
  destruct (isNL d) eqn:Hd.
  - simpl in H. now rewrite (nl_is_lt d Hd) in H.
  - now apply blf_mono.
Qed.

Lemma blf_before_lt (r : jsstring) :
  forall st c x, isLineTerminator c = true ->
    blf st (r ++ c :: x) = true -> blf st r = true.
Proof.
  induction r as [|d r IH]; intros st c x Hc H.
  - simpl in H. rewrite Hc in H. now destruct st.
  - simpl in *.
    destruct (isLineTerminator d); [|destruct (isWhiteSpace d)];
      destruct st; try discriminate; eapply IH; eauto.
Qed.

Lemma blf_drop_tail (r t : jsstring) (st : lstate) :
  forallb isNL t = true -> blf st (r ++ t) = true -> blf st r = true.
Proof.
  destruct t as [|c t]; [now rewrite app_nil_r|].
  simpl. intros Hc. apply andb_prop in Hc as [Hc _].
  apply blf_before_lt. now apply nl_is_lt.
Qed.

Lemma blf_trimStart (s : jsstring) :
  forall st, st <> InText -> blf st s = true ->
    blf AtStart (trimStart s) = true.
Proof.
  induction s as [|c s IH]; intros st Hst H; [reflexivity|].
  simpl in *. destruct (isWhiteSpace c) eqn:Hw.
  - destruct (isLineTerminator c);
      destruct st; try discriminate; try contradiction;
      apply (IH InBlank); try discriminate; exact H.
  - simpl. rewrite Hw.
    destruct (isLineTerminator c) eqn:Hl.
    + now rewrite (lt_is_space c Hl) in Hw.
    + now destruct st.
Qed.

Lemma trimEnd_nil (s : jsstring) :
  trimEnd s = [] -> forallb isWhiteSpace s = true.
Proof.
  induction s as [|c s IH]; [reflexivity|]. simpl.
  destruct (trimEnd s); [|discriminate].
  destruct (isWhiteSpace c); [|discriminate]. intros _. now apply IH.
Qed.

Lemma blf_all_space (s : jsstring) :
  forall st, forallb isWhiteSpace s = true -> s <> [] -> st <> InText ->
    blf st s = false.
Proof.
  induction s as [|c s IH]; intros st Hs Hne Hst; [contradiction|].
  simpl in Hs. apply andb_prop in Hs as [Hc Hs]. simpl. rewrite Hc.
  destruct s as [|d s].
  - destruct (isLineTerminator c); destruct st; try reflexivity;
      contradiction.
  - destruct (isLineTerminator c); destruct st; try reflexivity;
      try contradiction; apply IH; try discriminate; exact Hs.
Qed.

Lemma blf_trimEnd (s : jsstring) :
  forall st, blf st s = true -> blf st (trimEnd s) = true.
Proof.
  induction s as [|c s IH]; intros st H; [exact H|].
  cbn [trimEnd]. destruct (trimEnd s) as [|d t] eqn:E.
  - pose proof (trimEnd_nil s E) as Hs.
    destruct (isWhiteSpace c) eqn:Hc.
    + destruct st; try reflexivity.
      rewrite (blf_all_space (c :: s) InBlank) in H; try discriminate.
      simpl. now rewrite Hc.
    + simpl. rewrite Hc.
      destruct (isLineTerminator c) eqn:Hl; [|reflexivity].
      now rewrite (lt_is_space c Hl) in Hc.
  - revert H. apply blf_copy. intros st'. apply IH.
Qed.

Lemma trimStart_suffix (s : jsstring) : exists a, s = a ++ trimStart s.
Proof.
  induction s as [|c s [a IH]]; [now exists []|]. simpl.
  destruct (isWhiteSpace c); [|now exists []].
  exists (c :: a). simpl. now f_equal.
Qed.

Lemma trimEnd_prefix (s : jsstring) : exists b, s = trimEnd s ++ b.
Proof.
  induction s as [|c s [b IH]]; [now exists []|]. simpl.
  destruct (trimEnd s) as [|d t].
  - destruct (isWhiteSpace c); [now exists (c :: s)|].
    exists b. simpl. now f_equal.
  - exists b. simpl. now f_equal.
Qed.

(** ** What a tidied text looks like, and why it stays as it is *)

Lemma forallb_suffix (P : N -> bool) (a b : jsstring) :
  forallb P (a ++ b) = true -> forallb P b = true.
Proof. rewrite forallb_app. intros H. now apply andb_prop in H as [_ H]. Qed.

Lemma forallb_prefix (P : N -> bool) (a b : jsstring) :
  forallb P (a ++ b) = true -> forallb P a = true.
Proof. rewrite forallb_app. intros H. now apply andb_prop in H as [H _]. Qed.

Lemma tidyWhitespace_tidied (z : jsstring) : tidied (tidyWhitespace z).
Proof.
  unfold tidyWhitespace.
  pose proof (removeBlankLines_blf z) as B1.
  rewrite (collapseNewlines_id _ B1).
  set (w1 := removeBlankLines z) in *.
  pose proof (replaces_total (ex_run isBlank) (with_text [32%N]) (ex_run_sound isBlank) w1 None) as R3.
  rewrite <- collapseBlanks_spec in R3.
  pose proof (collapse_blf _ _ _ R3 AtStart B1) as B3.
  destruct (collapse_out _ _ _ R3) as [T3 [A3 _]].
  set (w3 := collapseBlanks w1) in *.
  pose proof (replaces_total ex_nl_blanks (with_text [10%N]) ex_nl_blanks_sound w3 None) as R4.
  rewrite <- stripLineStart_spec in R4.
  pose proof (lineStart_blf _ _ _ R4 AtStart B3) as B4.
  pose proof (lineStart_keeps_blanks _ _ _ R4 A3) as A4.
  pose proof (lineStart_out _ _ _ R4) as N4.
  assert (T4 : forallb noTab (stripLineStart w3) = true).
  { apply replace_go_forall; [reflexivity|exact T3]. }
  set (w4 := stripLineStart w3) in *.
  pose proof (replaces_total ex_blanks_nl (with_text [10%N]) ex_blanks_nl_sound w4 None) as R5.
  rewrite <- stripLineEnd_spec in R5.
  pose proof (lineEnd_blf _ _ _ R5 AtStart B4) as B5.
  destruct (lineEnd_keeps _ _ _ R5) as [K1 K2].
  specialize (K1 A4). specialize (K2 N4).
  pose proof (lineEnd_out _ _ _ R5) as M5.
  assert (T5 : forallb noTab (stripLineEnd w4) = true).
  { apply replace_go_forall; [reflexivity|exact T4]. }
  set (w5 := stripLineEnd w4) in *.
  rewrite stripLeadingNewlines_spec.
  pose proof (takeWhile_dropWhile isNL w5) as TD.
  pose proof (blf_drop_nl w5 B5) as B6.
  rewrite <- TD in T5, K1, K2, M5.
  apply forallb_suffix in T5. apply no_adj_suffix in K1, K2, M5.
  set (w6 := dropWhile isNL w5) in *.
  destruct (stripTrailingNewlines_spec w6) as [t [Ht Hn]].
  set (w7 := stripTrailingNewlines w6) in *.
  rewrite Ht in B6, T5, K1, K2, M5.
  apply (blf_drop_tail w7 t AtStart Hn) in B6.
  apply forallb_prefix in T5. apply no_adj_prefix in K1, K2, M5.
  unfold tidied.
  split; [|split; [|split; [|split; [|split]]]].
  - unfold trim. apply blf_trimEnd. apply (blf_trimStart w7 AtStart);
      [discriminate|exact B6].
  - now apply trim_forall.
  - unfold trim. destruct (trimStart_suffix w7) as [a Ha].
    destruct (trimEnd_prefix (trimStart w7)) as [b Hb].
    rewrite Ha in K1. apply no_adj_suffix in K1. rewrite Hb in K1.
    now apply no_adj_prefix in K1.
  - unfold trim. destruct (trimStart_suffix w7) as [a Ha].
    destruct (trimEnd_prefix (trimStart w7)) as [b Hb].
    rewrite Ha in K2. apply no_adj_suffix in K2. rewrite Hb in K2.
    now apply no_adj_prefix in K2.
  - unfold trim. destruct (trimStart_suffix w7) as [a Ha].
    destruct (trimEnd_prefix (trimStart w7)) as [b Hb].
    rewrite Ha in M5. apply no_adj_suffix in M5. rewrite Hb in M5.
    now apply no_adj_prefix in M5.
  - apply trim_idem.
Qed.

Lemma collapse_id (w : jsstring) :
  forall prev, forallb noTab w = true -> no_adj bad_blanks w = true ->
    replace_go (ex_run isBlank) (with_text [32%N]) 0 prev w = w.
Proof.
  induction w as [|c w IH]; intros prev HT HA; [reflexivity|].
  simpl in HT. apply andb_prop in HT as [Hc HT].
  pose proof (no_adj_head _ _ _ HA) as Hh. apply no_adj_cons in HA.
  cbn [replace_go]. unfold ex_run at 1. cbn [takeWhile].
  destruct (isBlank c) eqn:Hb.
  - assert (Hw : takeWhile isBlank w = []).
    { apply takeWhile_nil_iff. destruct w as [|d w]; [reflexivity|].
      simpl in *. unfold bad_blanks in Hh. now rewrite Hb in Hh. }
    rewrite Hw. change (with_text [32%N] [c] []) with [32%N].
    cbn [length app].
    rewrite (IH (Some c) HT HA). f_equal.
    unfold isBlank in Hb. unfold noTab in Hc.
    apply orb_prop in Hb as [Hb|Hb]; apply N.eqb_eq in Hb; subst c;
      [reflexivity|discriminate Hc].
  - now rewrite (IH (Some c) HT HA).
Qed.

Lemma lineStart_id (w : jsstring) :
  no_adj bad_after_nl w = true -> stripLineStart w = w.
Proof.
  intros HA. rewrite stripLineStart_spec. apply replace_go_no_match.
  intros a b p' ->. apply no_adj_suffix in HA.
  destruct b as [|c b]; [reflexivity|]. unfold ex_nl_blanks.
  destruct (isNL c) eqn:Hc; [|reflexivity].
  apply no_adj_head in HA.
  assert (Hw : takeWhile isBlank b = []).
  { apply takeWhile_nil_iff. destruct b as [|d b]; [reflexivity|].
    simpl in *. unfold bad_after_nl in HA. now rewrite Hc in HA. }
  now rewrite Hw.
Qed.

Lemma no_adj_blank_run (m : jsstring) (c : N) (r : jsstring) :
  m <> [] -> forallb isBlank m = true -> isNL c = true ->
  no_adj bad_before_nl (m ++ c :: r) = false.
Proof.
  intros Hne Hm Hc. induction m as [|x m IH]; [contradiction|].
  simpl in Hm. apply andb_prop in Hm as [Hx Hm].
  destruct m as [|y m].
  - simpl. unfold bad_before_nl. now rewrite Hx, Hc.
  - assert (F : no_adj bad_before_nl ((y :: m) ++ c :: r) = false)
      by (apply IH; [discriminate|exact Hm]).
    change (no_adj bad_before_nl ((x :: y :: m) ++ c :: r)) with
      (negb (bad_before_nl x y) &&
       no_adj bad_before_nl ((y :: m) ++ c :: r)).
    rewrite F. apply andb_false_r.
Qed.

Lemma lineEnd_id (w : jsstring) :
  no_adj bad_before_nl w = true -> stripLineEnd w = w.
Proof.
  intros HA. rewrite stripLineEnd_spec. apply replace_go_no_match.
  intros a b p' ->. apply no_adj_suffix in HA. unfold ex_blanks_nl.
  pose proof (takeWhile_dropWhile isBlank b) as TD.
  pose proof (takeWhile_all isBlank b) as A.
  destruct (takeWhile isBlank b) as [|x t] eqn:E; [reflexivity|].
  destruct (dropWhile isBlank b) as [|c r]; [reflexivity|].
  destruct (isNL c) eqn:Hc; [|reflexivity].
  rewrite <- TD in HA.
  rewrite (no_adj_blank_run (x :: t) c r) in HA; [discriminate| |exact A|exact Hc].
  discriminate.
Qed.

Lemma leading_id (w : jsstring) :
  starts isWhiteSpace w = false -> stripLeadingNewlines w = w.
Proof.
  intros H. rewrite stripLeadingNewlines_spec.
  destruct w as [|c w]; [reflexivity|]. simpl in *.
  destruct (isNL c) eqn:Hc; [|reflexivity].
  now rewrite (nl_is_space c Hc) in H.
Qed.

Lemma forallb_nl_space (t : jsstring) :
  forallb isNL t = true -> forallb isWhiteSpace t = true.
Proof.
  induction t as [|c t IH]; [reflexivity|]. simpl. intros H.
  apply andb_prop in H as [Hc H]. now rewrite (nl_is_space c Hc), IH.
Qed.

Lemma trailing_id (w : jsstring) :
  trimEnd w = w -> stripTrailingNewlines w = w.
Proof.
  intros H. destruct (stripTrailingNewlines_spec w) as [t [Ht Hn]].
  pose proof (trimmed_no_space_tail w _ t H Ht (forallb_nl_space t Hn)) as E.
  subst t. now rewrite app_nil_r in Ht.
Qed.

Lemma trim_fixed (w : jsstring) :
  trim w = w -> starts isWhiteSpace w = false /\ trimEnd w = w.
Proof.
  intros H. split.
  - rewrite <- H. unfold trim. apply trimEnd_starts, trimStart_starts.
  - rewrite <- H at 1. unfold trim. rewrite trimEnd_idem. exact H.
Qed.

(** A tidied text is a fixed point of the whitespace steps. *)
Lemma tidied_fixed (w : jsstring) : tidied w -> tidyWhitespace w = w.
Proof.
  intros [B [T [A1 [A2 [A3 Tr]]]]].
  destruct (trim_fixed w Tr) as [S E].
  unfold tidyWhitespace.
  rewrite (removeBlankLines_id w B), (collapseNewlines_id w B).
  rewrite collapseBlanks_spec, (collapse_id w None T A1).
  rewrite (lineStart_id w A2), (lineEnd_id w A3).
  rewrite (leading_id w S), (trailing_id w E). exact Tr.
Qed.

Lemma tidyWhitespace_idempotent (z : jsstring) :
  tidyWhitespace (tidyWhitespace z) = tidyWhitespace z.
Proof. apply tidied_fixed, tidyWhitespace_tidied. Qed.

(** ** Zero-width code units *)

Lemma replace_chr (c : N) (s : jsstring) :
  forall prev,
    replace_go (exec flags_g (chr c)) delete 0 prev s =
    filter (fun x => negb (N.eqb x c)) s.
Proof.
  induction s as [|x s IH]; intros prev; [reflexivity|].
  cbn [replace_go filter]. unfold exec at 1, chr at 1. cbn [rmatch].
  unfold atom_ok. cbn [existsb citem_ok]. rewrite !canon_g, orb_false_r.
  rewrite (N.eqb_sym c x).
  destruct (N.eqb x c); cbn [negb length]; unfold delete, with_text;
    simpl app; now rewrite IH.
Qed.

Lemma filter_forallb (P : N -> bool) (s : jsstring) :
  forallb P s = true -> filter P s = s.
Proof.
  induction s as [|c s IH]; [reflexivity|]. simpl. intros H.
  apply andb_prop in H as [Hc H]. now rewrite Hc, IH.
Qed.

Lemma forallb_filter_weak (P Q : N -> bool) (s : jsstring) :
  forallb P s = true -> forallb P (filter Q s) = true.
Proof.
  induction s as [|c s IH]; [reflexivity|]. simpl. intros H.
  apply andb_prop in H as [Hc H].
  destruct (Q c); simpl; [rewrite Hc|]; now apply IH.
Qed.

Lemma forallb_filter_self (Q : N -> bool) (s : jsstring) :
  forallb Q (filter Q s) = true.
Proof.
  induction s as [|c s IH]; [reflexivity|]. simpl.
  destruct (Q c) eqn:E; simpl; [rewrite E|]; exact IH.
Qed.

Lemma stripZeroWidth_spec (s : jsstring) :
  stripZeroWidth s =
  filter (fun x => negb (N.eqb x 847))
    (filter (fun x => negb (N.eqb x 65279))
      (filter (fun x => negb (N.eqb x 8205))
        (filter (fun x => negb (N.eqb x 8204))
          (filter (fun x => negb (N.eqb x 8203)) s)))).
Proof.
  unfold stripZeroWidth, zeroWidth, replaceAll. cbn [fold_left].
  now rewrite !replace_chr.
Qed.

Lemma noZeroWidth_split (c : N) :
  noZeroWidth c =
  negb (N.eqb c 8203) && negb (N.eqb c 8204) && negb (N.eqb c 8205) &&
  negb (N.eqb c 65279) && negb (N.eqb c 847).
Proof.
  unfold noZeroWidth, zeroWidth. cbn [existsb].
  rewrite orb_false_r, !negb_orb, !andb_assoc. reflexivity.
Qed.

Lemma forallb_and (P Q : N -> bool) (s : jsstring) :
  forallb (fun c => P c && Q c) s = forallb P s && forallb Q s.
Proof.
  induction s as [|c s IH]; [reflexivity|]. simpl. rewrite IH.
  destruct (P c), (Q c), (forallb P s), (forallb Q s); reflexivity.
Qed.

Lemma forallb_ext_eq (P Q : N -> bool) (s : jsstring) :
  (forall c, P c = Q c) -> forallb P s = forallb Q s.
Proof.
  intros H. induction s as [|c s IH]; [reflexivity|]. simpl.
  now rewrite H, IH.
Qed.

Lemma stripZeroWidth_clean (s : jsstring) :
  forallb noZeroWidth (stripZeroWidth s) = true.
Proof.
  rewrite stripZeroWidth_spec.
  rewrite (forallb_ext_eq _ _ _ noZeroWidth_split).
  rewrite !forallb_and.
  repeat (apply andb_true_intro; split);
    repeat first [apply forallb_filter_self
                 |apply forallb_filter_weak].
Qed.

Lemma stripZeroWidth_id (s : jsstring) :
  forallb noZeroWidth s = true -> stripZeroWidth s = s.
Proof.
  intros H. rewrite stripZeroWidth_spec.
  rewrite (forallb_ext_eq _ _ _ noZeroWidth_split) in H.
  rewrite !forallb_and in H.
  apply andb_prop in H as [H H5]. apply andb_prop in H as [H H4].
  apply andb_prop in H as [H H3]. apply andb_prop in H as [H1 H2].
  rewrite (filter_forallb _ s H1), (filter_forallb _ s H2).
  rewrite (filter_forallb _ s H3), (filter_forallb _ s H4).
  exact (filter_forallb _ s H5).
Qed.

Lemma tidyWhitespace_forall (P : N -> bool) (s : jsstring) :
  P 10%N = true -> P 32%N = true ->
  forallb P s = true -> forallb P (tidyWhitespace s) = true.
Proof.
  intros H10 H32 H. unfold tidyWhitespace.
  apply trim_forall.
  unfold stripTrailingNewlines, stripLeadingNewlines, replaceFirst.
  do 2 (apply replace_first_go_forall; [reflexivity|]).
  unfold stripLineEnd, stripLineStart, collapseBlanks, collapseNewlines,
    removeBlankLines, replaceAll.
  repeat (apply replace_go_forall;
          [intros; unfold with_text, delete; simpl;
           rewrite ?H10, ?H32; reflexivity|]).
  exact H.
Qed.

(** C2, counterexample: on [[[http://x]http:// b]] the first pass
    removes the inner bracketed link and leaves [[http:// b]], which is
    itself a bracketed link; the second pass removes it and returns the
    empty string. *)
Lemma C2_inner_link_breaks_idempotence : ~ normalize_idempotent.
Proof.
  intros H. specialize (H (str "[[http://x]http:// b]")).
  vm_compute in H. discriminate H.
Qed.

(** The same happens when a zero-width code unit sits inside the scheme:
    [a htt<U+200B>p://x.com b] becomes [a http://x.com b], and only a
    second pass removes the link. *)
Lemma zero_width_exposes_link :
  let x := str "a htt" ++ [8203%N] ++ str "p://x.com b" in
  cleanEmailText x = str "a http://x.com b" /\
  cleanEmailText (cleanEmailText x) = str "a b".
Proof. split; vm_compute; reflexivity. Qed.

(** C2, amended: the normalizer is idempotent on every input whose
    normalized text holds nothing that the link steps would still remove
    (no bracketed link, no bare link): there a second pass changes
    nothing.  In particular the whitespace part of the pipeline is
    idempotent on every input. *)
Theorem C2_idempotent_when_no_link_remains (x : jsstring) :
  removeUrls (cleanEmailText x) = cleanEmailText x ->
  cleanEmailText (cleanEmailText x) = cleanEmailText x.
Proof.
  destruct x as [|c x]; [reflexivity|].
  cbn [cleanEmailText].
  set (y := tidyWhitespace (beforeWhitespace (c :: x))).
  intros Hu.
  assert (Ty : tidied y) by apply tidyWhitespace_tidied.
  assert (Zy : forallb noZeroWidth y = true).
  { apply tidyWhitespace_forall; [reflexivity|reflexivity|].
    apply stripZeroWidth_clean. }
  destruct y as [|d y'] eqn:Ey; [reflexivity|].
  cbn [cleanEmailText]. unfold beforeWhitespace.
  destruct Ty as [B [T [A1 [A2 [A3 Tr]]]]].
  rewrite Tr, Hu, (stripZeroWidth_id _ Zy).
  apply tidied_fixed.
  exact (conj B (conj T (conj A1 (conj A2 (conj A3 Tr))))).
Qed.

Lemma C2_idempotent_when_no_link_remains_witness :
  cleanEmailText (cleanEmailText (str "See http://x.com for more")) =
  cleanEmailText (str "See http://x.com for more").
Proof.
  apply (C2_idempotent_when_no_link_remains (str "See http://x.com for more")).
  vm_compute. reflexivity.
Defined.

(** * Links in [cleanEmailText] *)

(** Closed tests of a code unit against an atom are decided by
    computation. *)
Ltac eval_atoms :=
  repeat match goal with
  | |- context [atom_ok ?f ?a ?c] =>
      let v := eval vm_compute in (atom_ok f a c) in
      match v with
      | true => change (atom_ok f a c) with true
      | false => change (atom_ok f a c) with false
      end
  end.

Lemma replace_go_match (ex : matcher) (rp : replacer) (prev : option N)
    (m s : jsstring) (cs : caps) :
  ex prev (m ++ s) = Some (m, cs) -> m <> [] ->
  replace_go ex rp 0 prev (m ++ s) =
  rp m cs ++ replace_go ex rp 0 (lastopt m prev) s.
Proof.
  intros E Hne. destruct m as [|c m]; [contradiction|].
  cbn [app replace_go] in *. rewrite E. cbn [length].
  now rewrite replace_go_skip.
Qed.

Lemma replace_go_copy (ex : matcher) (rp : replacer) (prev : option N)
    (c : N) (s : jsstring) :
  ex prev (c :: s) = None ->
  replace_go ex rp 0 prev (c :: s) = c :: replace_go ex rp 0 (Some c) s.
Proof. intros E. cbn [replace_go]. now rewrite E. Qed.


Lemma takeWhile_forallb (p : N -> bool) (u : jsstring) :
  forallb p u = true -> takeWhile p u = u /\ dropWhile p u = [].
Proof.
  intros H. rewrite <- (app_nil_r u) at 1 3.
  now apply takeWhile_app.
Qed.


Lemma quant_run_commit (p : N -> bool) (u r : jsstring) (lo : nat)
    (prev : option N) (cs : caps) (k : cont) :
  forallb p u = true -> starts p r = false -> (lo <= length u)%nat ->
  (forall m p' c s' cs', p c = true -> k m p' (c :: s') cs' = None) ->
  quant p true lo None prev (u ++ r) cs k = k u (lastopt u prev) r cs.
Proof.
  intros Hu Hr Hl Hk. rewrite quant_greedy_commit by exact Hk.
  destruct (takeWhile_app p u r Hu Hr) as [-> ->].
  apply Nat.leb_le in Hl. now rewrite Hl.
Qed.

Lemma quant_skip (p : N -> bool) (g : bool) (hi : option nat)
    (prev : option N) (c : N) (s : jsstring) (cs : caps) (k : cont) :
  p c = false ->
  quant p g 0 hi prev (c :: s) cs k = k [] prev (c :: s) cs.
Proof.
  intros H. cbn [quant]. rewrite H. cbn [andb].
  destruct g; [reflexivity|]. now destruct (k [] prev (c :: s) cs).
Qed.

















Lemma forallb_weaken (P Q : N -> bool) (s : jsstring) :
  (forall c, P c = true -> Q c = true) ->
  forallb P s = true -> forallb Q s = true.
Proof.
  intros H. induction s as [|c s IH]; [reflexivity|]. simpl. intros Hs.
  apply andb_prop in Hs as [Hc Hs]. now rewrite (H c Hc), IH.
Qed.




(** * Links and images in [stripHtmlTags] *)

Lemma rmatch_first_fail (fl : flags) (r : regex) :
  forall (a : atom) (prev : option N) (c : N) (s : jsstring) (cs : caps)
         (k : cont),
    first_atom r = Some a -> atom_ok fl a c = false ->
    rmatch fl r prev (c :: s) cs k = None.
Proof.
  induction r as [|a'| | |r1 IH1 r2 IH2|r1 IH1 r2 IH2|a' lo hi g|n r1 IH1];
    intros a prev c s cs k Hf Ha; cbn [first_atom] in Hf; try discriminate.
  - injection Hf as ->. cbn [rmatch]. now rewrite Ha.
  - cbn [rmatch]. now apply (IH1 a).
  - destruct lo as [|lo]; [discriminate|]. injection Hf as ->.
    cbn [rmatch quant]. rewrite Ha. cbn [andb]. now destruct g.
  - cbn [rmatch]. now apply (IH1 a).
Qed.

Lemma rmatch_first_end (fl : flags) (r : regex) :
  forall (a : atom) (prev : option N) (cs : caps) (k : cont),
    first_atom r = Some a -> rmatch fl r prev [] cs k = None.
Proof.
  induction r as [|a'| | |r1 IH1 r2 IH2|r1 IH1 r2 IH2|a' lo hi g|n r1 IH1];
    intros a prev cs k Hf; cbn [first_atom] in Hf; try discriminate.
  - reflexivity.
  - cbn [rmatch]. now apply (IH1 a).
  - destruct lo as [|lo]; [discriminate|]. cbn [rmatch]. rewrite quant_nil.
    reflexivity.
  - cbn [rmatch]. now apply (IH1 a).
Qed.

Lemma replace_go_end (fl : flags) (r : regex) (a : atom) (rp : replacer)
    (prev : option N) :
  first_atom r = Some a -> replace_go (exec fl r) rp 0 prev [] = [].
Proof.
  intros Hf. cbn [replace_go]. unfold exec.
  now rewrite (rmatch_first_end fl r a prev [] _ Hf).
Qed.

(** A stretch of text in which no match can start is copied. *)
Lemma replace_go_pass (fl : flags) (r : regex) (a : atom) (rp : replacer)
    (p s : jsstring) :
  first_atom r = Some a ->
  forallb (fun c => negb (atom_ok fl a c)) p = true ->
  forall prev,
    replace_go (exec fl r) rp 0 prev (p ++ s) =
    p ++ replace_go (exec fl r) rp 0 (lastopt p prev) s.
Proof.
  intros Hf. induction p as [|c p IH]; intros Hp prev; [reflexivity|].
  simpl in Hp. apply andb_prop in Hp as [Hc Hp].
  cbn [app]. rewrite replace_go_copy.
  - now rewrite (IH Hp).
  - unfold exec. apply (rmatch_first_fail fl r a); [exact Hf|].
    now destruct (atom_ok fl a c).
Qed.

Lemma atom_ok_chr_low (fl : flags) (a c : N) :
  (a < 65)%N -> atom_ok fl (ASet [CChar a]) c = N.eqb c a.
Proof.
  intros H. unfold atom_ok. cbn [existsb citem_ok]. rewrite orb_false_r.
  now apply canon_eqb_low.
Qed.

Lemma forallb_not_atom (fl : flags) (a : N) (p : jsstring) :
  (a < 65)%N -> forallb (isNot a) p = true ->
  forallb (fun c => negb (atom_ok fl (ASet [CChar a]) c)) p = true.
Proof.
  intros Ha. apply forallb_weaken. intros c Hc.
  rewrite (atom_ok_chr_low fl a c Ha). exact Hc.
Qed.

(** A pattern that has to start with the character [a] leaves a text
    without [a] alone. *)
Lemma replaceAll_absent (fl : flags) (r : regex) (a : N) (rp : replacer)
    (s : jsstring) :
  first_atom r = Some (ASet [CChar a]) -> (a < 65)%N ->
  forallb (isNot a) s = true -> replaceAll fl r rp s = s.
Proof.
  intros Hf Ha Hs. unfold replaceAll.
  rewrite <- (app_nil_r s) at 1.
  rewrite (replace_go_pass fl r _ rp s [] Hf (forallb_not_atom fl a s Ha Hs)).
  rewrite (replace_go_end fl r _ rp _ Hf). apply app_nil_r.
Qed.



Ltac eval_strs :=
  repeat match goal with
  | |- context [str ?s] =>
      let v := eval vm_compute in (str s) in change (str s) with v
  end.

Lemma fold_blockStep_inert (d : jsstring) (l : list string) :
  (forall tag rp, In tag l ->
     replaceAll flags_gi (re_close_tag tag) rp d = d /\
     replaceAll flags_gi (re_open_tag tag) rp d = d) ->
  fold_left blockStep l d = d.
Proof.
  induction l as [|tag l IH]; intros H; [reflexivity|].
  cbn [fold_left]. unfold blockStep at 2.
  rewrite (proj1 (H tag _ (or_introl eq_refl))).
  destruct (String.eqb tag "li");
    rewrite (proj2 (H tag _ (or_introl eq_refl)));
    apply IH; intros t rp Ht; apply H; now right.
Qed.
















(** ** Text without markup is left as it is *)

Lemma replaceAll_no_start (fl : flags) (r : regex) (a : atom) (rp : replacer)
    (s : jsstring) :
  first_atom r = Some a ->
  forallb (fun c => negb (atom_ok fl a c)) s = true ->
  replaceAll fl r rp s = s.
Proof.
  intros Hf Hs. unfold replaceAll.
  rewrite <- (app_nil_r s) at 1.
  rewrite (replace_go_pass fl r a rp s [] Hf Hs).
  rewrite (replace_go_end fl r a rp _ Hf). apply app_nil_r.
Qed.

Lemma fold_entities_absent (s : jsstring) (l : list (string * jsstring)) :
  forallb (isNot 38) s = true ->
  (forall e, In e l -> first_atom (lit (fst e)) = Some (ASet [CChar 38%N])) ->
  fold_left (fun t e => replaceAll flags_gi (lit (fst e)) (with_text (snd e)) t)
    l s = s.
Proof.
  intros Hs. induction l as [|e l IH]; intros H; [reflexivity|].
  cbn [fold_left].
  rewrite (replaceAll_absent flags_gi _ 38 _ s (H e (or_introl eq_refl))
             ltac:(reflexivity) Hs).
  apply IH. intros e' He'. apply H. now right.
Qed.

Lemma decodeHtmlEntities_absent (s : jsstring) :
  forallb (isNot 38) s = true -> decodeHtmlEntities s = s.
Proof.
  intros Hs. unfold decodeHtmlEntities. cbv zeta.
  rewrite (fold_entities_absent s entities Hs).
  - rewrite (replaceAll_absent flags_g re_dec_entity 38 _ s eq_refl
               ltac:(reflexivity) Hs).
    apply (replaceAll_absent flags_g re_hex_entity 38 _ s eq_refl
             ltac:(reflexivity) Hs).
  - intros e He. unfold entities in He. cbn [In] in He.
    repeat (destruct He as [<-|He]; [reflexivity|]). contradiction.
Qed.





Lemma inline_facts (c : N) :
  isInline c = true ->
  isNot 60 c = true /\ isNot 38 c = true /\ isNL c = false /\ noTab c = true.
Proof.
  unfold isInline. intros H. apply andb_prop in H as [H H4].
  apply andb_prop in H as [H H3]. apply andb_prop in H as [H1 H2].
  repeat split; try assumption. now destruct (isNL c).
Qed.

Lemma no_nl_no_adj (x : jsstring) :
  forallb (fun c => negb (isNL c)) x = true ->
  no_adj bad_after_nl x = true /\ no_adj bad_before_nl x = true.
Proof.
  induction x as [|c x IH]; [now split|]. simpl forallb. intros H.
  apply andb_prop in H as [Hc Hx]. destruct (IH Hx) as [I1 I2].
  split; (apply no_adj_intro; [|assumption]);
    (destruct x as [|d x]; [reflexivity|]); cbn [starts].
  - unfold bad_after_nl. now destruct (isNL c).
  - simpl in Hx. apply andb_prop in Hx as [Hd _]. unfold bad_before_nl.
    destruct (isNL d); [discriminate|]. apply andb_false_r.
Qed.

(** The steps after the links and images leave a settled text alone. *)
Lemma settled_fixed (x : jsstring) :
  settled x ->
  trim
    (replaceAll flags_g re_3_newlines (with_text [10%N; 10%N])
       (replaceAll flags_g re_blanks_nl (with_text [10%N])
          (replaceAll flags_g re_nl_blanks (with_text [10%N])
             (replaceAll flags_g re_blanks (with_text [32%N])
                (decodeHtmlEntities
                   (replaceAll flags_g re_tag delete
                      (replaceAll flags_gi (re_element "style") delete
                         (replaceAll flags_gi (re_element "script") delete
                            x)))))))) = x.
Proof.
  intros [HI [HA HT]].
  assert (H60 : forallb (isNot 60) x = true).
  { apply (forallb_weaken isInline); [|exact HI]. intros c Hc.
    apply (inline_facts c Hc). }
  assert (H38 : forallb (isNot 38) x = true).
  { apply (forallb_weaken isInline); [|exact HI]. intros c Hc.
    apply (inline_facts c Hc). }
  assert (HN : forallb (fun c => negb (isNL c)) x = true).
  { apply (forallb_weaken isInline); [|exact HI]. intros c Hc.
    destruct (inline_facts c Hc) as [_ [_ [-> _]]]. reflexivity. }
  assert (H9 : forallb noTab x = true).
  { apply (forallb_weaken isInline); [|exact HI]. intros c Hc.
    apply (inline_facts c Hc). }
  destruct (no_nl_no_adj x HN) as [A2 A3].
  rewrite (replaceAll_absent flags_gi (re_element "script") 60 _ x eq_refl
             ltac:(reflexivity) H60).
  rewrite (replaceAll_absent flags_gi (re_element "style") 60 _ x eq_refl
             ltac:(reflexivity) H60).
  rewrite (replaceAll_absent flags_g re_tag 60 _ x eq_refl
             ltac:(reflexivity) H60).
  rewrite (decodeHtmlEntities_absent x H38).
  change (replaceAll flags_g re_blanks (with_text [32%N]) x)
    with (collapseBlanks x).
  rewrite collapseBlanks_spec, (collapse_id x None H9 HA).
  change (replaceAll flags_g re_nl_blanks (with_text [10%N]) x)
    with (stripLineStart x).
  rewrite (lineStart_id x A2).
  change (replaceAll flags_g re_blanks_nl (with_text [10%N]) x)
    with (stripLineEnd x).
  rewrite (lineEnd_id x A3).
  rewrite (replaceAll_no_start flags_g re_3_newlines newline _ x eq_refl).
  - exact HT.
  - apply (forallb_weaken (fun c => negb (isNL c))); [|exact HN].
    intros c Hc. now rewrite atom_ok_newline.
Qed.






(** ** A link *)





(** ** An image *)














(** ** The claim *)




(** * Further properties of the text functions *)

(** ** What a match looks like *)

Lemma rmatch_inv (fl : flags) (r : regex) :
  forall prev s cs k res,
    rmatch fl r prev s cs k = Some res ->
    exists m s1 p1 cs1,
      s = m ++ s1 /\ (min_len r <= length m)%nat /\ k m p1 s1 cs1 = Some res.
Proof.
  induction r as [|a| | |r1 IH1 r2 IH2|r1 IH1 r2 IH2|a lo hi g|n r1 IH1];
    intros prev s cs k res H; cbn [rmatch min_len] in *.
  - exists [], s, prev, cs. repeat split; [apply Nat.le_refl|exact H].
  - destruct s as [|c s]; [discriminate|].
    destruct (atom_ok fl a c); [|discriminate].
    exists [c], s, (Some c), cs. repeat split; [apply Nat.le_refl|exact H].
  - destruct (at_bol fl prev); [|discriminate].
    exists [], s, prev, cs. repeat split; [apply Nat.le_refl|exact H].
  - destruct (at_eol fl s); [|discriminate].
    exists [], s, prev, cs. repeat split; [apply Nat.le_refl|exact H].
  - destruct (IH1 _ _ _ _ _ H) as [m1 [s1 [p1 [cs1 [-> [L1 H1]]]]]].
    destruct (IH2 _ _ _ _ _ H1) as [m2 [s2 [p2 [cs2 [-> [L2 H2]]]]]].
    exists (m1 ++ m2), s2, p2, cs2. rewrite <- app_assoc, length_app.
    repeat split; [lia|exact H2].
  - destruct (rmatch fl r1 prev s cs k) as [x|] eqn:E.
    + injection H as <-.
      destruct (IH1 _ _ _ _ _ E) as [m [s1 [p1 [cs1 [-> [L Hk]]]]]].
      exists m, s1, p1, cs1. repeat split; [lia|exact Hk].
    + destruct (IH2 _ _ _ _ _ H) as [m [s1 [p1 [cs1 [-> [L Hk]]]]]].
      exists m, s1, p1, cs1. repeat split; [lia|exact Hk].
  - destruct (quant_some _ _ _ _ _ _ _ _ _ H) as [m [s' [-> [_ [L Hk]]]]].
    exists m, s', (lastopt m prev), cs. repeat split; [exact L|exact Hk].
  - destruct (IH1 _ _ _ _ _ H) as [m [s1 [p1 [cs1 [-> [L Hk]]]]]].
    exists m, s1, p1, ((n, m) :: cs1). repeat split; [exact L|exact Hk].
Qed.

(** A match is a prefix of the input and has the least length of the
    pattern. *)
Lemma exec_inv (fl : flags) (r : regex) (prev : option N) (s m : jsstring)
    (cs : caps) :
  exec fl r prev s = Some (m, cs) ->
  (exists s', s = m ++ s') /\ (min_len r <= length m)%nat.
Proof.
  intros H. destruct (rmatch_inv fl r _ _ _ _ _ H)
    as [m1 [s1 [p1 [cs1 [-> [L E]]]]]].
  injection E as <- _. split; [now exists s1|exact L].
Qed.




(** ** The shape of what [cleanEmailText] returns *)

Lemma blf_three_newlines (a b : jsstring) :
  forall st, blf st (a ++ threeNewlines ++ b) = false.
Proof.
  induction a as [|c a IH]; intros st.
  - destruct st; reflexivity.
  - cbn [app blf]. destruct (isLineTerminator c).
    + destruct st; [apply IH|reflexivity|apply IH].
    + destruct (isWhiteSpace c); [destruct st|]; apply IH.
Qed.

Lemma cleanEmailText_tidied (x : jsstring) : tidied (cleanEmailText x).
Proof.
  destruct x as [|c x]; [|apply tidyWhitespace_tidied].
  repeat split.
Qed.

(** X1: whatever the input, the text that [cleanEmailText] returns has
    nothing left to trim, holds no tab, no two blanks in a row, no blank
    right after or right before a line feed, and never three line feeds
    in a row. *)
Theorem X1_cleanEmailText_output_is_tidy (x : jsstring) :
  trim (cleanEmailText x) = cleanEmailText x /\
  forallb noTab (cleanEmailText x) = true /\
  no_adj bad_blanks (cleanEmailText x) = true /\
  no_adj bad_after_nl (cleanEmailText x) = true /\
  no_adj bad_before_nl (cleanEmailText x) = true /\
  (forall a b, cleanEmailText x <> a ++ threeNewlines ++ b).
Proof.
  destruct (cleanEmailText_tidied x) as [B [T [A1 [A2 [A3 Tr]]]]].
  repeat split; try assumption.
  intros a b E. rewrite E in B. now rewrite blf_three_newlines in B.
Qed.

(** X2: the text that [cleanEmailText] returns holds none of the
    zero-width code units U+200B, U+200C, U+200D, U+FEFF and U+034F. *)
Theorem X2_cleanEmailText_drops_zero_width (x : jsstring) :
  forallb noZeroWidth (cleanEmailText x) = true.
Proof.
  destruct x as [|c x]; [reflexivity|]. unfold cleanEmailText, beforeWhitespace.
  apply tidyWhitespace_forall; [reflexivity|reflexivity|].
  apply stripZeroWidth_clean.
Qed.

Lemma trimStart_all_space (x : jsstring) :
  forallb isWhiteSpace x = true -> trimStart x = [].
Proof.
  induction x as [|c x IH]; [reflexivity|]. cbn [forallb trimStart].
  intros H. apply andb_prop in H as [-> H]. now apply IH.
Qed.

(** X3: a text that is nothing but whitespace is normalised to the empty
    text. *)
Theorem X3_cleanEmailText_of_whitespace_is_empty (x : jsstring) :
  forallb isWhiteSpace x = true -> cleanEmailText x = [].
Proof.
  intros H. destruct x as [|c x]; [reflexivity|].
  unfold cleanEmailText, beforeWhitespace, trim.
  now rewrite (trimStart_all_space _ H).
Qed.

Lemma X3_cleanEmailText_of_whitespace_is_empty_witness :
  cleanEmailText [32%N; 10%N; 9%N; 160%N; 13%N; 10%N] = [].
Proof.
  apply X3_cleanEmailText_of_whitespace_is_empty. reflexivity.
Defined.

(** ** Text that is already clean *)




(** ** The normalisers only take text away *)

Lemma replace_go_shrinks (ex : matcher) (rp : replacer) :
  (forall prev s m cs, ex prev s = Some (m, cs) ->
     (length (rp m cs) <= length m)%nat /\ (length m <= length s)%nat) ->
  forall s skip prev,
    (length (replace_go ex rp skip prev s) <= length s - skip)%nat.
Proof.
  intros H s. induction s as [|c s IH]; intros skip prev.
  - destruct skip; cbn [replace_go]; [|apply Nat.le_0_l].
    destruct (ex prev []) as [[m cs]|] eqn:E; [|apply Nat.le_0_l].
    destruct (H _ _ _ _ E) as [L1 L2]. rewrite app_nil_r. cbn [length] in *. lia.
  - destruct skip as [|k]; cbn [replace_go].
    + destruct (ex prev (c :: s)) as [[m cs]|] eqn:E.
      * destruct (H _ _ _ _ E) as [L1 L2]. rewrite length_app.
        cbn [length] in *. destruct (length m) as [|j] eqn:Em.
        -- specialize (IH O (Some c)). cbn [length]. lia.
        -- specialize (IH j (Some c)). lia.
      * specialize (IH O (Some c)). cbn [length]. lia.
    + specialize (IH k (Some c)). cbn [length]. lia.
Qed.

Lemma replace_first_go_shrinks (ex : matcher) (rp : replacer) :
  (forall prev s m cs, ex prev s = Some (m, cs) ->
     (length (rp m cs) <= length m)%nat /\ (length m <= length s)%nat) ->
  forall s prev,
    (length (replace_first_go ex rp prev s) <= length s)%nat.
Proof.
  intros H s. induction s as [|c s IH]; intros prev; cbn [replace_first_go].
  - destruct (ex prev []) as [[m cs]|] eqn:E; [|apply Nat.le_0_l].
    destruct (H _ _ _ _ E) as [L1 L2]. rewrite length_app, length_skipn. lia.
  - destruct (ex prev (c :: s)) as [[m cs]|] eqn:E.
    + destruct (H _ _ _ _ E) as [L1 L2]. rewrite length_app, length_skipn. lia.
    + specialize (IH (Some c)). cbn [length]. lia.
Qed.

Lemma exec_shrinks (fl : flags) (r : regex) (rp : replacer) (n : nat) :
  (forall m cs, (length (rp m cs) <= n)%nat) -> (n <= min_len r)%nat ->
  forall prev s m cs, exec fl r prev s = Some (m, cs) ->
    (length (rp m cs) <= length m)%nat /\ (length m <= length s)%nat.
Proof.
  intros Hrp Hn prev s m cs E.
  destruct (exec_inv fl r prev s m cs E) as [[s' ->] L].
  specialize (Hrp m cs). rewrite length_app. lia.
Qed.

Lemma replaceAll_shrinks (fl : flags) (r : regex) (rp : replacer) (n : nat)
    (s : jsstring) :
  (forall m cs, (length (rp m cs) <= n)%nat) -> (n <= min_len r)%nat ->
  (length (replaceAll fl r rp s) <= length s)%nat.
Proof.
  intros Hrp Hn. unfold replaceAll.
  pose proof (replace_go_shrinks _ rp (exec_shrinks fl r rp n Hrp Hn) s O None).
  lia.
Qed.

Lemma replaceFirst_shrinks (fl : flags) (r : regex) (rp : replacer) (n : nat)
    (s : jsstring) :
  (forall m cs, (length (rp m cs) <= n)%nat) -> (n <= min_len r)%nat ->
  (length (replaceFirst fl r rp s) <= length s)%nat.
Proof.
  intros Hrp Hn. unfold replaceFirst.
  apply (replace_first_go_shrinks _ rp (exec_shrinks fl r rp n Hrp Hn)).
Qed.

Lemma trimStart_length (s : jsstring) :
  (length (trimStart s) <= length s)%nat.
Proof.
  induction s as [|c s IH]; [apply Nat.le_refl|]. cbn [trimStart].
  destruct (isWhiteSpace c); cbn [length]; lia.
Qed.

Lemma trim_length (s : jsstring) : (length (trim s) <= length s)%nat.
Proof.
  unfold trim. pose proof (trimEnd_length (trimStart s)).
  pose proof (trimStart_length s). lia.
Qed.

(** One step that does not lengthen, put after steps that did not. *)
Ltac shrink_step :=
  first
    [ eapply Nat.le_trans; [apply trim_length|]
    | eapply Nat.le_trans;
      [apply (replaceAll_shrinks _ _ _ O); [intros; apply Nat.le_refl|apply Nat.le_0_l]|]
    | eapply Nat.le_trans;
      [apply (replaceFirst_shrinks _ _ _ O); [intros; apply Nat.le_refl|apply Nat.le_0_l]|]
    | eapply Nat.le_trans;
      [apply (replaceAll_shrinks _ _ _ 1%nat); [intros; apply Nat.le_refl|vm_compute; lia]|]
    | eapply Nat.le_trans;
      [apply (replaceAll_shrinks _ _ _ 2%nat); [intros; apply Nat.le_refl|vm_compute; lia]|]
    | eapply Nat.le_trans;
      [apply (replaceAll_shrinks _ _ _ 3%nat); [intros; apply Nat.le_refl|vm_compute; lia]|] ].

(** X5: [cleanEmailText] only takes text away: its result is never longer
    than its input. *)
Theorem X5_cleanEmailText_never_lengthens (x : jsstring) :
  (length (cleanEmailText x) <= length x)%nat.
Proof.
  destruct x as [|c x]; [apply Nat.le_refl|].
  unfold cleanEmailText, tidyWhitespace, beforeWhitespace, stripZeroWidth,
    removeUrls, stripTrailingNewlines, stripLeadingNewlines, stripLineEnd,
    stripLineStart, collapseBlanks, collapseNewlines, removeBlankLines,
    removeInlineUrls, removeUrlLines, removeBracketUrls, zeroWidth.
  cbn [fold_left]. unfold delete, with_text.
  repeat shrink_step. apply Nat.le_refl.
Qed.

(** X6: [cleanPlainText] and [decodeHtmlEntities] only take text away
    too: every entity is at least as long as what it stands for. *)
Theorem X6_plain_text_and_entities_never_lengthen (x : jsstring) :
  (length (cleanPlainText x) <= length x)%nat /\
  (length (decodeHtmlEntities x) <= length x)%nat.
Proof.
  split.
  - destruct x as [|c x]; [apply Nat.le_refl|].
    unfold cleanPlainText. cbv zeta. unfold delete, with_text.
    repeat shrink_step. apply Nat.le_refl.
  - unfold decodeHtmlEntities, entities. cbv zeta.
    cbn [fold_left fst snd]. unfold with_text.
    repeat shrink_step. apply Nat.le_refl.
Qed.

(** ** Telling HTML from plain text *)

Lemma test_go_none (ex : matcher) (s : jsstring) :
  (forall a b p', s = a ++ b -> ex p' b = None) ->
  forall prev, test_go ex prev s = false.
Proof.
  induction s as [|c s IH]; intros H prev; cbn [test_go].
  - now rewrite (H [] [] prev eq_refl).
  - rewrite (H [] (c :: s) prev eq_refl). apply IH.
    intros a b p' ->. now apply (H (c :: a) b p').
Qed.

Lemma test_go_found (ex : matcher) (a b : jsstring) :
  forall prev,
    (forall p', ex p' b <> None) -> test_go ex prev (a ++ b) = true.
Proof.
  induction a as [|c a IH]; intros prev H.
  - cbn [app]. specialize (H prev).
    destruct b as [|d b]; cbn [test_go]; destruct (ex prev _);
      congruence.
  - cbn [app test_go]. destruct (ex prev (c :: a ++ b)); [reflexivity|].
    now apply IH.
Qed.

Lemma isHtmlContent_no_lt (x : jsstring) :
  forallb (isNot 60) x = true -> isHtmlContent x = false.
Proof.
  intros H. destruct x as [|c x]; [reflexivity|].
  unfold isHtmlContent, test. apply test_go_none.
  intros a b p' E. rewrite E in H. apply forallb_suffix in H.
  unfold exec. destruct b as [|d b].
  - now apply (rmatch_first_end flags_gi re_html_tag (ASet [CChar 60%N])).
  - apply (rmatch_first_fail flags_gi re_html_tag (ASet [CChar 60%N]));
      [reflexivity|].
    cbn [forallb] in H. apply andb_prop in H as [H _].
    rewrite (atom_ok_chr_low flags_gi 60 d) by reflexivity.
    unfold isNot in H. now destruct (N.eqb d 60).
Qed.

(** X7: content without the character [<] is never taken for HTML: it
    goes through [cleanPlainText], also when it is the [TEXT] part of a
    message on the detail path. *)
Theorem X7_text_without_lt_is_plain
    (utf8 : Buffer -> jsstring) (parts : BodyParts) (b : Buffer) :
  map_get "TEXT" parts = Some b ->
  forallb (isNot 60) (utf8 b) = true ->
  isHtmlContent (utf8 b) = false /\
  sniffAndConvert (utf8 b) = cleanPlainText (utf8 b) /\
  processEmailBodyFromParts utf8 (Some parts) = cleanPlainText (utf8 b).
Proof.
  intros Hp H. pose proof (isHtmlContent_no_lt _ H) as E.
  unfold processEmailBodyFromParts, sniffAndConvert. rewrite Hp, E.
  repeat split.
Qed.

Lemma X7_text_without_lt_is_plain_witness :
  isHtmlContent (asciiText [Byte.x48; Byte.x69]) = false /\
  sniffAndConvert (asciiText [Byte.x48; Byte.x69]) =
    cleanPlainText (asciiText [Byte.x48; Byte.x69]) /\
  processEmailBodyFromParts asciiText
    (Some [("TEXT"%string, [Byte.x48; Byte.x69])]) =
    cleanPlainText (asciiText [Byte.x48; Byte.x69]).
Proof.
  apply (X7_text_without_lt_is_plain asciiText
           [("TEXT"%string, [Byte.x48; Byte.x69])] [Byte.x48; Byte.x69]);
    reflexivity.
Defined.

Lemma quant_greedy_zero (p : N -> bool) (s : jsstring) (prev : option N)
    (cs : caps) (k : cont) :
  k [] prev s cs <> None -> quant p true 0 None prev s cs k <> None.
Proof.
  intros H. destruct s as [|c s].
  - now rewrite quant_nil.
  - rewrite quant_greedy_cons. destruct (p c); [|exact H].
    now destruct (quant p true (pred 0) None (Some c) s cs _).
Qed.

Lemma gt_or_not (fl : flags) (c : N) :
  atom_ok fl not_gt c = true -> atom_ok fl (ASet [CChar 62%N]) c = false.
Proof.
  unfold not_gt. cbn [atom_ok].
  now destruct (existsb (fun it => citem_ok fl it c) [CChar 62%N]).
Qed.

Lemma not_gt_isNot (fl : flags) (c : N) :
  isNot 62 c = true -> atom_ok fl not_gt c = true.
Proof.
  unfold isNot, atom_ok, not_gt. cbn [existsb citem_ok].
  rewrite (canon_eqb_low fl) by reflexivity. rewrite orb_false_r. easy.
Qed.

Lemma html_tag_matches (tag : string) (attrs post : jsstring) (prev : option N) :
  In tag htmlTagNames -> forallb (isNot 62) attrs = true ->
  exec flags_gi re_html_tag prev (60%N :: str tag ++ attrs ++ 62%N :: post)
  <> None.
Proof.
  intros Hin Ha. unfold htmlTagNames in Hin. cbn [In] in Hin.
  unfold exec.
  let r := eval cbv in re_html_tag in change re_html_tag with r.
  assert (Hg : forallb (atom_ok flags_gi not_gt) attrs = true)
    by exact (forallb_weaken _ _ attrs (not_gt_isNot flags_gi) Ha).
  repeat (destruct Hin as [<-|Hin];
    [ eval_strs; cbn [app rmatch]; eval_atoms; cbv iota;
      rewrite quant_skip by reflexivity; cbv beta iota; eval_atoms; cbv iota;
      match goal with
      | |- match ?q with Some x => Some x | None => _ end <> None =>
          let E := fresh "E" in
          destruct q eqn:E; [discriminate|]; exfalso; revert E
      | _ => idtac
      end;
      apply quant_greedy_zero; cbv beta;
      change (ANotSet [CChar 62%N]) with not_gt;
      rewrite (quant_run_commit (atom_ok flags_gi not_gt) attrs);
      [ eval_atoms; cbv iota; discriminate
      | exact Hg | reflexivity | apply Nat.le_0_l
      | intros m p' c s' cs' Hc; cbv beta iota;
        now rewrite (gt_or_not flags_gi c Hc) ]
    |]).
  contradiction.
Qed.

(** X8: a text in which one of the tags [html], [body], [div], [p], [br],
    [img], [a], [span], [table], [tr], [td] is opened, with or without
    attributes, is taken for HTML wherever the tag stands, and is
    therefore converted by [stripHtmlTags]. *)
Theorem X8_text_with_a_known_tag_is_html
    (tag : string) (pre attrs post : jsstring) :
  In tag htmlTagNames -> forallb (isNot 62) attrs = true ->
  isHtmlContent (pre ++ 60%N :: str tag ++ attrs ++ 62%N :: post) = true /\
  sniffAndConvert (pre ++ 60%N :: str tag ++ attrs ++ 62%N :: post) =
    stripHtmlTags (pre ++ 60%N :: str tag ++ attrs ++ 62%N :: post).
Proof.
  intros Hin Ha.
  assert (E : isHtmlContent (pre ++ 60%N :: str tag ++ attrs ++ 62%N :: post)
              = true).
  { unfold isHtmlContent, test.
    destruct (pre ++ 60%N :: str tag ++ attrs ++ 62%N :: post) eqn:Ex.
    - now destruct pre.
    - rewrite <- Ex. apply test_go_found. intros p'.
      now apply html_tag_matches. }
  split; [exact E|]. unfold sniffAndConvert. now rewrite E.
Qed.

Lemma X8_text_with_a_known_tag_is_html_witness :
  isHtmlContent (str "Hi <div class='x'>there</div>") = true.
Proof.
  apply (X8_text_with_a_known_tag_is_html "div" (str "Hi ") (str " class='x'")
           (str "there</div>")).
  - right. right. now left.
  - reflexivity.
Defined.

(** ** Text without markup in [stripHtmlTags] *)

(** X9: [stripHtmlTags] returns a text unchanged when the text is on one
    line, holds no [<] and no [&], no tab, no two blanks in a row, and
    has nothing to trim. *)
Theorem X9_stripHtmlTags_keeps_settled_text (x : jsstring) :
  settled x -> stripHtmlTags x = x.
Proof.
  intros S. destruct x as [|c x]; [reflexivity|].
  assert (H60 : forallb (isNot 60) (c :: x) = true).
  { apply (forallb_weaken isInline); [|exact (proj1 S)]. intros d Hd.
    apply (inline_facts d Hd). }
  unfold stripHtmlTags. cbv zeta.
  match goal with
  | |- context [replaceAll flags_gi (re_element "script") delete ?t] =>
      assert (E : t = c :: x)
  end.
  { rewrite fold_blockStep_inert.
    - repeat match goal with
      | |- context [replaceAll ?fl ?r ?rp (c :: x)] =>
          rewrite (replaceAll_absent fl r 60 rp (c :: x) eq_refl
                     ltac:(reflexivity) H60)
      end.
      reflexivity.
    - intros tag rp Hin. unfold blockElements in Hin. cbn [In] in Hin.
      repeat (destruct Hin as [<-|Hin];
              [split; (apply (replaceAll_absent flags_gi _ 60);
                       [reflexivity|reflexivity|exact H60])|]).
      contradiction. }
  rewrite E. now apply settled_fixed.
Qed.

Lemma X9_stripHtmlTags_keeps_settled_text_witness :
  stripHtmlTags (str "Total: 3 items, 12 EUR") = str "Total: 3 items, 12 EUR".
Proof.
  apply X9_stripHtmlTags_keeps_settled_text.
  repeat split; vm_compute; reflexivity.
Defined.

(** ** The order of the entity table *)

Lemma replaceAll_one_start_miss (fl : flags) (r : regex) (rp : replacer)
    (c0 : N) (a t : jsstring) :
  first_atom r = Some (ASet [CChar c0]) -> (c0 < 65)%N ->
  forallb (isNot c0) a = true -> forallb (isNot c0) t = true ->
  (forall prev, exec fl r prev (c0 :: t) = None) ->
  replaceAll fl r rp (a ++ c0 :: t) = a ++ c0 :: t.
Proof.
  intros Hf Hc Ha Ht E. unfold replaceAll.
  rewrite (replace_go_pass fl r _ rp a _ Hf (forallb_not_atom fl c0 a Hc Ha)).
  f_equal. rewrite (replace_go_copy _ rp _ c0 t (E _)). f_equal.
  rewrite <- (app_nil_r t) at 1.
  rewrite (replace_go_pass fl r _ rp t [] Hf (forallb_not_atom fl c0 t Hc Ht)).
  rewrite (replace_go_end fl r _ rp _ Hf). apply app_nil_r.
Qed.

Lemma replaceAll_one_start_hit (fl : flags) (r : regex) (rp : replacer)
    (c0 : N) (a m t : jsstring) (cs : caps) :
  first_atom r = Some (ASet [CChar c0]) -> (c0 < 65)%N ->
  forallb (isNot c0) a = true -> forallb (isNot c0) t = true ->
  (forall prev, exec fl r prev (m ++ t) = Some (m, cs)) -> m <> [] ->
  replaceAll fl r rp (a ++ m ++ t) = a ++ rp m cs ++ t.
Proof.
  intros Hf Hc Ha Ht E Hm. unfold replaceAll.
  rewrite (replace_go_pass fl r _ rp a _ Hf (forallb_not_atom fl c0 a Hc Ha)).
  f_equal. rewrite (replace_go_match _ rp _ m t cs (E _) Hm). f_equal.
  rewrite <- (app_nil_r t) at 1.
  rewrite (replace_go_pass fl r _ rp t [] Hf (forallb_not_atom fl c0 t Hc Ht)).
  rewrite (replace_go_end fl r _ rp _ Hf). apply app_nil_r.
Qed.

Ltac no_amp_left H :=
  repeat match goal with
  | |- context [replaceAll ?fl ?r ?rp ?x] =>
      rewrite (replaceAll_absent fl r 38 rp x eq_refl ltac:(reflexivity) H)
  end.

(** X10: [decodeHtmlEntities] replaces the named entities one row of its
    table after the other, so what an earlier row produces is decoded
    again by a later row: [&amp;lt;] comes out as [<], whereas
    [&amp;nbsp;] comes out as [&nbsp;], the row of [&nbsp;] standing
    before the row of [&amp;]. *)
Theorem X10_entities_are_decoded_row_by_row (a b : jsstring) :
  forallb (isNot 38) a = true -> forallb (isNot 38) b = true ->
  decodeHtmlEntities (a ++ str "&amp;lt;" ++ b) = a ++ str "<" ++ b /\
  decodeHtmlEntities (a ++ str "&amp;nbsp;" ++ b) = a ++ str "&nbsp;" ++ b.
Proof.
  intros Ha Hb. split.
  - unfold decodeHtmlEntities, entities. cbv zeta. cbn [fold_left fst snd].
    eval_strs. cbn [app].
    rewrite (replaceAll_one_start_miss flags_gi (lit "&nbsp;") _ 38 a
               (97%N :: 109%N :: 112%N :: 59%N :: 108%N :: 116%N :: 59%N :: b)
               eq_refl ltac:(reflexivity) Ha);
      [|cbn [forallb]; now rewrite Hb|intros; vm_compute; reflexivity].
    rewrite (replaceAll_one_start_hit flags_gi (lit "&amp;") _ 38 a
               [38%N; 97%N; 109%N; 112%N; 59%N]
               (108%N :: 116%N :: 59%N :: b) [] eq_refl ltac:(reflexivity) Ha);
      [|cbn [forallb]; now rewrite Hb|intros; vm_compute; reflexivity
       |discriminate].
    unfold with_text. cbn [app].
    rewrite (replaceAll_one_start_hit flags_gi (lit "&lt;") _ 38 a
               [38%N; 108%N; 116%N; 59%N] b [] eq_refl ltac:(reflexivity)
               Ha Hb);
      [|intros; vm_compute; reflexivity|discriminate].
    unfold with_text. cbn [app].
    assert (H : forallb (isNot 38) (a ++ 60%N :: b) = true).
    { rewrite forallb_app. cbn [forallb]. now rewrite Ha, Hb. }
    no_amp_left H. reflexivity.
  - unfold decodeHtmlEntities, entities. cbv zeta. cbn [fold_left fst snd].
    eval_strs. cbn [app].
    rewrite (replaceAll_one_start_miss flags_gi (lit "&nbsp;") _ 38 a
               (97%N :: 109%N :: 112%N :: 59%N ::
                110%N :: 98%N :: 115%N :: 112%N :: 59%N :: b)
               eq_refl ltac:(reflexivity) Ha);
      [|cbn [forallb]; now rewrite Hb|intros; vm_compute; reflexivity].
    rewrite (replaceAll_one_start_hit flags_gi (lit "&amp;") _ 38 a
               [38%N; 97%N; 109%N; 112%N; 59%N]
               (110%N :: 98%N :: 115%N :: 112%N :: 59%N :: b) []
               eq_refl ltac:(reflexivity) Ha);
      [|cbn [forallb]; now rewrite Hb|intros; vm_compute; reflexivity
       |discriminate].
    unfold with_text. cbn [app].
    repeat match goal with
    | |- context [replaceAll ?fl ?r ?rp
                    (a ++ 38%N :: 110%N :: 98%N :: 115%N :: 112%N :: 59%N :: b)] =>
        rewrite (replaceAll_one_start_miss fl r rp 38 a
                   (110%N :: 98%N :: 115%N :: 112%N :: 59%N :: b)
                   eq_refl ltac:(reflexivity) Ha);
        [|cbn [forallb]; now rewrite Hb|intros; vm_compute; reflexivity]
    end.
    reflexivity.
Qed.

Lemma X10_entities_are_decoded_row_by_row_witness :
  decodeHtmlEntities (str "1 &amp;lt; 2") = str "1 < 2" /\
  decodeHtmlEntities (str "a&amp;nbsp;b") = str "a&nbsp;b".
Proof.
  destruct (X10_entities_are_decoded_row_by_row (str "1 ") (str " 2"))
    as [H1 _]; [reflexivity|reflexivity|].
  destruct (X10_entities_are_decoded_row_by_row (str "a") (str "b"))
    as [_ H2]; [reflexivity|reflexivity|].
  split; [exact H1|exact H2].
Defined.

(** ** The body of a fetched message *)

Lemma map_get_In (key : string) (parts : BodyParts) (b : Buffer) :
  map_get key parts = Some b -> In (key, b) parts.
Proof.
  induction parts as [|[k v] rest IH]; cbn [map_get]; [discriminate|].
  destruct (String.eqb k key) eqn:E.
  - intros H. injection H as <-. apply String.eqb_eq in E. subst k. now left.
  - intros H. right. now apply IH.
Qed.

Lemma firstBodyEntry_In (parts : BodyParts) (b : Buffer) :
  firstBodyEntry parts = Some b ->
  exists k, In (k, b) parts /\ k <> "HEADER"%string.
Proof.
  induction parts as [|[k v] rest IH]; cbn [firstBodyEntry]; [discriminate|].
  destruct (String.eqb k "HEADER") eqn:E; cbn [negb].
  - intros H. destruct (IH H) as [k' [Hin Hk]]. exists k'. split; [now right|exact Hk].
  - intros H. injection H as <-. exists k. split; [now left|].
    now apply String.eqb_neq.
Qed.

(** X11: on the detail path and on the listing path the body of a message
    is either empty or made from the content of a part whose label is not
    [HEADER]: the header part is never shown as the body. *)
Theorem X11_header_part_is_never_the_body
    (utf8 : Buffer -> jsstring) (parts : BodyParts) :
  (processEmailBodyFromParts utf8 (Some parts) = [] \/
   exists k b, In (k, b) parts /\ k <> "HEADER"%string /\
     processEmailBodyFromParts utf8 (Some parts) = sniffAndConvert (utf8 b)) /\
  (extractBodyFromParts utf8 (Some parts) = [] \/
   exists k b, In (k, b) parts /\ k <> "HEADER"%string /\
     (extractBodyFromParts utf8 (Some parts) = utf8 b \/
      extractBodyFromParts utf8 (Some parts) = sniffAndConvert (utf8 b))).
Proof.
  unfold processEmailBodyFromParts, extractBodyFromParts. split.
  - destruct (map_get "TEXT" parts) as [b|] eqn:E1.
    { right. exists "TEXT"%string, b.
      split; [now apply map_get_In|]. split; [discriminate|reflexivity]. }
    destruct (map_get "1" parts) as [b|] eqn:E2.
    { right. exists "1"%string, b.
      split; [now apply map_get_In|]. split; [discriminate|reflexivity]. }
    destruct (firstBodyEntry parts) as [b|] eqn:E3; [|now left].
    destruct (firstBodyEntry_In parts b E3) as [k [Hin Hk]].
    right. exists k, b. repeat split; assumption.
  - destruct (map_get "TEXT" parts) as [b|] eqn:E1.
    { right. exists "TEXT"%string, b.
      split; [now apply map_get_In|]. split; [discriminate|now left]. }
    destruct (firstBodyEntry parts) as [b|] eqn:E3; [|now left].
    destruct (firstBodyEntry_In parts b E3) as [k [Hin Hk]].
    right. exists k, b. split; [exact Hin|]. split; [exact Hk|now right].
Qed.

(** * Further properties of the account store *)

Local Open Scope string_scope.

(** ** Reading and writing *)



Lemma stored_present (nowISO : string) (d : Disk) (data : StorageData) :
  files d STORAGE_PATH = Some (FileJson data) -> stored nowISO d = data.
Proof.
  intros H. unfold stored.
  destruct (readStorage_present nowISO d data H) as [d1 [-> _]]. reflexivity.
Qed.

(** X12: what [writeStorage] writes on a writable disk is what the next
    [readStorage] returns: the same accounts and the same default
    account, with [lastUpdated] set to the time of the write whatever it
    was before; and that read changes no file. *)
Theorem X12_write_then_read_returns_the_data
    (nowISO : string) (data : StorageData) (d : Disk) :
  writable d = true ->
  exists d1 d2,
    writeStorage nowISO data d = (Ok tt, d1) /\
    readStorage nowISO d1 =
      ({| accounts := accounts data; defaultAccount := defaultAccount data;
          lastUpdated := nowISO |}, d2) /\
    files d2 = files d1.
Proof.
  intros W. destruct (writeStorage_writable nowISO data d W) as [d1 [H1 F1]].
  destruct (readStorage_present nowISO d1 _ F1) as [d2 [H2 [F2 _]]].
  exists d1, d2. repeat split; assumption.
Qed.

Lemma X12_write_then_read_returns_the_data_witness :
  exists d1 d2,
    writeStorage "2024-06-01" twoAccounts (diskWith duplicateStore) = (Ok tt, d1) /\
    readStorage "2024-06-01" d1 =
      ({| accounts := accounts twoAccounts;
          defaultAccount := defaultAccount twoAccounts;
          lastUpdated := "2024-06-01" |}, d2) /\
    files d2 = files d1.
Proof.
  apply (X12_write_then_read_returns_the_data "2024-06-01" twoAccounts
           (diskWith duplicateStore)).
  reflexivity.
Defined.



(** ** Adding and looking up *)

Lemma findIndex_None (e : string) (l : list EmailAccount) :
  findIndex e l = None <-> ~ In e (List.map email l).
Proof.
  split.
  - intros H Hin. destruct (findIndex_In e l Hin) as [i Hi]. congruence.
  - induction l as [|a l IH]; cbn [findIndex List.map In]; [reflexivity|].
    intros H. destruct (String.eqb (email a) e) eqn:E.
    + apply String.eqb_eq in E. exfalso. apply H. now left.
    + rewrite IH; [reflexivity|]. intros Hin. apply H. now right.
Qed.

Lemma findIndex_emails (e : string) (l : list EmailAccount) (i : nat)
    (new : EmailAccount) :
  findIndex e l = Some i -> email new = e ->
  List.map email (set_nth i new l) = List.map email l.
Proof.
  revert i. induction l as [|a l IH]; intros i Hf He; [discriminate Hf|].
  cbn [findIndex] in Hf. destruct (String.eqb (email a) e) eqn:E.
  - injection Hf as <-. apply String.eqb_eq in E. cbn. congruence.
  - destruct (findIndex e l) as [j|] eqn:Ej; [|discriminate].
    injection Hf as <-. cbn. f_equal. now apply IH.
Qed.

Lemma lookup_set_nth (e : string) (l : list EmailAccount) (i : nat)
    (new : EmailAccount) :
  findIndex e l = Some i -> email new = e -> noDisplayName e l ->
  lookup e (set_nth i new l) = Some new.
Proof.
  revert i. induction l as [|a l IH]; intros i Hf He Hn; [discriminate|].
  cbn [findIndex] in Hf. destruct (String.eqb (email a) e) eqn:E.
  - injection Hf as <-. cbn [set_nth]. unfold lookup. cbn [find].
    now rewrite He, String.eqb_refl.
  - destruct (findIndex e l) as [j|] eqn:Ej; [|discriminate].
    injection Hf as <-. cbn [set_nth]. unfold lookup. cbn [find]. rewrite E.
    cbn [orb].
    assert (D : match displayName a with
                | Some n => String.eqb n e
                | None => false
                end = false).
    { pose proof (Hn a (or_introl eq_refl)) as Ha.
      destruct (displayName a) as [n|]; [|reflexivity].
      apply String.eqb_neq. congruence. }
    rewrite D. apply IH; [reflexivity|exact He|].
    intros acc Hacc. apply Hn. now right.
Qed.



Lemma getAccount_lookup (nowISO name : string) (d : Disk) :
  fst (getAccount nowISO name d) = lookup name (accounts (stored nowISO d)).
Proof.
  unfold getAccount, stored. now destruct (readStorage nowISO d).
Qed.




(** ** What adding, updating and removing keep *)




(** ** Addresses that are not stored *)

Lemma readStorage_present_log (nowISO : string) (d : Disk) (data : StorageData) :
  files d STORAGE_PATH = Some (FileJson data) ->
  readStorage nowISO d =
    (data, log_fs (FsReadFile STORAGE_PATH)
             (log_fs (FsReadFile STORAGE_PATH) (log_fs (FsMkdir STORAGE_DIR) d))).
Proof.
  intros H. unfold readStorage, initializeStorage.
  cbn [log_fs files]. rewrite H. cbn [log_fs files]. now rewrite H.
Qed.

Lemma find_email_None (e : string) (l : list EmailAccount) :
  ~ In e (List.map email l) ->
  find (fun acc => String.eqb (email acc) e) l = None.
Proof.
  induction l as [|a l IH]; intros H; [reflexivity|]. cbn [find].
  destruct (String.eqb (email a) e) eqn:E.
  - apply String.eqb_eq in E. exfalso. apply H. now left.
  - apply IH. intros Hin. apply H. now right.
Qed.

(** X16: for an address that is not stored, [removeAccount],
    [updateAccount] and [setDefaultAccount] throw [Account not found] with
    the address, and on a valid store file they write nothing. *)
Theorem X16_unknown_address_is_refused
    (nowISO : string) (d : Disk) (data : StorageData) (a : EmailAccount) :
  files d STORAGE_PATH = Some (FileJson data) ->
  ~ In (email a) (List.map email (accounts data)) ->
  exists d1,
    removeAccount nowISO (email a) d =
      (Throw ("Account not found: " ++ email a), d1) /\
    updateAccount nowISO a d = (Throw ("Account not found: " ++ email a), d1) /\
    setDefaultAccount nowISO (email a) d =
      (Throw ("Account not found: " ++ email a), d1) /\
    files d1 = files d /\
    filter isWrite (fs_log d1) = filter isWrite (fs_log d).
Proof.
  intros F Hn. pose proof (readStorage_present_log nowISO d data F) as R.
  pose proof (proj2 (findIndex_None _ _) Hn) as I.
  eexists. unfold removeAccount, updateAccount, setDefaultAccount, removeFrom.
  rewrite R, I, (find_email_None _ _ Hn). repeat split.
Qed.

Lemma X16_unknown_address_is_refused_witness :
  exists d1,
    removeAccount "2024-06-01" "c@qq.com" (diskWith twoAccounts) =
      (Throw "Account not found: c@qq.com", d1) /\
    updateAccount "2024-06-01" (qqAccount "c@qq.com") (diskWith twoAccounts) =
      (Throw "Account not found: c@qq.com", d1) /\
    setDefaultAccount "2024-06-01" "c@qq.com" (diskWith twoAccounts) =
      (Throw "Account not found: c@qq.com", d1) /\
    files d1 = files (diskWith twoAccounts) /\
    filter isWrite (fs_log d1) = filter isWrite (fs_log (diskWith twoAccounts)).
Proof.
  apply (X16_unknown_address_is_refused "2024-06-01" (diskWith twoAccounts)
           twoAccounts (qqAccount "c@qq.com")).
  - reflexivity.
  - intros [H|[H|[]]]; discriminate H.
Defined.

(** ** Updating in place *)

Lemma set_nth_other (e : string) (l : list EmailAccount) (new b : EmailAccount) :
  forall i j,
    findIndex e l = Some i -> nth_error l j = Some b -> email b <> e ->
    nth_error (set_nth i new l) j = Some b.
Proof.
  induction l as [|a l IH]; intros i j Hf Hj Hb; [discriminate Hf|].
  cbn [findIndex] in Hf. destruct (String.eqb (email a) e) eqn:E.
  - injection Hf as <-. apply String.eqb_eq in E. destruct j as [|j].
    + cbn in Hj. injection Hj as <-. contradiction.
    + exact Hj.
  - destruct (findIndex e l) as [k|] eqn:Ek; [|discriminate].
    injection Hf as <-. destruct j as [|j]; [exact Hj|].
    cbn [set_nth nth_error]. cbn [nth_error] in Hj. now apply IH.
Qed.

Lemma update_account_same (a : EmailAccount) :
  email (update_account a (lastLogin a) (isActive a)) = email a.
Proof. reflexivity. Qed.

(** X17: [updateAccount] of a stored address on a writable disk with a
    valid store replaces one record and nothing else: the addresses and
    their order, the default account and every record with another
    address are as before, and the record found under the address
    afterwards is the one given, with the time of the call as last
    login. *)
Theorem X17_updateAccount_replaces_one_record
    (nowISO : string) (d : Disk) (data : StorageData) (a : EmailAccount) :
  files d STORAGE_PATH = Some (FileJson data) ->
  writable d = true ->
  In (email a) (List.map email (accounts data)) ->
  exists d1,
    updateAccount nowISO a d = (Ok tt, d1) /\
    List.map email (accounts (stored nowISO d1)) = List.map email (accounts data) /\
    defaultAccount (stored nowISO d1) = defaultAccount data /\
    (forall j b, nth_error (accounts data) j = Some b -> email b <> email a ->
                 nth_error (accounts (stored nowISO d1)) j = Some b) /\
    (noDisplayName (email a) (accounts data) ->
     fst (getAccount nowISO (email a) d1) =
       Some (update_account a (Some nowISO) (isActive a))).
Proof.
  intros F W Hin. destruct (readStorage_present nowISO d data F)
    as [d0 [R [F0 W0]]].
  destruct (findIndex_In _ _ Hin) as [i Hi].
  unfold updateAccount. rewrite R, Hi.
  match goal with
  | |- context [writeStorage nowISO ?s d0] =>
      destruct (writeStorage_writable nowISO s d0) as [d1 [H1 F1]];
        [congruence|]
  end.
  exists d1. split; [exact H1|].
  rewrite (stored_present nowISO d1 _ F1). cbn [stamp accounts defaultAccount].
  split; [now apply (findIndex_emails (email a))|].
  split; [reflexivity|]. split.
  - intros j b Hj Hb. now apply (set_nth_other (email a)).
  - intros Hn. rewrite getAccount_lookup, (stored_present nowISO d1 _ F1).
    cbn [stamp accounts]. now apply lookup_set_nth.
Qed.

Lemma X17_updateAccount_replaces_one_record_witness :
  exists d1,
    updateAccount "2024-06-02" (qqAccount "b@qq.com") (diskWith twoAccounts)
      = (Ok tt, d1) /\
    List.map email (accounts (stored "2024-06-02" d1)) = ["a@qq.com"; "b@qq.com"] /\
    fst (getAccount "2024-06-02" "b@qq.com" d1) =
      Some (update_account (qqAccount "b@qq.com") (Some "2024-06-02") true).
Proof.
  destruct (X17_updateAccount_replaces_one_record "2024-06-02"
              (diskWith twoAccounts) twoAccounts (qqAccount "b@qq.com"))
    as [d1 [H [M [_ [_ G]]]]].
  - reflexivity.
  - reflexivity.
  - right. now left.
  - exists d1. split; [exact H|]. split; [exact M|]. apply G.
    intros acc [<-|[<-|[]]]; discriminate.
Defined.

(** ** A disk that refuses writes *)





(** ** The default account *)

Lemma getDefaultAccount_lookup (nowISO : string) (d : Disk) (data : StorageData) :
  files d STORAGE_PATH = Some (FileJson data) ->
  fst (getDefaultAccount nowISO d) =
  match defaultAccount data with
  | Some e => if isSet (Some e) then lookup e (accounts data) else None
  | None => None
  end.
Proof.
  intros F. destruct (readStorage_present nowISO d data F) as [d0 [R [F0 _]]].
  unfold getDefaultAccount. rewrite R.
  destruct (defaultAccount data) as [e|]; [|reflexivity].
  destruct (isSet (Some e)); [|reflexivity].
  rewrite getAccount_lookup, (stored_present nowISO d0 data); [reflexivity|].
  now rewrite F0.
Qed.

Lemma lookup_by_email (e : string) (l : list EmailAccount) :
  noDisplayName e l ->
  lookup e l = find (fun acc => String.eqb (email acc) e) l.
Proof.
  induction l as [|a l IH]; intros Hn; [reflexivity|].
  unfold lookup. cbn [find].
  destruct (String.eqb (email a) e); [reflexivity|]. cbn [orb].
  pose proof (Hn a (or_introl eq_refl)) as Ha.
  destruct (displayName a) as [n|].
  - destruct (String.eqb n e) eqn:E.
    + apply String.eqb_eq in E. congruence.
    + apply IH. intros acc Hacc. apply Hn. now right.
  - apply IH. intros acc Hacc. apply Hn. now right.
Qed.

Lemma find_email_Some (e : string) (l : list EmailAccount) :
  In e (List.map email l) ->
  exists a, find (fun acc => String.eqb (email acc) e) l = Some a /\ email a = e.
Proof.
  induction l as [|b l IH]; intros Hin; [contradiction|]. cbn [find].
  destruct (String.eqb (email b) e) eqn:E.
  - exists b. split; [reflexivity|]. now apply String.eqb_eq.
  - apply IH. destruct Hin as [H|H]; [|exact H].
    apply String.eqb_neq in E. contradiction.
Qed.

(** X19: after [setDefaultAccount] of a stored, non-empty address on a
    writable disk with a valid store, [getDefaultAccount] returns the
    first stored account with that address, provided no stored account
    carries the address as its display name; the accounts themselves are
    not touched.  With no default account in the store
    [getDefaultAccount] returns [null]. *)
Theorem X19_setDefaultAccount_then_getDefaultAccount
    (nowISO : string) (d : Disk) (data : StorageData) (e : string) :
  files d STORAGE_PATH = Some (FileJson data) ->
  writable d = true ->
  In e (List.map email (accounts data)) ->
  e <> "" ->
  noDisplayName e (accounts data) ->
  exists d1 a,
    setDefaultAccount nowISO e d = (Ok tt, d1) /\
    accounts (stored nowISO d1) = accounts data /\
    defaultAccount (stored nowISO d1) = Some e /\
    find (fun acc => String.eqb (email acc) e) (accounts data) = Some a /\
    email a = e /\
    fst (getDefaultAccount nowISO d1) = Some a /\
    (defaultAccount data = None -> fst (getDefaultAccount nowISO d) = None).
Proof.
  intros F W Hin He Hn.
  destruct (readStorage_present nowISO d data F) as [d0 [R [F0 W0]]].
  destruct (find_email_Some e _ Hin) as [a [Ha Ea]].
  unfold setDefaultAccount. rewrite R, Ha.
  match goal with
  | |- context [writeStorage nowISO ?s d0] =>
      destruct (writeStorage_writable nowISO s d0) as [d1 [H1 F1]];
        [congruence|]
  end.
  exists d1, a. split; [exact H1|].
  rewrite (stored_present nowISO d1 _ F1). cbn [stamp accounts defaultAccount].
  repeat split; try assumption.
  - rewrite (getDefaultAccount_lookup nowISO d1 _ F1).
    cbn [stamp accounts defaultAccount].
    assert (S : isSet (Some e) = true).
    { destruct e; [contradiction|reflexivity]. }
    rewrite S, (lookup_by_email e _ Hn). exact Ha.
  - intros Hd. rewrite (getDefaultAccount_lookup nowISO d data F), Hd.
    reflexivity.
Qed.

Lemma X19_setDefaultAccount_then_getDefaultAccount_witness :
  exists d1 a,
    setDefaultAccount "2024-06-01" "b@qq.com" (diskWith twoAccounts) = (Ok tt, d1) /\
    email a = "b@qq.com" /\
    fst (getDefaultAccount "2024-06-01" d1) = Some a.
Proof.
  destruct (X19_setDefaultAccount_then_getDefaultAccount "2024-06-01"
              (diskWith twoAccounts) twoAccounts "b@qq.com")
    as [d1 [a [H [_ [_ [_ [E [G _]]]]]]]].
  - reflexivity.
  - reflexivity.
  - right. now left.
  - discriminate.
  - intros acc [<-|[<-|[]]]; discriminate.
  - exists d1, a. auto.
Defined.

(** ** The state of a token *)

(** X20: in the answer of [checkTokenExpiry] an expired token always
    needs a refresh; an account that is not stored, is not a Gmail
    account or has no expiry is never expired and never needs a refresh;
    neither does an account whose expiry is not a date, and its
    [expiresIn] is NaN. *)
Theorem X20_checkTokenExpiry_answers
    (nowISO : string) (now : Z) (parseDate : string -> option Z)
    (name : string) (d : Disk) :
  let st := fst (checkTokenExpiry nowISO now parseDate name d) in
  let found := fst (getAccount nowISO name d) in
  (isExpired st = true -> needsRefresh st = true) /\
  (found = None -> st = noExpiry) /\
  (forall a, found = Some a -> provider a <> "Gmail" -> st = noExpiry) /\
  (forall a, found = Some a -> isSet (tokenExpiry a) = false -> st = noExpiry) /\
  (forall a e, found = Some a -> provider a = "Gmail" ->
     tokenExpiry a = Some e -> e <> "" -> parseDate e = None ->
     st = {| isExpired := false; expiresIn := NotANumber;
             needsRefresh := false |}) /\
  (forall a e t, found = Some a -> provider a = "Gmail" ->
     tokenExpiry a = Some e -> e <> "" -> parseDate e = Some t ->
     isExpired st = (t <=? now)%Z /\
     needsRefresh st = (t <? now + 300000)%Z /\
     expiresIn st = Num (t - now)).
Proof.
  cbv zeta. unfold checkTokenExpiry.
  destruct (getAccount nowISO name d) as [found d1]. cbn [fst].
  split; [|split; [|split; [|split; [|split]]]].
  - unfold tokenStatus. destruct found as [a|]; [|discriminate].
    destruct (negb (String.eqb (provider a) "Gmail") ||
              negb (isSet (tokenExpiry a))); [discriminate|].
    destruct (tokenExpiry a) as [e|]; [|discriminate].
    destruct (parseDate e) as [t|]; [|discriminate].
    cbn [isExpired needsRefresh]. intros H. apply Z.leb_le in H.
    apply Z.ltb_lt. lia.
  - now intros ->.
  - intros a -> Hp. unfold tokenStatus. apply String.eqb_neq in Hp.
    now rewrite Hp.
  - intros a -> Hs. unfold tokenStatus. rewrite Hs.
    now rewrite orb_true_r.
  - intros a e -> Hp He Hne Hd. unfold tokenStatus.
    rewrite Hp, He, Hd. rewrite String.eqb_refl.
    destruct e; [contradiction|reflexivity].
  - intros a e t -> Hp He Hne Hd. unfold tokenStatus.
    rewrite Hp, He, Hd. destruct e; [contradiction|].
    rewrite String.eqb_refl. cbn [negb orb isSet isExpired needsRefresh expiresIn].
    split; [|split; [|reflexivity]].
    + destruct (Z.leb_spec (t - now) 0), (Z.leb_spec t now);
        try reflexivity; lia.
    + destruct (Z.ltb_spec (t - now) (5 * 60 * 1000)),
        (Z.ltb_spec t (now + 300000)); try reflexivity; lia.
Qed.

Local Close Scope string_scope.

(** * Further properties of the token lifecycle *)

Local Open Scope string_scope.

Lemma checkAndRefreshToken_by_status
    (now : Z) (nowISO : string) (parseDate : string -> option Z)
    (toISO : Z -> string) (localEndpoint : string -> string -> LocalResponse)
    (googleEndpoint : string -> GoogleResponse) (oauthClientConfigured : bool)
    (svc : Service) :
  checkAndRefreshToken now nowISO parseDate toISO localEndpoint
    googleEndpoint oauthClientConfigured svc =
  if needsRefresh (tokenStatus now parseDate (Some (account svc)))
  then if isSet (refreshToken (account svc))
       then match refreshOAuthToken now nowISO toISO localEndpoint
                    googleEndpoint oauthClientConfigured svc with
            | (Ok _, svc') => (true, svc')
            | (Throw _, svc') => (false, svc')
            end
       else (false, svc)
  else (true, svc).
Proof.
  unfold checkAndRefreshToken, tokenStatus, timeUntilExpiry.
  destruct (negb (String.eqb (provider (account svc)) "Gmail"));
    [reflexivity|]. cbn [orb].
  destruct (isSet (tokenExpiry (account svc))) eqn:S; [|reflexivity].
  cbn [negb]. destruct (tokenExpiry (account svc)) as [e|]; [|reflexivity].
  destruct (parseDate e) as [t|]; [|reflexivity].
  cbn [needsRefresh]. reflexivity.
Qed.

(** X21: the service and the store agree on when a token is refreshed:
    [checkAndRefreshToken] tries a refresh exactly when [checkTokenExpiry]
    would report [needsRefresh] for the account of the service; otherwise
    it answers that the token is usable and changes nothing.  When a
    refresh is due and there is no refresh token, the answer is negative
    and nothing is changed either. *)
Theorem X21_refresh_is_tried_exactly_when_needed
    (now : Z) (nowISO : string) (parseDate : string -> option Z)
    (toISO : Z -> string) (localEndpoint : string -> string -> LocalResponse)
    (googleEndpoint : string -> GoogleResponse) (oauthClientConfigured : bool)
    (svc : Service) :
  checkAndRefreshToken now nowISO parseDate toISO localEndpoint
    googleEndpoint oauthClientConfigured svc =
  if needsRefresh (tokenStatus now parseDate (Some (account svc)))
  then if isSet (refreshToken (account svc))
       then match refreshOAuthToken now nowISO toISO localEndpoint
                    googleEndpoint oauthClientConfigured svc with
            | (Ok _, svc') => (true, svc')
            | (Throw _, svc') => (false, svc')
            end
       else (false, svc)
  else (true, svc).
Proof.
  apply checkAndRefreshToken_by_status.
Qed.

(** ** A refresh that succeeds is saved *)




Section RefreshFacts.

Variable now : Z.
Variable nowISO : string.
Variable toISO : Z -> string.
Variable localEndpoint : string -> string -> LocalResponse.
Variable googleEndpoint : string -> GoogleResponse.
Variable oauthClientConfigured : bool.

Let fallback := fallbackRefreshOAuthToken now nowISO toISO googleEndpoint
                  oauthClientConfigured.
Let refresh := refreshOAuthToken now nowISO toISO localEndpoint googleEndpoint
                 oauthClientConfigured.

Lemma fallback_keeps (svc : Service) :
  refresh_keeps svc (snd (fallback svc)).
Proof.
  unfold fallback, fallbackRefreshOAuthToken.
  destruct (negb (isSet (refreshToken (account svc)))); [now split|].
  destruct (negb oauthClientConfigured); [now split|]. cbv zeta.
  destruct (googleEndpoint _) as [m|st|[e|] at_ ex rt]; try (now split).
  unfold saveAccount.
  destruct (updateAccount nowISO _ _) as [[[]|m] d2]; now split.
Qed.


Lemma refresh_keeps_trans (a b c : Service) :
  refresh_keeps a b -> refresh_keeps b c -> refresh_keeps a c.
Proof. intros [H1 H2] [H3 H4]. split; congruence. Qed.

Lemma refresh_all_keep (svc : Service) : refresh_keeps svc (snd (refresh svc)).
Proof.
  unfold refresh, refreshOAuthToken.
  destruct (negb (isSet (refreshToken (account svc)))); [now split|].
  cbv zeta.
  set (svc1 := log_net _ svc).
  assert (K1 : refresh_keeps svc svc1) by now split.
  assert (A : forall r : outcome unit * Service, refresh_keeps svc (snd r) ->
                refresh_keeps svc
                  (snd (match r with
                        | (Ok _, svc') => (Ok tt, svc')
                        | (Throw _, svc') =>
                            match fallback svc' with
                            | (Ok _, svc'') => (Ok tt, svc'')
                            | (Throw m, svc'') =>
                                (Throw ("OAuth token refresh failed: " ++ m),
                                 svc'')
                            end
                        end))).
  { intros [[[]|m] s'] H; [exact H|]. cbn [snd] in H.
    pose proof (fallback_keeps s') as F.
    destruct (fallback s') as [[[]|m'] s'']; cbn [snd] in *;
      now apply (refresh_keeps_trans svc s'). }
  apply A.
  destruct (localEndpoint _ _) as [m| |[|] at_ ex rt]; cbn [snd].
  - exact K1.
  - apply (refresh_keeps_trans svc svc1); [exact K1|apply fallback_keeps].
  - unfold saveAccount.
    destruct (updateAccount nowISO _ _) as [[[]|m] d2]; now split.
  - apply (refresh_keeps_trans svc svc1); [exact K1|apply fallback_keeps].
Qed.


End RefreshFacts.



(** ** The guard in front of every operation *)

(** X23: the guard that opens [connectImap], [getEmailTextContent] and
    [sendEmail] contacts no mail server, whatever it answers.  When it
    fails, in whichever way a refresh went wrong, the three operations
    stop there: they throw the re-authentication message ([sendEmail]
    wraps it), the state is the one the guard left, and the tool handlers
    sort the message as an expired authorisation. *)
Theorem X23_failed_guard_stops_the_operation
    (now : Z) (nowISO : string) (parseDate : string -> option Z)
    (toISO : Z -> string) (localEndpoint : string -> string -> LocalResponse)
    (googleEndpoint : string -> GoogleResponse) (oauthClientConfigured : bool)
    (imapConnect : EmailAccount -> outcome unit)
    (imapClient : EmailAccount -> ImapClient)
    (smtpSend : EmailAccount -> SendEmailOptions -> outcome string)
    (simpleParser : Buffer -> ParsedMail) (htmlToText : jsstring -> jsstring)
    (svc : Service) (uid : N) (options : SendEmailOptions) :
  let guard := ensureToken now nowISO parseDate toISO localEndpoint
                 googleEndpoint oauthClientConfigured svc in
  filter isMailEvent (net_log (snd guard)) = filter isMailEvent (net_log svc) /\
  (forall m, fst guard = Throw m ->
     m = msg_reauth /\
     connectImap now nowISO parseDate toISO localEndpoint googleEndpoint
       oauthClientConfigured imapConnect svc = (Throw msg_reauth, snd guard) /\
     getEmailTextContent now nowISO parseDate toISO localEndpoint
       googleEndpoint oauthClientConfigured imapClient simpleParser htmlToText
       uid svc = (Throw msg_reauth, snd guard) /\
     sendEmail now nowISO parseDate toISO localEndpoint googleEndpoint
       oauthClientConfigured smtpSend options svc =
       (Throw ("Authentication failed: " ++ msg_reauth ++
               ". Please re-authenticate."), snd guard) /\
     classifyError false m = AuthExpired).
Proof.
  cbv zeta. unfold connectImap, getEmailTextContent, sendEmail.
  unfold ensureToken.
  destruct (isOAuth (account svc)); [|split; [reflexivity|discriminate]].
  rewrite checkAndRefreshToken_by_status.
  destruct (needsRefresh _); [|split; [reflexivity|discriminate]].
  destruct (isSet (refreshToken (account svc))).
  - pose proof (refresh_all_keep now nowISO toISO localEndpoint googleEndpoint
                  oauthClientConfigured svc) as [_ M].
    destruct (refreshOAuthToken _ _ _ _ _ _ svc) as [[[]|m'] s'];
      cbn [fst snd] in *.
    + split; [exact M|discriminate].
    + split; [exact M|]. intros m H. injection H as <-. repeat split.
  - cbn [fst snd]. split; [reflexivity|].
    intros m H. injection H as <-. repeat split.
Qed.

(** ** How a failed connection reaches the user *)

Lemma prefix_append (n h b : string) :
  String.prefix n h = true -> String.prefix n (h ++ b) = true.
Proof.
  revert h. induction n as [|c n IH]; intros h H.
  - now destruct (h ++ b).
  - destruct h as [|x h]; [discriminate|].
    cbn [String.prefix String.append] in *.
    destruct (Ascii.ascii_dec c x); [|discriminate]. now apply IH.
Qed.



Lemma includes_append (n h b : string) :
  includes n h = true -> includes n (h ++ b) = true.
Proof.
  induction h as [|x h IH]; cbn [includes String.append]; intros H.
  - destruct (String.prefix n "") eqn:E; [|discriminate].
    pose proof (prefix_append n "" b E) as P. cbn [String.append] in P.
    destruct b; cbn [includes]; now rewrite P.
  - destruct (String.prefix n (String x h)) eqn:E.
    + pose proof (prefix_append n (String x h) b E) as P.
      cbn [String.append] in P. now rewrite P.
    + destruct (String.prefix n (String x (h ++ b))); [reflexivity|].
      now apply IH.
Qed.

Lemma includes_skip (n a h : string) :
  includes n h = true -> includes n (a ++ h) = true.
Proof.
  intros H. induction a as [|x a IH]; [exact H|].
  cbn [String.append includes].
  destruct (String.prefix n (String x (a ++ h))); [reflexivity|exact IH].
Qed.

Lemma includes_inside (n a h b : string) :
  includes n h = true -> includes n (a ++ h ++ b) = true.
Proof. intros H. now apply includes_skip, includes_append. Qed.



Local Close Scope string_scope.

(** * The logger *)

Local Open Scope string_scope.

Lemma runCalls_cons (lg : Logger) (call : LogCall) (calls : list LogCall)
    (c : Console) :
  runCalls lg (call :: calls) c = runCalls lg calls (runCall lg call c).
Proof. reflexivity. Qed.

Lemma runCall_cases (lg : Logger) (call : LogCall) (c : Console) :
  runCall lg call c =
  if shouldLog lg (callLevel call)
  then match getOutputStream lg (callLevel call) with
       | Stdout => {| stdout := hd ("", []) (stdout (runCall lg call c))
                                :: stdout c;
                      stderr := stderr c |}
       | Stderr => {| stdout := stdout c;
                      stderr := hd ("", []) (stderr (runCall lg call c))
                                :: stderr c |}
       end
  else c.
Proof.
  destruct call; cbn [runCall callLevel];
    unfold log_log, log_debug, log_info, log_warn, log_error;
    (destruct (shouldLog lg _); [|reflexivity]);
    now destruct (getOutputStream lg _).
Qed.

(** X25: with the transport [stdio] no logging call ever writes to the
    standard output, which carries the JSON-RPC traffic: every line goes
    to the standard error.  With any transport, warnings and errors go to
    the standard error; a disabled logger writes nothing; and a call
    below the log level writes nothing. *)
Theorem X25_logger_keeps_stdout_clean (lg : Logger) (calls : list LogCall)
    (c : Console) :
  (currentTransport lg = "stdio" ->
   stdout (runCalls lg calls c) = stdout c) /\
  (enabled lg = false -> runCalls lg calls c = c) /\
  (forall call, callLevel call = WARN \/ callLevel call = ERROR ->
     stdout (runCall lg call c) = stdout c) /\
  (forall call, (levelValue (callLevel call) < levelValue (logLevel lg))%N ->
     runCall lg call c = c) /\
  (forall call, enabled lg = true ->
     (levelValue (logLevel lg) <= levelValue (callLevel call))%N ->
     length (stdout (runCall lg call c)) + length (stderr (runCall lg call c))
     = S (length (stdout c) + length (stderr c))).
Proof.
  split; [|split; [|split; [|split]]].
  - intros T. revert c. induction calls as [|call calls IH]; intros c;
      [reflexivity|].
    rewrite runCalls_cons, IH, runCall_cases.
    destruct (shouldLog lg _); [|reflexivity].
    unfold getOutputStream. rewrite T. reflexivity.
  - intros E. revert c. induction calls as [|call calls IH]; intros c;
      [reflexivity|].
    rewrite runCalls_cons, IH, runCall_cases. unfold shouldLog.
    now rewrite E.
  - intros call H. rewrite runCall_cases.
    destruct (shouldLog lg _); [|reflexivity]. unfold getOutputStream.
    destruct (String.eqb (currentTransport lg) "stdio"); [reflexivity|].
    destruct H as [-> | ->]; reflexivity.
  - intros call H. rewrite runCall_cases. unfold shouldLog.
    apply N.leb_gt in H. rewrite H. now rewrite andb_false_r.
  - intros call E H. rewrite runCall_cases. unfold shouldLog.
    apply N.leb_le in H. rewrite E, H. cbn [andb].
    destruct (getOutputStream lg _); cbn [stdout stderr length]; lia.
Qed.

Local Close Scope string_scope.

(** * The detail tool and the listing *)

Local Open Scope string_scope.

Lemma getAccount_present (nowISO name : string) (d : Disk) (data : StorageData) :
  files d STORAGE_PATH = Some (FileJson data) ->
  exists d1,
    getAccount nowISO name d = (lookup name (accounts data), d1) /\
    files d1 = files d.
Proof.
  intros F. unfold getAccount. rewrite (readStorage_present_log nowISO d data F).
  eexists. split; reflexivity.
Qed.

Lemma isSet_nonempty (s : string) : s <> "" -> isSet (Some s) = true.
Proof. destruct s; [contradiction|reflexivity]. Qed.

(** X26: when the stored token of an active Gmail account has run out,
    the detail tool answers that the token has expired and stops: no
    call leaves the process and no file is changed.  This is so whether
    or not the account has a refresh token, so the refresh that the
    service would try is never reached for a token that is past its
    expiry. *)
Theorem X26_detail_tool_refuses_an_expired_token
    (now : Z) (nowISO : string) (parseDate : string -> option Z)
    (toISO : Z -> string) (localEndpoint : string -> string -> LocalResponse)
    (googleEndpoint : string -> GoogleResponse) (oauthClientConfigured : bool)
    (imapClient : EmailAccount -> ImapClient)
    (simpleParser : Buffer -> ParsedMail) (htmlToText : jsstring -> jsstring)
    (name : string) (uid : N) (w : World) (data : StorageData)
    (a : EmailAccount) (e : string) (t : Z) :
  name <> "" ->
  files (w_disk w) STORAGE_PATH = Some (FileJson data) ->
  lookup name (accounts data) = Some a ->
  isActive a = true -> provider a = "Gmail" ->
  tokenExpiry a = Some e -> e <> "" -> parseDate e = Some t ->
  (t <= now)%Z ->
  exists w',
    emailDetailHandler now nowISO parseDate toISO localEndpoint googleEndpoint
      oauthClientConfigured imapClient simpleParser htmlToText
      (Some name) uid w = (TokenExpired name, w') /\
    w_net w' = w_net w /\
    files (w_disk w') = files (w_disk w).
Proof.
  intros Hn F L A P E He D T.
  destruct (getAccount_present nowISO name (w_disk w) data F) as [d1 [G1 F1]].
  assert (F1' : files d1 STORAGE_PATH = Some (FileJson data)) by now rewrite F1.
  destruct (getAccount_present nowISO name d1 data F1') as [d2 [G2 F2]].
  unfold emailDetailHandler. rewrite (isSet_nonempty name Hn).
  unfold validateAccount. rewrite G1, L, A. cbn [negb].
  unfold checkTokenExpiry. rewrite G2, L. unfold tokenStatus.
  rewrite P, E, D, String.eqb_refl, (isSet_nonempty e He).
  cbn [negb orb isExpired].
  replace (t - now <=? 0)%Z with true by (symmetry; apply Z.leb_le; lia).
  eexists. split; [reflexivity|]. split; [reflexivity|].
  cbn [with_disk w_disk]. now rewrite F2, F1.
Qed.

Lemma X26_detail_tool_refuses_an_expired_token_witness :
  exists w',
    emailDetailHandler 900000%Z "2024-06-01T00:15:00Z" (fun _ => Some 0%Z)
      (fun _ => "") (fun _ _ => LocalJson true (Some "ya29.new")
                                  (Some "2024-06-01T01:15:00Z") None)
      (fun _ => GoogleHttpError "500") false
      (fun _ => {| client_connect := Ok tt;
                   client_fetchEnvelope := fun _ => [];
                   client_fetchSource := fun _ => [] |})
      (fun _ => {| parsed_text := None; parsed_html := None |}) (fun h => h)
      (Some "u@gmail.com") 7%N (worldOf staleService)
    = (TokenExpired "u@gmail.com", w') /\
    w_net w' = w_net (worldOf staleService) /\
    files (w_disk w') = files (w_disk (worldOf staleService)).
Proof.
  apply (X26_detail_tool_refuses_an_expired_token 900000%Z
           "2024-06-01T00:15:00Z" (fun _ => Some 0%Z) (fun _ => "")
           (fun _ _ => LocalJson true (Some "ya29.new")
                         (Some "2024-06-01T01:15:00Z") None)
           (fun _ => GoogleHttpError "500") false
           (fun _ => {| client_connect := Ok tt;
                        client_fetchEnvelope := fun _ => [];
                        client_fetchSource := fun _ => [] |})
           (fun _ => {| parsed_text := None; parsed_html := None |}) (fun h => h)
           "u@gmail.com" 7%N (worldOf staleService)
           {| accounts := [account staleService];
              defaultAccount := Some "u@gmail.com";
              lastUpdated := "2024-01-01" |}
           (account staleService) "2024-06-01T00:00:00Z" 0%Z).
  - discriminate.
  - reflexivity.
  - reflexivity.
  - reflexivity.
  - reflexivity.
  - reflexivity.
  - discriminate.
  - reflexivity.
  - discriminate.
Defined.

(** X27: for an active stored account that is not a Gmail account the
    detail tool connects to [imap.qq.com] under the address of the
    account, whatever IMAP host the account names, and answers from what
    the fetch gives: an error that was thrown, the expiry of the 30 s
    timer included, is sorted and shown, a message that does not exist
    and a message whose text is empty are both reported as not found, and
    any other text is shown. *)
Theorem X27_detail_tool_for_a_password_account
    (now : Z) (nowISO : string) (parseDate : string -> option Z)
    (toISO : Z -> string) (localEndpoint : string -> string -> LocalResponse)
    (googleEndpoint : string -> GoogleResponse) (oauthClientConfigured : bool)
    (imapClient : EmailAccount -> ImapClient)
    (simpleParser : Buffer -> ParsedMail) (htmlToText : jsstring -> jsstring)
    (name : string) (uid : N) (w : World) (data : StorageData)
    (a : EmailAccount) :
  name <> "" ->
  files (w_disk w) STORAGE_PATH = Some (FileJson data) ->
  lookup name (accounts data) = Some a ->
  isActive a = true -> provider a <> "Gmail" ->
  exists w',
    emailDetailHandler now nowISO parseDate toISO localEndpoint googleEndpoint
      oauthClientConfigured imapClient simpleParser htmlToText
      (Some name) uid w =
    (match performEmailFetch simpleParser htmlToText (imapClient a) uid with
     | Throw m => ErrorText (classifyError false m) m
     | Ok None => EmailNotFound uid
     | Ok (Some []) => EmailNotFound uid
     | Ok (Some (c :: t)) => EmailContent uid (c :: t)
     end, w') /\
    w_net w' = NetImapConnect "imap.qq.com" (email a) :: w_net w /\
    files (w_disk w') = files (w_disk w).
Proof.
  intros Hn F L A P. apply String.eqb_neq in P.
  destruct (getAccount_present nowISO name (w_disk w) data F) as [d1 [G1 F1]].
  assert (F1' : files d1 STORAGE_PATH = Some (FileJson data)) by now rewrite F1.
  destruct (getAccount_present nowISO name d1 data F1') as [d2 [G2 F2]].
  assert (F2' : files d2 STORAGE_PATH = Some (FileJson data)) by now rewrite F2.
  destruct (getAccount_present nowISO name d2 data F2') as [d3 [G3 F3]].
  unfold emailDetailHandler. rewrite (isSet_nonempty name Hn).
  unfold validateAccount. rewrite G1, L, A. cbn [negb].
  unfold checkTokenExpiry. rewrite G2, L. unfold tokenStatus.
  rewrite P. cbn [negb orb noExpiry isExpired]. rewrite G3, L.
  unfold fetchText, getEmailTextContent, ensureToken, isOAuth.
  unfold newService. cbn [account]. rewrite P. cbn [andb account log_net].
  destruct (performEmailFetch simpleParser htmlToText (imapClient a) uid)
    as [[[|c t]|]|m];
    (eexists; split; [reflexivity|]; rewrite P; split; [reflexivity|];
     cbn [worldOf w_disk disk log_net with_disk]; now rewrite F3, F2, F1).
Qed.

Lemma X27_detail_tool_for_a_password_account_witness :
  exists w',
    emailDetailHandler 0%Z "2024-06-01" (fun _ => None) (fun _ => "")
      (fun _ _ => LocalHttpError) (fun _ => GoogleHttpError "500") false
      (fun _ => {| client_connect := Ok tt;
                   client_fetchEnvelope := fun u => [{| fm_uid := u; fm_source := None |}];
                   client_fetchSource :=
                     fun u => [{| fm_uid := u; fm_source := Some [] |}] |})
      (fun _ => {| parsed_text := None; parsed_html := None |}) (fun h => h)
      (Some "a@qq.com") 7%N (worldOf (serviceOf (qqAccount "a@qq.com")))
    = (EmailNotFound 7%N, w') /\
    w_net w' = [NetImapConnect "imap.qq.com" "a@qq.com"].
Proof.
  destruct (X27_detail_tool_for_a_password_account 0%Z "2024-06-01"
              (fun _ => None) (fun _ => "")
              (fun _ _ => LocalHttpError) (fun _ => GoogleHttpError "500") false
              (fun _ => {| client_connect := Ok tt;
                           client_fetchEnvelope :=
                             fun u => [{| fm_uid := u; fm_source := None |}];
                           client_fetchSource :=
                             fun u => [{| fm_uid := u; fm_source := Some [] |}] |})
              (fun _ => {| parsed_text := None; parsed_html := None |})
              (fun h => h)
              "a@qq.com" 7%N (worldOf (serviceOf (qqAccount "a@qq.com")))
              {| accounts := [qqAccount "a@qq.com"];
                 defaultAccount := Some "a@qq.com";
                 lastUpdated := "2024-01-01" |}
              (qqAccount "a@qq.com"))
    as [w' [H [N _]]].
  - discriminate.
  - reflexivity.
  - reflexivity.
  - reflexivity.
  - discriminate.
  - exists w'. split; [exact H|exact N].
Defined.

(** ** The range of the listing *)

(** X28: for a mailbox that is not empty and a count of at least one,
    [getEmails] asks for the last [count] sequence numbers, or for all of
    them when the mailbox holds fewer: the range starts at 1 or later,
    ends at the number of messages, and spans the smaller of the two
    numbers.  For an empty mailbox, or when the server reports no number,
    nothing is asked for. *)
Theorem X28_getEmails_asks_for_the_last_messages (total count : Z) :
  (1 <= total)%Z -> (1 <= count)%Z ->
  exists start,
    fetchRange (Some total) count = Some (start, total) /\
    (1 <= start <= total)%Z /\
    (total - start + 1 = Z.min count total)%Z /\
    fetchRange (Some 0%Z) count = None /\
    fetchRange None count = None.
Proof.
  intros Ht Hc. exists (Z.max 1 (total - count + 1)).
  unfold fetchRange. replace (total =? 0)%Z with false
    by (symmetry; apply Z.eqb_neq; lia).
  repeat split; lia.
Qed.

Lemma X28_getEmails_asks_for_the_last_messages_witness :
  exists start,
    fetchRange (Some 12%Z) 5 = Some (start, 12%Z) /\
    (1 <= start <= 12)%Z /\
    (12 - start + 1 = Z.min 5 12)%Z.
Proof.
  destruct (X28_getEmails_asks_for_the_last_messages 12 5) as [s [H [B [M _]]]];
    [lia|lia|].
  exists s. auto.
Defined.

Local Close Scope string_scope.
